(** * Formulize step debugger: scope resolver, variable collector,
      view breakpoints and the debug session controller

    A shallow embedding of the step-debugger core of the formula editor:

    - [api/computation-engines/manual/interpreter.ts]: [getScopeName],
      [convertToNativeValue], [findVariableInFrame], [findVariableInStack],
      [collectVariablesFromStack], [initializeInterpreter];
    - the debug modal component: [getCurrentState], [refresh],
      [stepForward], [stepToView], [stepBackward], [toggleAutoPlay].

    JavaScript values are a small inductive type, the JS-Interpreter object
    is an interface (a type class over the type of its mutable state),
    exceptions are explicit results, and the handlers of the React
    component run in a state-and-exception monad over a world made of the
    pending component state, the heap of interpreter objects, the timer
    registry and a log of the calls made to the outside (interpreter
    steps, property lookups, highlights, store notifications).

    [console.log]/[console.warn] calls are left out: they write to the
    console only.  Numbers are integers (offsets, depths, counters). *)

From stdpp Require Import base option list strings gmap pretty.
From Stdlib Require Import ZArith Lia.

#[local] Set Warnings "-register-all".

Local Open Scope Z_scope.

(** ** JavaScript values *)

(** A value as the debugger sees it: primitives, an opaque handle to an
    object of the interpreter (a pseudo object), and the native arrays and
    records the debugger itself builds. *)
Inductive jsvalue : Type :=
  | VUndefined
  | VNull
  | VBool (b : bool)
  | VNum (z : Z)
  | VStr (s : string)
  | VObject (handle : nat)
  | VArray (items : list jsvalue)
  | VRecord (fields : list (string * jsvalue)).

(** [v !== undefined] *)
Definition is_defined (v : jsvalue) : bool :=
  match v with VUndefined => false | _ => true end.

(** JavaScript truthiness, as used by [!x], [x && y], [x || y]. *)
Definition truthy (v : jsvalue) : bool :=
  match v with
  | VUndefined | VNull => false
  | VBool b => b
  | VNum z => negb (Z.eqb z 0)
  | VStr s => negb (String.eqb s "")
  | VObject _ | VArray _ | VRecord _ => true
  end.

(** [Array.prototype.join(",")] on already converted items. *)
Fixpoint join_comma (l : list string) : string :=
  match l with
  | [] => ""
  | [s] => s
  | s :: rest => s +:+ "," +:+ join_comma rest
  end.

(** [String(v)].  A number is an integer here and prints in decimal, as
    [String] prints the integers of the safe range; the exponent
    notation of larger magnitudes is not modelled. *)
Fixpoint jsString (v : jsvalue) : string :=
  match v with
  | VUndefined => "undefined"
  | VNull => "null"
  | VBool true => "true"
  | VBool false => "false"
  | VNum z => pretty z
  | VStr s => s
  | VObject _ => "[object Object]"
  | VArray items =>
      join_comma
        (List.map (fun x => match x with
                            | VUndefined | VNull => ""
                            | _ => jsString x
                            end) items)
  | VRecord _ => "[object Object]"
  end.

(** ** Exceptions *)

(** What a [throw] carries: an [Error] object (its [name] and [message]) or
    any other value. *)
Inductive exn : Type :=
  | ErrorObj (ename emessage : string)
  | Thrown (v : jsvalue).

(** [String(err)], also what a template literal does with [err]. *)
Definition exnString (e : exn) : string :=
  match e with
  | ErrorObj n m =>
      if String.eqb n "" then m
      else if String.eqb m "" then n
      else n +:+ ": " +:+ m
  | Thrown v => jsString v
  end.

(** [err instanceof Error ? err.message : String(err)] *)
Definition exnMessage (e : exn) : string :=
  match e with
  | ErrorObj _ m => m
  | Thrown v => jsString v
  end.

(** The result of a call that may throw. *)
Inductive result (A : Type) : Type :=
  | Ok (a : A)
  | Throw (e : exn).
Arguments Ok {A} a.
Arguments Throw {A} e.

(** Reading a property of [null]: the [TypeError] the engine raises. *)
Definition nullDeref (prop : string) : exn :=
  ErrorObj "TypeError"
    ("Cannot read properties of null (reading '" +:+ prop +:+ "')").

(** ** Syntax nodes and stack frames *)

(** An ESTree node as the interpreter keeps it in a stack frame.  The
    fields are the ones the debugger probes; a field a node kind does not
    have is [None] ([undefined] for [lit_value]).  An array literal with a
    hole, as in [[ , 1]], has [None] at the hole in [elements]. *)
Inductive Node : Type := mkNode {
  type : string;
  start : Z;
  end_ : Z;
  name : option string;
  callee : option Node;
  arguments : option (list Node);
  elements : option (list (option Node));
  lit_value : jsvalue;
  declarations : option (list (option string));
  operator : option string;
  left : option Node;
  right : option Node
}.

Record Scope : Type := mkScope {
  object : jsvalue;
  constructor_name : string
}.

(** [func.node.id?.name] *)
Record FuncNode : Type := mkFuncNode { id_name : option string }.
Record Func : Type := mkFunc { func_node : option FuncNode }.

Record StackFrame : Type := mkFrame {
  node : option Node;
  scope : option Scope;
  func : option Func
}.

(** ** Calls to the outside *)

Inductive Event : Type :=
  | EvStep (interp : nat)
  | EvGetProperty (obj : jsvalue) (prop : string)
  | EvHighlight (hstart hend : Z)
  | EvNotify (vars : gmap string jsvalue) (pairs : list (string * string))
  | EvDispatch
  | EvSetInterval (handle : positive)
  | EvClearInterval (handle : positive).

Definition is_step (e : Event) : bool :=
  match e with EvStep _ => true | _ => false end.
Definition is_lookup (e : Event) : bool :=
  match e with EvGetProperty _ _ => true | _ => false end.
Definition is_notify (e : Event) : bool :=
  match e with EvNotify _ _ => true | _ => false end.
Definition is_highlight (e : Event) : bool :=
  match e with EvHighlight _ _ => true | _ => false end.

Definition count_events (p : Event -> bool) (l : list Event) : nat :=
  length (List.filter p l).

(** ** The interpreter interface *)

(** [JSInterpreter], over the type [I] of the state of an interpreter
    object.  [step] mutates the object: it returns [canContinue] (or
    throws) together with the new state of the object.  [getProperty] and
    [pseudoToNative] may throw, as
    the [try] blocks around their calls expect; [pseudoToNative] is an
    optional member. *)
Class JSInterpreter (I : Type) : Type := {
  step : I -> result bool * I;
  interp_value : I -> jsvalue;
  getStateStack : I -> list StackFrame;
  getGlobalScope : I -> jsvalue;
  setProperty : I -> jsvalue -> string -> jsvalue -> result I;
  getProperty : I -> jsvalue -> string -> result jsvalue;
  createNativeFunction : I -> (list jsvalue -> jsvalue) -> jsvalue;
  nativeToPseudo : I -> jsvalue -> result jsvalue;
  pseudoToNative : I -> option (jsvalue -> result jsvalue)
}.

(** ** A writer for the lookups of the resolver *)

(** The scope resolver and the variable collector catch every exception
    themselves; the only trace they leave is the sequence of property
    lookups they ask of the interpreter. *)
Definition Traced (A : Type) : Type := A * list Event.

Definition tret {A} (a : A) : Traced A := (a, []).
Definition tbind {A B} (m : Traced A) (k : A -> Traced B) : Traced B :=
  let '(a, t1) := m in let '(b, t2) := k a in (b, t1 ++ t2).

Declare Scope traced_scope.
Delimit Scope traced_scope with traced.
Notation "x <~ c1 ;; c2" := (tbind c1 (fun x => c2))
  (at level 100, c1 at next level, right associativity) : traced_scope.

(** ** interpreter.ts *)

(** [getScopeName(index, stackLength)] *)
Definition getScopeName (index stackLength : Z) : string :=
  if Z.eqb index 0 then "Global"
  else "Local-" +:+ pretty (stackLength - 1 - index).

Record FindResult : Type := mkFind {
  found : bool;
  res_value : jsvalue;
  scopeName : string
}.

Section Interpreter.
Context {I : Type} `{JSInterpreter I}.

(** [convertToNativeValue(interpreter, value)] *)
Definition convertToNativeValue (interpreter : I) (v : jsvalue)
  : result jsvalue :=
  match pseudoToNative interpreter with
  | Some conv => conv v
  | None => Ok v
  end.

(** [findVariableInFrame]: the property lookup and the conversion are
    both inside the [try]; an exception of either is caught and the frame
    reports not found. *)
Definition findVariableInFrame (interpreter : I) (state : StackFrame)
    (varName : string) (frameIndex stackLength : Z) : Traced FindResult :=
  let scopeName := getScopeName frameIndex stackLength in
  match scope state with
  | None => tret (mkFind false VUndefined scopeName)
  | Some sc =>
      if negb (truthy (object sc)) then
        tret (mkFind false VUndefined scopeName)
      else
        (match getProperty interpreter (object sc) varName with
         | Ok varValue =>
             if is_defined varValue then
               match convertToNativeValue interpreter varValue with
               | Ok nativeValue => mkFind true nativeValue scopeName
               | Throw _ => mkFind false VUndefined scopeName
               end
             else mkFind false VUndefined scopeName
         | Throw _ => mkFind false VUndefined scopeName
         end,
         [EvGetProperty (object sc) varName])
  end.

(** The loop of [findVariableInStack]: [n] frames are left to visit, the
    next one is [stack[n-1]].  The index stays inside the stack, so
    [stack[i]] is always a frame. *)
Fixpoint findVariableInStack_loop (interpreter : I)
    (stack : list StackFrame) (varName : string) (n : nat)
  : Traced FindResult :=
  match n with
  | O => tret (mkFind false VUndefined "")
  | S i =>
      match stack !! i with
      | Some state =>
          (r <~ findVariableInFrame interpreter state varName
                  (Z.of_nat i) (Z.of_nat (length stack)) ;;
           if found r then tret r
           else findVariableInStack_loop interpreter stack varName i)%traced
      | None => findVariableInStack_loop interpreter stack varName i
      end
  end.

(** [findVariableInStack(interpreter, stack, varName)] *)
Definition findVariableInStack (interpreter : I)
    (stack : list StackFrame) (varName : string) : Traced FindResult :=
  findVariableInStack_loop interpreter stack varName (length stack).

(** [varName in variables] on an object literal: own properties, and
    the properties every object inherits from [Object.prototype]. *)
Definition objectPrototypeKeys : list string :=
  [ "constructor"; "__defineGetter__"; "__defineSetter__";
    "hasOwnProperty"; "__lookupGetter__"; "__lookupSetter__";
    "isPrototypeOf"; "propertyIsEnumerable"; "toString"; "valueOf";
    "__proto__"; "toLocaleString" ].

Definition js_in (k : string) (o : gmap string jsvalue) : bool :=
  match o !! k with
  | Some _ => true
  | None => bool_decide (k ∈ objectPrototypeKeys)
  end.

(** The [for (const varName of varNames)] loop of
    [collectVariablesFromStack]. *)
Fixpoint collectVariables_loop (interpreter : I)
    (stack : list StackFrame) (varNames : list string)
    (variables : gmap string jsvalue) : Traced (gmap string jsvalue) :=
  match varNames with
  | [] => tret variables
  | varName :: rest =>
      (r <~ findVariableInStack interpreter stack varName ;;
       let variables' :=
         if found r && is_defined (res_value r)
            && negb (js_in varName variables)
         then <[varName := res_value r]> variables
         else variables in
       collectVariables_loop interpreter stack rest variables')%traced
  end.

(** [collectVariablesFromStack(interpreter, stack, varNames)] *)
Definition collectVariablesFromStack (interpreter : I)
    (stack : list StackFrame) (varNames : list string)
  : Traced (gmap string jsvalue) :=
  if (length stack =? 0)%nat || (length varNames =? 0)%nat then tret ∅
  else collectVariables_loop interpreter stack varNames ∅.

End Interpreter.

(** ** The debug modal: snapshots *)

(** [DebugState]; [highlight] is the pair [(start, end)]. *)
Record DebugState : Type := mkDebugState {
  dstep : Z;
  highlight : Z * Z;
  variables : gmap string jsvalue;
  stackTrace : list string;
  timestamp : Z;
  viewVariables : gmap string jsvalue
}.

(** [x || fallback] on an optional string. *)
Definition or_string (x : option string) (fallback : string) : string :=
  match x with
  | Some s => if String.eqb s "" then fallback else s
  | None => fallback
  end.

Definition opt_str (x : option string) : jsvalue :=
  match x with Some s => VStr s | None => VUndefined end.

(** The last element of the stack, [stack[stack.length - 1]]. *)
Definition top_frame (stack : list StackFrame) : option StackFrame :=
  stack !! (length stack - 1)%nat.

(** [node?.type], [frame.func?.node], [frame.func?.node?.id?.name],
    [node.left?.name]. *)
Definition type_of (n : option Node) : option string :=
  match n with Some n => Some (type n) | None => None end.

Definition name_of (n : option Node) : option string :=
  match n with Some n => name n | None => None end.

Definition func_node_of (frame : StackFrame) : option FuncNode :=
  match func frame with Some f => func_node f | None => None end.

Definition func_name_of (frame : StackFrame) : option string :=
  match func_node_of frame with Some fn => id_name fn | None => None end.

(** The node of the top frame, [null] on an empty stack. *)
Definition top_node (stack : list StackFrame) : option Node :=
  match top_frame stack with Some fr => node fr | None => None end.

(** The object literal stored under ["Node Info"], with its conditional
    spreads. *)
Definition nodeInfo (n : Node) : jsvalue :=
  VRecord
    ([("type", VStr (type n)); ("start", VNum (start n));
      ("end", VNum (end_ n))]
     ++ (if String.eqb (type n) "Identifier"
         then [("name", opt_str (name n))] else [])
     ++ (if String.eqb (type n) "VariableDeclaration"
         then [("declarations",
                match declarations n with
                | Some ds =>
                    VArray
                      (omap (fun d =>
                               match d with
                               | Some s =>
                                   if String.eqb s "" then None
                                   else Some (VStr s)
                               | None => None
                               end) ds)
                | None => VUndefined
                end)]
         else [])
     ++ (if String.eqb (type n) "AssignmentExpression"
         then [("operator", opt_str (operator n));
               ("leftName", opt_str (name_of (left n)))]
         else [])
     ++ (if String.eqb (type n) "BinaryExpression"
         then [("operator", opt_str (operator n));
               ("left", opt_str (type_of (left n)));
               ("right", opt_str (type_of (right n)))]
         else [])).

(** One line of [stackTrace]. *)
Definition frameLine (i : nat) (frame : StackFrame) : string :=
  "Frame " +:+ pretty (Z.of_nat i) +:+ ": "
  +:+ or_string (type_of (node frame)) "Unknown"
  +:+ match func_name_of frame with
      | Some s => if String.eqb s "" then "" else " (" +:+ s +:+ ")"
      | None => ""
      end.

(** The loop over the elements of the first argument of a [view] call.
    Reading [.type] of a hole ([null]) throws. *)
Fixpoint extractPairs (elems : list (option Node))
    (pairs : list (string * string)) : result (list (string * string)) :=
  match elems with
  | [] => Ok pairs
  | None :: _ => Throw (nullDeref "type")
  | Some element :: rest =>
      if String.eqb (type element) "ArrayExpression" then
        match elements element with
        | Some es =>
            if (2 <=? length es)%nat then
              match es !! 0%nat, es !! 1%nat with
              | Some (Some first), Some second =>
                  if String.eqb (type first) "Literal" then
                    match second with
                    | Some second =>
                        if String.eqb (type second) "Literal" then
                          extractPairs rest
                            (pairs ++ [(jsString (lit_value first),
                                        jsString (lit_value second))])
                        else extractPairs rest pairs
                    | None => Throw (nullDeref "type")
                    end
                  else extractPairs rest pairs
              | Some None, _ => Throw (nullDeref "type")
              | _, _ => extractPairs rest pairs
              end
            else extractPairs rest pairs
        | None => extractPairs rest pairs
        end
      else extractPairs rest pairs
  end.

Section Snapshot.
Context {I : Type} `{JSInterpreter I}.

(** [extractVariableNames] of [util/acorn] (it parses, so it may throw)
    and [updateStepModeVariables] of [formula/stepHandler] (whether the
    store accepts the notification or throws). *)
Variable extractVariableNames : list N -> result (list string).
Variable updateStepModeVariables :
  gmap string jsvalue -> list (string * string) -> result unit.

(** Modelled from the spec: [isAtView] of the interpreter module, which
    is imported by the debug modal but whose body is not part of the
    sources at hand.  "True exactly when the top-of-stack frame's current
    node is a call whose callee identifier is named [view]." *)
Definition isAtView (interpreter : I) : bool :=
  match top_node (getStateStack interpreter) with
  | Some n =>
      String.eqb (type n) "CallExpression"
      && match callee n with
         | Some c =>
             String.eqb (type c) "Identifier"
             && bool_decide (name c = Some "view")
         | None => false
         end
  | None => false
  end.

(** The [try] block that fills [variables]. *)
Definition debugVariables (code : list N) (interpreter : I)
    (stack : list StackFrame) (node : option Node)
  : Traced (gmap string jsvalue) :=
  match extractVariableNames code with
  | Throw err =>
      tret {[ "[Error]" :=
                VStr ("Could not extract variables: " +:+ exnString err) ]}
  | Ok varNames =>
      (extractedVariables <~
         collectVariablesFromStack interpreter stack varNames ;;
       let v1 : gmap string jsvalue := extractedVariables in
       let v2 :=
         if is_defined (interp_value interpreter) then
           <["Interpreter Value" :=
               match convertToNativeValue interpreter
                       (interp_value interpreter) with
               | Ok nv => nv
               | Throw _ => interp_value interpreter
               end]> v1
         else v1 in
       let v3 :=
         <["Current Node Type" :=
             VStr (or_string (type_of node) "Unknown")]> v2 in
       let v4 := <["Stack Depth" := VNum (Z.of_nat (length stack))]> v3 in
       let v5 :=
         <["Declared Variables" := VArray (VStr <$> varNames)]> v4 in
       let v6 :=
         match node with
         | Some n => <["Node Info" := nodeInfo n]> v5
         | None => v5
         end in
       let v7 :=
         match top_frame stack with
         | Some currentState =>
             let v :=
               match scope currentState with
               | Some sc =>
                   <["Current Scope Type" :=
                       VStr (constructor_name sc)]> v6
               | None => v6
               end in
             match func_node_of currentState with
             | Some fn =>
                 <["Current Function" :=
                     VStr (or_string (id_name fn) "Anonymous")]> v
             | None => v
             end
         | None => v6
         end in
       tret v7)%traced
  end.

(** The block that fills [viewVariables] once [isAtView] holds. *)
Definition viewVariablesOf (interpreter : I) (stack : list StackFrame)
  : Traced (gmap string jsvalue) :=
  match top_node stack with
  | Some n =>
      if bool_decide (name_of (callee n) = Some "view") then
        match arguments n with
        | Some (firstArg :: _) =>
            if String.eqb (type firstArg) "ArrayExpression" then
              match elements firstArg with
              | Some elems =>
                  match extractPairs elems [] with
                  | Ok [] => tret ∅
                  | Ok pairs =>
                      (vv <~ collectVariablesFromStack interpreter stack
                               (fst <$> pairs) ;;
                       let vv : gmap string jsvalue := vv in
                       (match updateStepModeVariables vv pairs with
                        | Ok _ => vv
                        | Throw err =>
                            <["[View Error]" :=
                                VStr ("Could not extract view variables: "
                                      +:+ exnString err)]> vv
                        end, [EvNotify vv pairs]))%traced
                  | Throw err =>
                      tret {[ "[View Error]" :=
                                VStr ("Could not extract view variables: "
                                      +:+ exnString err) ]}
                  end
              | None => tret ∅
              end
            else tret ∅
        | _ => tret ∅
        end
      else tret ∅
  | None => tret ∅
  end.

(** [getCurrentState(interpreter, stepNumber)]; [code] is the state
    variable the closure captured, [now] the value of [Date.now()]. *)
Definition getCurrentState (code : list N) (now : Z) (interpreter : I)
    (stepNumber : Z) : Traced DebugState :=
  let stack := getStateStack interpreter in
  let node := top_node stack in
  (vars <~ debugVariables code interpreter stack node ;;
   vv <~ (if isAtView interpreter
          then viewVariablesOf interpreter stack else tret ∅) ;;
   tret (mkDebugState stepNumber
           (match node with
            | Some n => (start n, end_ n)
            | None => (0, 0)
            end)
           vars
           (imap frameLine stack)
           now
           vv))%traced.

End Snapshot.

(** ** The debug modal: component state and the world around it *)

(** [IEnvironment], as far as the debugger reads it:
    [environment?.variables]. *)
Record IEnvironment : Type := mkEnv {
  env_variables : option (list (string * jsvalue))
}.

(** What a render of the component hands to the closures it creates: the
    state variables and the [environment] prop.  [interpreter] is a
    reference to an interpreter object (an index into the heap) or
    [null]. *)
Record ModalState : Type := mkModal {
  isRunning : bool;
  isComplete : bool;
  error : option string;
  autoPlaySpeed : Z;
  interpreter : option nat;
  code : list N;
  history : list DebugState;
  isSteppingToView : bool;
  environment : option IEnvironment
}.

Definition with_isRunning (b : bool) (s : ModalState) : ModalState :=
  mkModal b (isComplete s) (error s) (autoPlaySpeed s) (interpreter s)
    (code s) (history s) (isSteppingToView s) (environment s).
Definition with_isComplete (b : bool) (s : ModalState) : ModalState :=
  mkModal (isRunning s) b (error s) (autoPlaySpeed s) (interpreter s)
    (code s) (history s) (isSteppingToView s) (environment s).
Definition with_error (e : option string) (s : ModalState) : ModalState :=
  mkModal (isRunning s) (isComplete s) e (autoPlaySpeed s) (interpreter s)
    (code s) (history s) (isSteppingToView s) (environment s).
Definition with_interpreter (i : option nat) (s : ModalState)
  : ModalState :=
  mkModal (isRunning s) (isComplete s) (error s) (autoPlaySpeed s) i
    (code s) (history s) (isSteppingToView s) (environment s).
Definition with_history (h : list DebugState) (s : ModalState)
  : ModalState :=
  mkModal (isRunning s) (isComplete s) (error s) (autoPlaySpeed s)
    (interpreter s) (code s) h (isSteppingToView s) (environment s).
Definition with_isSteppingToView (b : bool) (s : ModalState)
  : ModalState :=
  mkModal (isRunning s) (isComplete s) (error s) (autoPlaySpeed s)
    (interpreter s) (code s) (history s) b (environment s).

(** The world a handler runs in: the pending component state [ui] (what
    the [set...] calls write and the next render will read), the
    interpreter objects, [autoPlayIntervalRef.current], the intervals
    registered with the browser (each with the render whose [stepForward]
    its callback calls), whether the editor view is mounted, the clock and
    the log of outside calls in the order they were made. *)
Record World (I : Type) : Type := mkWorld {
  ui : ModalState;
  heap : list I;
  autoPlayIntervalRef : option positive;
  intervals : list (positive * ModalState);
  next_handle : positive;
  codeMirrorView : bool;
  now : Z;
  events : list Event
}.
Arguments mkWorld {I}.
Arguments ui {I}.
Arguments heap {I}.
Arguments autoPlayIntervalRef {I}.
Arguments intervals {I}.
Arguments next_handle {I}.
Arguments codeMirrorView {I}.
Arguments now {I}.
Arguments events {I}.

Section WorldUpdates.
Context {I : Type}.

Definition with_ui (f : ModalState -> ModalState) (w : World I)
  : World I :=
  mkWorld (f (ui w)) (heap w) (autoPlayIntervalRef w) (intervals w)
    (next_handle w) (codeMirrorView w) (now w) (events w).
Definition with_heap (h : list I) (w : World I) : World I :=
  mkWorld (ui w) h (autoPlayIntervalRef w) (intervals w)
    (next_handle w) (codeMirrorView w) (now w) (events w).
Definition with_ref (r : option positive) (w : World I) : World I :=
  mkWorld (ui w) (heap w) r (intervals w)
    (next_handle w) (codeMirrorView w) (now w) (events w).
Definition with_intervals (l : list (positive * ModalState))
    (w : World I) : World I :=
  mkWorld (ui w) (heap w) (autoPlayIntervalRef w) l
    (next_handle w) (codeMirrorView w) (now w) (events w).
Definition with_next_handle (h : positive) (w : World I) : World I :=
  mkWorld (ui w) (heap w) (autoPlayIntervalRef w) (intervals w)
    h (codeMirrorView w) (now w) (events w).
Definition log (tr : list Event) (w : World I) : World I :=
  mkWorld (ui w) (heap w) (autoPlayIntervalRef w) (intervals w)
    (next_handle w) (codeMirrorView w) (now w) (events w ++ tr).

(** *** The handler monad: state and exceptions *)

Definition M (A : Type) : Type := World I -> result A * World I.

Definition ret {A} (a : A) : M A := fun w => (Ok a, w).

Definition bind {A B} (m : M A) (k : A -> M B) : M B :=
  fun w =>
    match m w with
    | (Ok a, w') => k a w'
    | (Throw e, w') => (Throw e, w')
    end.

(** [try { m } catch (err) { h err }]: what [m] did before it threw
    stays done. *)
Definition try_catch {A} (m : M A) (h : exn -> M A) : M A :=
  fun w =>
    match m w with
    | (Ok a, w') => (Ok a, w')
    | (Throw e, w') => h e w'
    end.

Definition throw {A} (e : exn) : M A := fun w => (Throw e, w).

Definition modify (f : World I -> World I) : M unit :=
  fun w => (Ok tt, f w).

Definition emit (e : Event) : M unit := modify (log [e]).

End WorldUpdates.

Declare Scope handler_scope.
Delimit Scope handler_scope with handler.
Notation "x <- c1 ;; c2" := (bind c1 (fun x => c2))
  (at level 100, c1 at next level, right associativity) : handler_scope.
Notation "c1 ;; c2" := (bind c1 (fun _ => c2))
  (at level 100, right associativity) : handler_scope.

(** ** Program text *)

(** The program text is a sequence of UTF-16 code units.  [isWhiteSpace]
    is the set [String.prototype.trim] strips: the white space and line
    terminator code points of ECMAScript. *)
Definition isWhiteSpace (c : N) : bool :=
  bool_decide (c ∈ [9; 10; 11; 12; 13; 32; 160; 5760; 8232; 8233; 8239;
                    8287; 12288; 65279]%N)
  || ((8192 <=? c)%N && (c <=? 8202)%N).

Fixpoint trimStart (s : list N) : list N :=
  match s with
  | c :: rest => if isWhiteSpace c then trimStart rest else s
  | [] => []
  end.

(** [s.trim()] *)
Definition trim (s : list N) : list N :=
  rev (trimStart (rev (trimStart s))).

(** [!s]: the empty string is the only falsy string. *)
Definition is_empty (s : list N) : bool :=
  match s with [] => true | _ => false end.

(** ** The debug modal: handlers *)

(** The [return] statement (or the end of the body) through which an
    invocation of [stepToView] leaves.  [ExitUnreached] marks the two
    places the model can name but the code cannot reach: the end of the
    body after the second loop, and a loop running out of the fuel the
    model gives it. *)
Inductive StepToViewExit : Type :=
  | ExitGuard
  | ExitCompletePast
  | ExitCeilingPast
  | ExitCompleteSeek
  | ExitFoundView
  | ExitCeilingSeek
  | ExitError
  | ExitUnreached.

(** How a [while] loop of [stepToView] ends: by a [return] of the whole
    handler, or by its condition turning false with [stepsCount] steps
    counted so far. *)
Inductive LoopEnd : Type :=
  | Returned (exit : StepToViewExit)
  | Fell (stepsCount : Z).

(** [const maxSteps = 100000] *)
Definition maxSteps : Z := 100000.

Section Handlers.
Context {I : Type} `{JSInterpreter I}.

(** [window.Interpreter]: the constructor of the JS-Interpreter library,
    when the library is loaded.  It parses the program, calls the
    initialisation function on the new object and its global object, and
    throws when either fails. *)
Variable windowInterpreter :
  option (list N -> (I -> jsvalue -> result I) -> result I).
Variable extractVariableNames : list N -> result (list string).
Variable updateStepModeVariables :
  gmap string jsvalue -> list (string * string) -> result unit.
(** [JSON.stringify] on the environment's variables. *)
Variable JSON_stringify : list (string * jsvalue) -> string.

Local Open Scope handler_scope.
Local Abbreviation M := (@M I).

(** *** State setters, the timer and the editor *)

Definition setInterpreter (i : option nat) : M unit :=
  modify (with_ui (with_interpreter i)).
Definition setHistory (f : list DebugState -> list DebugState) : M unit :=
  modify (with_ui (fun s => with_history (f (history s)) s)).
Definition setIsComplete (b : bool) : M unit :=
  modify (with_ui (with_isComplete b)).
Definition setError (e : option string) : M unit :=
  modify (with_ui (with_error e)).
Definition setIsRunning (b : bool) : M unit :=
  modify (with_ui (with_isRunning b)).
Definition setIsSteppingToView (b : bool) : M unit :=
  modify (with_ui (with_isSteppingToView b)).

(** [highlightCode(codeMirrorRef, start, end)] *)
Definition highlightCode (hl : Z * Z) : M unit :=
  emit (EvHighlight (fst hl) (snd hl)).

(** [clearInterval(handle)] *)
Definition clearInterval (h : positive) : M unit :=
  modify (fun w =>
    log [EvClearInterval h]
      (with_intervals
         (List.filter (fun p => negb (Pos.eqb (fst p) h)) (intervals w))
         w)).

(** [if (autoPlayIntervalRef.current) { clearInterval(...);
    autoPlayIntervalRef.current = null; }]: a handle is a positive
    number, so a handle that is there is truthy. *)
Definition clearAutoPlay : M unit :=
  fun w =>
    match autoPlayIntervalRef w with
    | Some h => (clearInterval h ;; modify (with_ref None)) w
    | None => (Ok tt, w)
    end.

(** [interpreter.step()] on the object [interp] refers to.  A reference
    held by the component always points into the heap; the model throws
    on one that does not. *)
Definition dangling : exn :=
  ErrorObj "ReferenceError" "interpreter object not allocated".

Definition stepM (interp : nat) : M bool :=
  fun w =>
    match heap w !! interp with
    | Some i =>
        let '(r, i') := step i in
        let w' :=
          log [EvStep interp]
            (with_heap (<[interp := i']> (heap w)) w) in
        match r with
        | Ok canContinue => (Ok canContinue, w')
        | Throw e => (Throw e, w')
        end
    | None => (Throw dangling, w)
    end.

Definition isAtViewM (interp : nat) : M bool :=
  fun w =>
    match heap w !! interp with
    | Some i => (Ok (isAtView i), w)
    | None => (Throw dangling, w)
    end.

(** [getCurrentState] as the closure of render [r] runs it: [code] is
    the one [r] captured. *)
Definition getCurrentStateM (r : ModalState) (interp : nat)
    (stepNumber : Z) : M DebugState :=
  fun w =>
    match heap w !! interp with
    | Some i =>
        let '(st, tr) :=
          getCurrentState extractVariableNames updateStepModeVariables
            (code r) (now w) i stepNumber in
        (Ok st, log tr w)
    | None => (Throw dangling, w)
    end.

(** *** initializeInterpreter *)

(** The loop of [initFunc] over [Object.entries(envVariables)]. *)
Fixpoint initVariables (entries : list (string * jsvalue))
    (interp : I) (globalObject : jsvalue) : result I :=
  match entries with
  | [] => Ok interp
  | (key, variable) :: rest =>
      let fallback := setProperty interp globalObject key variable in
      let r :=
        match nativeToPseudo interp variable with
        | Ok pseudoVariable =>
            match setProperty interp globalObject key pseudoVariable with
            | Ok interp' => Ok interp'
            | Throw _ => fallback
            end
        | Throw _ => fallback
        end in
      match r with
      | Ok interp' => initVariables rest interp' globalObject
      | Throw e => Throw e
      end
  end.

Definition envVariablesOf (environment : option IEnvironment)
  : list (string * jsvalue) :=
  match environment with
  | Some env =>
      match env_variables env with Some vs => vs | None => [] end
  | None => []
  end.

(** [initFunc(interpreter, globalObject)] *)
Definition initFunc (environment : option IEnvironment)
    (interp : I) (globalObject : jsvalue) : result I :=
  let envVariables := envVariablesOf environment in
  match initVariables envVariables interp globalObject with
  | Ok interp' =>
      setProperty interp' globalObject "getVariablesJSON"
        (createNativeFunction interp'
           (fun _ => VStr (JSON_stringify envVariables)))
  | Throw e => Throw e
  end.

(** [new InterpreterClass(...)] puts a new object on the heap. *)
Definition alloc (i : I) : M nat :=
  fun w => (Ok (length (heap w)), with_heap (heap w ++ [i]) w).

(** [initializeInterpreter(currentCode, environment, setError)] *)
Definition initializeInterpreter (currentCode : list N)
    (environment : option IEnvironment) (setError : string -> M unit)
  : M (option nat) :=
  match windowInterpreter with
  | None =>
      setError "JS-Interpreter not loaded. Please refresh the page." ;;
      ret None
  | Some InterpreterClass =>
      if is_empty (trim currentCode) then
        setError "No code available to execute" ;; ret None
      else
        match InterpreterClass currentCode (initFunc environment) with
        | Ok i => interp <- alloc i ;; ret (Some interp)
        | Throw err =>
            setError ("Code error: " +:+ exnMessage err) ;; ret None
        end
  end.

(** *** refresh *)

Definition refresh (r : ModalState) : M unit :=
  setInterpreter None ;;
  setHistory (fun _ => []) ;;
  setIsComplete false ;;
  setError None ;;
  setIsRunning false ;;
  setIsSteppingToView false ;;
  clearAutoPlay ;;
  (fun w => if codeMirrorView w then emit EvDispatch w else (Ok tt, w)) ;;
  if is_empty (trim (code r)) then setError (Some "No code to debug")
  else
    newInterpreter <-
      initializeInterpreter (code r) (environment r)
        (fun msg => setError (Some msg)) ;;
    match newInterpreter with
    | None => ret tt
    | Some interp =>
        setInterpreter (Some interp) ;;
        initialState <- getCurrentStateM r interp 0 ;;
        setHistory (fun _ => [initialState]) ;;
        highlightCode (highlight initialState)
    end.

(** *** stepForward *)

Definition stepForward (r : ModalState) : M unit :=
  match interpreter r with
  | None => ret tt
  | Some interp =>
      if isComplete r then ret tt
      else
        try_catch
          (canContinue <- stepM interp ;;
           newState <-
             getCurrentStateM r interp (Z.of_nat (length (history r))) ;;
           setHistory (fun prev => prev ++ [newState]) ;;
           highlightCode (highlight newState) ;;
           (if negb canContinue then
              setIsComplete true ;;
              setIsRunning false ;;
              setIsSteppingToView false ;;
              clearAutoPlay
            else ret tt) ;;
           (if isSteppingToView r then
              atView <- isAtViewM interp ;;
              if atView then setIsSteppingToView false else ret tt
            else ret tt))
          (fun err =>
             setError (Some ("Execution error: " +:+ exnString err)) ;;
             setIsRunning false ;;
             setIsSteppingToView false ;;
             clearAutoPlay)
  end.

(** *** stepToView *)

(** The first loop: step until no longer at the [view] call.  It is
    written with fuel; [stepToView] gives it [maxSteps] units, which the
    counter test exhausts first. *)
Fixpoint stepPastViewLoop (fuel : nat) (r : ModalState) (interp : nat)
    (stepsCount : Z) (stillAtSameView : bool) : M LoopEnd :=
  if stillAtSameView && (stepsCount <? maxSteps) then
    match fuel with
    | O => ret (Returned ExitUnreached)
    | S fuel' =>
        canContinue <- stepM interp ;;
        let stepsCount := stepsCount + 1 in
        newState <-
          getCurrentStateM r interp (Z.of_nat (length (history r))) ;;
        setHistory (fun prev => prev ++ [newState]) ;;
        highlightCode (highlight newState) ;;
        if negb canContinue then
          setIsComplete true ;;
          setIsSteppingToView false ;;
          ret (Returned ExitCompletePast)
        else
          stillAtSameView <- isAtViewM interp ;;
          stepPastViewLoop fuel' r interp stepsCount stillAtSameView
    end
  else ret (Fell stepsCount).

(** The second loop: step until the next [view] call. *)
Fixpoint stepToNextViewLoop (fuel : nat) (r : ModalState) (interp : nat)
    (stepsCount : Z) (foundNextView : bool) : M LoopEnd :=
  if negb foundNextView && (stepsCount <? maxSteps) then
    match fuel with
    | O => ret (Returned ExitUnreached)
    | S fuel' =>
        canContinue <- stepM interp ;;
        let stepsCount := stepsCount + 1 in
        state <-
          getCurrentStateM r interp (Z.of_nat (length (history r))) ;;
        setHistory (fun prev => prev ++ [state]) ;;
        highlightCode (highlight state) ;;
        if negb canContinue then
          setIsComplete true ;;
          setIsSteppingToView false ;;
          ret (Returned ExitCompleteSeek)
        else
          atView <- isAtViewM interp ;;
          if atView then
            setIsSteppingToView false ;;
            ret (Returned ExitFoundView)
          else stepToNextViewLoop fuel' r interp stepsCount foundNextView
    end
  else ret (Fell stepsCount).

Definition stepToView (r : ModalState) : M StepToViewExit :=
  match interpreter r with
  | None => ret ExitGuard
  | Some interp =>
      if isComplete r then ret ExitGuard
      else
        setIsSteppingToView true ;;
        try_catch
          (atView <- isAtViewM interp ;;
           past <-
             (if atView then
                e <- stepPastViewLoop (Z.to_nat maxSteps) r interp 0 true ;;
                match e with
                | Returned exit => ret (Returned exit)
                | Fell stepsCount =>
                    if maxSteps <=? stepsCount then
                      setError
                        (Some "Maximum steps reached while trying to step past view() breakpoint") ;;
                      setIsSteppingToView false ;;
                      ret (Returned ExitCeilingPast)
                    else ret (Fell stepsCount)
                end
              else ret (Fell 0)) ;;
           match past with
           | Returned exit => ret exit
           | Fell stepsCount =>
               e <- stepToNextViewLoop (Z.to_nat maxSteps) r interp
                      stepsCount false ;;
               match e with
               | Returned exit => ret exit
               | Fell stepsCount =>
                   if maxSteps <=? stepsCount then
                     setError
                       (Some "Maximum steps reached while looking for next View") ;;
                     setIsSteppingToView false ;;
                     ret ExitCeilingSeek
                   else ret ExitUnreached
               end
           end)
          (fun err =>
             setError (Some ("Execution error: " +:+ exnString err)) ;;
             setIsSteppingToView false ;;
             ret ExitError)
  end.

(** *** stepBackward *)

Definition stepBackward (r : ModalState) : M unit :=
  if (length (history r) <=? 1)%nat then ret tt
  else
    match history r !! (length (history r) - 2)%nat with
    | Some prevState => highlightCode (highlight prevState)
    | None => ret tt
    end.

(** *** toggleAutoPlay and the interval it registers *)

(** [setInterval(callback, delay)], with the render whose [stepForward]
    the callback calls. *)
Definition setInterval (r : ModalState) : M positive :=
  fun w =>
    let h := next_handle w in
    (Ok h,
     log [EvSetInterval h]
       (with_next_handle (Pos.succ h)
          (with_intervals (intervals w ++ [(h, r)]) w))).

Definition toggleAutoPlay (r : ModalState) : M unit :=
  fun w =>
    match autoPlayIntervalRef w with
    | Some h =>
        (clearInterval h ;;
         modify (with_ref None) ;;
         setIsRunning false) w
    | None =>
        (setIsRunning true ;;
         h <- setInterval r ;;
         modify (with_ref (Some h))) w
    end.

(** The browser fires the interval [h]: its callback calls the
    [stepForward] of the render that registered it. *)
Definition tick (h : positive) : M unit :=
  fun w =>
    match List.find (fun p => Pos.eqb (fst p) h) (intervals w) with
    | Some (_, r) => stepForward r w
    | None => (Ok tt, w)
    end.

(** A button calls the handler of the current render, which closed over
    the committed state. *)
Definition click {A} (handler : ModalState -> M A) : M A :=
  fun w => handler (ui w) w.

End Handlers.

(** ** A scripted interpreter, for concrete runs *)

(** An interpreter object whose future is written down: [tscript] lists,
    for each coming [step()], what it returns and the stack it leaves;
    once the script is used up, [step()] leaves the stack alone and
    returns [tloop].  [tprops] is the content of the scope objects, and
    the pseudo objects listed in [tbad] are the ones [pseudoToNative]
    rejects. *)
Record Toy : Type := mkToy {
  tstack : list StackFrame;
  tscript : list (bool * list StackFrame);
  tloop : bool;
  tprops : list (nat * string * jsvalue);
  tbad : list nat;
  tvalue : jsvalue
}.

Definition toy_step (t : Toy) : result bool * Toy :=
  match tscript t with
  | (canContinue, stack) :: rest =>
      (Ok canContinue,
       mkToy stack rest (tloop t) (tprops t) (tbad t) (tvalue t))
  | [] => (Ok (tloop t), t)
  end.

Fixpoint toy_lookup (props : list (nat * string * jsvalue)) (h : nat)
    (k : string) : jsvalue :=
  match props with
  | (h', k', v) :: rest =>
      if Nat.eqb h h' && String.eqb k k' then v else toy_lookup rest h k
  | [] => VUndefined
  end.

Definition toy_getProperty (t : Toy) (obj : jsvalue) (k : string)
  : result jsvalue :=
  match obj with
  | VObject h => Ok (toy_lookup (tprops t) h k)
  | _ => Throw (ErrorObj "TypeError" "not an object")
  end.

Definition toy_pseudoToNative (t : Toy) (v : jsvalue) : result jsvalue :=
  match v with
  | VObject h =>
      if bool_decide (h ∈ tbad t)
      then Throw (ErrorObj "Error" "Object is not pseudo")
      else Ok v
  | _ => Ok v
  end.

#[export] Instance toy_interpreter : JSInterpreter Toy := {|
  step := toy_step;
  interp_value := tvalue;
  getStateStack := tstack;
  getGlobalScope := fun _ => VObject 0;
  setProperty := fun t obj k v =>
    match obj with
    | VObject h =>
        Ok (mkToy (tstack t) (tscript t) (tloop t)
              ((h, k, v) :: tprops t) (tbad t) (tvalue t))
    | _ => Throw (ErrorObj "TypeError" "not an object")
    end;
  getProperty := toy_getProperty;
  createNativeFunction := fun _ _ => VObject 1;
  nativeToPseudo := fun _ v => Ok v;
  pseudoToNative := fun t => Some (toy_pseudoToNative t)
|}.

(** Syntax nodes of the programs used below. *)
Definition plainNode (ty : string) (s e : Z) : Node :=
  mkNode ty s e None None None None VUndefined None None None None.

Definition literal (v : jsvalue) : Node :=
  mkNode "Literal" 0 0 None None None None v None None None None.

Definition arrayExpr (elems : list (option Node)) : Node :=
  mkNode "ArrayExpression" 0 0 None None None (Some elems) VUndefined
    None None None None.

Definition identifier (x : string) : Node :=
  mkNode "Identifier" 0 0 (Some x) None None None VUndefined
    None None None None.

Definition callExpr (f : Node) (args : list Node) (s e : Z) : Node :=
  mkNode "CallExpression" s e None (Some f) (Some args) None VUndefined
    None None None None.

Definition pairExpr (a b : string) : Node :=
  arrayExpr [Some (literal (VStr a)); Some (literal (VStr b))].

(** [view([["x","X"],["y","Y"]])] *)
Definition viewXY : Node :=
  callExpr (identifier "view")
    [arrayExpr [Some (pairExpr "x" "X"); Some (pairExpr "y" "Y")]] 10 40.


(** [view([ , ["x","X"]])]: the first element of the array is a hole. *)
Definition viewHole : Node :=
  callExpr (identifier "view")
    [arrayExpr [None; Some (pairExpr "x" "X")]] 10 28.

Definition frameAt (n : Node) (sc : option Scope) : StackFrame :=
  mkFrame (Some n) sc None.

Definition scopeObj (h : nat) : option Scope :=
  Some (mkScope (VObject h) "Scope").

(** The collaborators of the concrete runs: variable names are found
    without error, the store accepts every notification. *)
Definition toy_extractVariableNames (names : list string)
  : list N -> result (list string) := fun _ => Ok names.
Definition toy_updateStepModeVariables
  : gmap string jsvalue -> list (string * string) -> result unit :=
  fun _ _ => Ok tt.

Definition initialModal (src : list N) : ModalState :=
  mkModal false false None 500 None src [] false None.

Definition initialWorld (src : list N) (objs : list Toy) : World Toy :=
  mkWorld (initialModal src) objs None [] 1%positive true 0 [].

(** ** Notions of the specification *)

Section Notions.
Context {I : Type} `{JSInterpreter I}.

(** The frame binds [varName] to a defined value: its scope has an
    object whose lookup of [varName] returns a value other than
    [undefined]. *)
Definition bound_in (interp : I) (state : StackFrame) (varName : string)
  : option jsvalue :=
  match scope state with
  | Some sc =>
      if truthy (object sc) then
        match getProperty interp (object sc) varName with
        | Ok v => if is_defined v then Some v else None
        | Throw _ => None
        end
      else None
  | None => None
  end.

(** The frame resolves [varName]: it binds it to a defined value and the
    conversion of that value to a native value goes through. *)
Definition resolved_in (interp : I) (state : StackFrame)
    (varName : string) : option jsvalue :=
  match bound_in interp state varName with
  | Some v =>
      match convertToNativeValue interp v with
      | Ok nv => Some nv
      | Throw _ => None
      end
  | None => None
  end.

(** The shadowing rule as the specification words it: whenever frame [i]
    is the one nearest the top of the stack that binds [varName] to a
    defined value, the resolver reports it found, with the native form
    of that frame's value and that frame's label. *)
Definition innermost_binding_wins (interp : I)
    (stack : list StackFrame) (varName : string) : Prop :=
  forall (i : nat) (state : StackFrame) (v : jsvalue),
    stack !! i = Some state ->
    bound_in interp state varName = Some v ->
    (forall j state', (i < j)%nat -> stack !! j = Some state' ->
                      bound_in interp state' varName = None) ->
    let r := fst (findVariableInStack interp stack varName) in
    found r = true
    /\ convertToNativeValue interp v = Ok (res_value r)
    /\ scopeName r = getScopeName (Z.of_nat i) (Z.of_nat (length stack)).

End Notions.

(** An element of the first argument of [view] has the shape of a pair: a
    literal array of at least two elements whose first two are literal
    nodes. *)
Definition is_literal (n : option Node) : bool :=
  match n with
  | Some n => String.eqb (type n) "Literal"
  | None => false
  end.

Definition pair_of (element : option Node) : option (string * string) :=
  match element with
  | Some e =>
      if String.eqb (type e) "ArrayExpression" then
        match elements e with
        | Some (Some first :: Some second :: _) =>
            if is_literal (Some first) && is_literal (Some second)
            then Some (jsString (lit_value first),
                       jsString (lit_value second))
            else None
        | _ => None
        end
      else None
  | None => None
  end.

(** The element is a hole, or a literal array that has a hole where the
    extractor reads a type: in first place, or in second place behind a
    literal. *)
Definition has_hole (element : option Node) : bool :=
  match element with
  | None => true
  | Some e =>
      String.eqb (type e) "ArrayExpression"
      && match elements e with
         | Some (None :: _ :: _) => true
         | Some (Some first :: None :: _) => is_literal (Some first)
         | _ => false
         end
  end.

(** A trace made of property lookups only. *)
Definition lookups_only (tr : list Event) : Prop :=
  Forall (fun e => is_lookup e = true) tr.

(** The number of [interpreter.step()] calls made so far. *)
Definition nsteps {I : Type} (w : World I) : Z :=
  Z.of_nat (count_events is_step (events w)).

(** Two component states that differ in [history] at most. *)
Definition same_controls (u u' : ModalState) : Prop :=
  isRunning u' = isRunning u
  /\ isComplete u' = isComplete u
  /\ error u' = error u
  /\ autoPlaySpeed u' = autoPlaySpeed u
  /\ interpreter u' = interpreter u
  /\ code u' = code u
  /\ isSteppingToView u' = isSteppingToView u
  /\ environment u' = environment u.

(** What an invocation of [stepToView] that starts in [w] and leaves
    through [exit] in [w'] guarantees: it left through a [return] of the
    code, it made at most [maxSteps] steps, the pending history only grew,
    the guard changes nothing, and at the ceiling an error message is set,
    the stepping flag is cleared and [isComplete] is left as it was. *)
Definition stepToView_post {I : Type} (w : World I)
    (exit : StepToViewExit) (w' : World I) : Prop :=
  exit <> ExitUnreached
  /\ nsteps w <= nsteps w' <= nsteps w + maxSteps
  /\ history (ui w) `prefix_of` history (ui w')
  /\ (exit = ExitGuard -> w' = w)
  /\ (exit = ExitCeilingPast \/ exit = ExitCeilingSeek ->
      nsteps w' = nsteps w + maxSteps
      /\ (exists msg, error (ui w') = Some msg)
      /\ isSteppingToView (ui w') = false
      /\ isComplete (ui w') = isComplete (ui w)).

(** What one run of a loop of [stepToView] guarantees: [k] steps were
    made, the counter stays within [maxSteps], the pending history only
    grew, and the object is still there. *)
Definition loop_progress {I : Type} (sc k : Z) (w w' : World I)
    (interp : nat) : Prop :=
  0 <= k /\ sc + k <= maxSteps
  /\ nsteps w' = nsteps w + k
  /\ history (ui w) `prefix_of` history (ui w')
  /\ (exists i', heap w' !! interp = Some i').

(** The three ways initialisation can fail: the library is not loaded,
    the text is empty or white space only, the constructor throws. *)
Definition cannot_initialize {I : Type} `{JSInterpreter I}
    (windowInterpreter :
       option (list N -> (I -> jsvalue -> result I) -> result I))
    (JSON_stringify : list (string * jsvalue) -> string)
    (currentCode : list N) (environment : option IEnvironment) : Prop :=
  windowInterpreter = None
  \/ forallb isWhiteSpace currentCode = true
  \/ exists InterpreterClass err,
       windowInterpreter = Some InterpreterClass
       /\ InterpreterClass currentCode
            (initFunc JSON_stringify environment) = Throw err.

Section StepNotions.
Context {I : Type} `{JSInterpreter I}.
Variable extractVariableNames : list N -> result (list string).
Variable updateStepModeVariables :
  gmap string jsvalue -> list (string * string) -> result unit.

(** The snapshot taken after a step of the object [i] under the closure
    of render [r], and the lookups and notification taking it made. *)
Definition snapshot_after (r : ModalState) (w : World I) (i : I)
    (stepNumber : Z) : Traced DebugState :=
  getCurrentState extractVariableNames updateStepModeVariables
    (code r) (now w) (snd (step i)) stepNumber.

(** The world once a step that returned normally has been recorded:
    the object stepped, the snapshot appended to the pending history and
    its range highlighted. *)
Definition after_step (r : ModalState) (interp : nat) (w : World I)
    (i : I) (stepNumber : Z) : World I :=
  let st := snapshot_after r w i stepNumber in
  log [EvHighlight (fst (highlight (fst st))) (snd (highlight (fst st)))]
    (with_ui (fun s => with_history (history s ++ [fst st]) s)
       (log (snd st)
          (log [EvStep interp]
             (with_heap (<[interp := snd (step i)]> (heap w)) w)))).

(** A runaway program: from [i] on, every step returns [true] and never
    lands on a [view] call. *)
Definition runaway (i : I) : Prop :=
  exists Inv : I -> Prop,
    Inv i
    /\ forall j, Inv j ->
         fst (step j) = Ok true
         /\ isAtView (snd (step j)) = false
         /\ Inv (snd (step j)).

(** The elements of the first argument of the call, when it is a literal
    array. *)
Definition firstArgElements (n : Node) : option (list (option Node)) :=
  match arguments n with
  | Some (firstArg :: _) =>
      if String.eqb (type firstArg) "ArrayExpression"
      then elements firstArg else None
  | _ => None
  end.

(** The (name, label) pairs the extractor yields at the current
    position: none when the first argument is not a literal array or
    when the extractor throws. *)
Definition viewPairs (interp : I) : list (string * string) :=
  match top_node (getStateStack interp) with
  | Some n =>
      match firstArgElements n with
      | Some elems =>
          match extractPairs elems [] with
          | Ok pairs => pairs
          | Throw _ => []
          end
      | None => []
      end
  | None => []
  end.



End StepNotions.

(** The element is the literal pair [[a, b]] of two string literals. *)
Definition literal_pair (element : option Node) (a b : string) : Prop :=
  exists e first second,
    element = Some e
    /\ type e = "ArrayExpression"
    /\ elements e = Some [Some first; Some second]
    /\ type first = "Literal" /\ lit_value first = VStr a
    /\ type second = "Literal" /\ lit_value second = VStr b.

(** The view-argument extractor as the specification words it: no element
    makes it throw, and the pairs are those of the elements that have the
    shape of a pair, in order. *)
Definition skips_malformed (elems : list (option Node)) : Prop :=
  extractPairs elems [] = Ok (omap pair_of elems).

(** ** Concrete stacks *)

(** Two frames that both bind [x]: the global frame to [1], the frame on
    top of it to [2]. *)
Definition shadowStack : list StackFrame :=
  [frameAt (plainNode "Program" 0 50) (scopeObj 0);
   frameAt (plainNode "BlockStatement" 20 40) (scopeObj 1)].

Definition shadowToy : Toy :=
  mkToy shadowStack [] true
    [(0%nat, "x", VNum 1); (1%nat, "x", VNum 2)] [] VUndefined.

(** The same stack, but the inner [x] holds an object that
    [pseudoToNative] rejects. *)
Definition rejectToy : Toy :=
  mkToy shadowStack [] true
    [(0%nat, "x", VNum 1); (1%nat, "x", VObject 9)] [9%nat] VUndefined.

(** The top frame is at [view([["x","X"],["y","Y"]])], at [view([["x"]])]
    and at [view([ , ["x","X"]])]; the global scope binds [x] and [y]. *)
Definition toyAt (n : Node) : Toy :=
  mkToy [frameAt (plainNode "Program" 0 50) (scopeObj 0);
         frameAt n (scopeObj 0)]
    [] true [(0%nat, "x", VNum 1); (0%nat, "y", VNum 7)] [] VUndefined.

(** An interpreter caught in [while (true) {}]: every step returns [true]
    and leaves the stack as it is. *)
Definition loopToy : Toy :=
  mkToy [frameAt (plainNode "WhileStatement" 0 15) (scopeObj 0)]
    [] true [] [] VUndefined.

Definition loopWorld : World Toy :=
  mkWorld (mkModal false false None 500 (Some 0%nat) [] [] false None)
    [loopToy] None [] 1%positive true 0 [].


(** A session whose next step lands on [view([["x","X"],["y","Y"]])]. *)
Definition viewWorld : World Toy :=
  mkWorld (mkModal false false None 500 (Some 0%nat) [] [] false None)
    [mkToy [frameAt (plainNode "Program" 0 50) (scopeObj 0)]
       [(true, [frameAt (plainNode "Program" 0 50) (scopeObj 0);
                frameAt viewXY (scopeObj 0)])]
       false [(0%nat, "x", VNum 1); (0%nat, "y", VNum 7)] [] VUndefined]
    None [] 1%positive true 0 [].

(** The library as loaded for the concrete sessions: the constructor
    rejects a text that starts with [?] and otherwise builds [program] and
    initialises it. *)
Definition toyInterpreterClass (program : Toy)
  : list N -> (Toy -> jsvalue -> result Toy) -> result Toy :=
  fun currentCode init =>
    match currentCode with
    | 63%N :: _ => Throw (ErrorObj "SyntaxError" "Unexpected token (1:0)")
    | _ => init program (VObject 0)
    end.

Definition toy_JSON_stringify : list (string * jsvalue) -> string :=
  fun _ => "{}".

(** [let x = 1; view([["x","X"]]);] as the interpreter walks it: the
    program node, the declaration, the [view] call, the end. *)
Definition letViewToy : Toy :=
  mkToy [frameAt (plainNode "Program" 0 33) (scopeObj 0)]
    [(true, [frameAt (plainNode "Program" 0 33) (scopeObj 0);
             frameAt (plainNode "VariableDeclaration" 0 10) (scopeObj 0)]);
     (true, [frameAt (plainNode "Program" 0 33) (scopeObj 0);
             frameAt (callExpr (identifier "view")
                        [arrayExpr [Some (pairExpr "x" "X")]] 11 32)
               (scopeObj 0)]);
     (false, [frameAt (plainNode "Program" 0 33) (scopeObj 0)])]
    false [(0%nat, "x", VNum 1)] [] VUndefined.

(** The text [let x = 1; view([["x","X"]]);] in code units. *)
Definition letViewCode : list N :=
  [108; 101; 116; 32; 120; 32; 61; 32; 49; 59; 32; 118; 105; 101; 119; 40;
   91; 91; 34; 120; 34; 44; 34; 88; 34; 93; 93; 41; 59]%N.

(** The session right after [refresh] on that program. *)
Definition letViewReady : World Toy :=
  snd (click (refresh (Some (toyInterpreterClass letViewToy))
                (toy_extractVariableNames ["x"])
                toy_updateStepModeVariables toy_JSON_stringify)
         (initialWorld letViewCode [])).

(** A session with two snapshots, a running timer and a program text that
    was replaced by a blank one. *)
Definition blankedWorld : World Toy :=
  let u :=
    mkModal true false None 500 (Some 0%nat) [32; 10]%N
      [mkDebugState 0 (0, 33) ∅ [] 0 ∅; mkDebugState 1 (0, 10) ∅ [] 0 ∅]
      false None in
  mkWorld u [letViewToy] (Some 1%positive) [(1%positive, u)] 2%positive
    true 0 [].

(** The auto-play flag and the timer agree: either a handle is held, the
    session is running and the one registered interval is the one the
    handle names, or no handle is held, the session is not running and no
    interval is registered. *)
Definition timer_synced {I : Type} (w : World I) : Prop :=
  match autoPlayIntervalRef w with
  | Some h => isRunning (ui w) = true /\ fst <$> intervals w = [h]
  | None => isRunning (ui w) = false /\ intervals w = []
  end.

(** What stepping the object [interp] leaves alone: every other
    interpreter object, the size of the heap, the timer, and the parts of
    the component state that no stepping handler writes. *)
Definition step_frame {I : Type} (interp : nat) (w w' : World I) : Prop :=
  length (heap w') = length (heap w)
  /\ (forall j, j <> interp -> heap w' !! j = heap w !! j)
  /\ autoPlayIntervalRef w' = autoPlayIntervalRef w
  /\ intervals w' = intervals w
  /\ next_handle w' = next_handle w
  /\ isRunning (ui w') = isRunning (ui w)
  /\ interpreter (ui w') = interpreter (ui w)
  /\ code (ui w') = code (ui w)
  /\ environment (ui w') = environment (ui w).

(** The intervals left once the timer the handle names is cleared. *)
Definition intervals_after_clear {I : Type} (w : World I)
  : list (positive * ModalState) :=
  match autoPlayIntervalRef w with
  | Some h =>
      List.filter (fun p => negb (Pos.eqb (fst p) h)) (intervals w)
  | None => intervals w
  end.

(** What a run of stepping code guarantees between the world [w] it
    starts in and the world [w'] it ends in: it stays within [step_frame],
    it only appends snapshots, and it appends one snapshot per step, short
    of one when it ends with a throwing step ([ok] tells that it ended
    normally). *)
Definition run_frame {I : Type} (interp : nat) (ok : bool)
    (w w' : World I) : Prop :=
  step_frame interp w w'
  /\ exists added,
       history (ui w') = history (ui w) ++ added
       /\ Z.of_nat (length added) <= nsteps w' - nsteps w
          <= Z.of_nat (length added) + 1
       /\ (ok = true -> nsteps w' - nsteps w = Z.of_nat (length added)).

Definition is_ok {A : Type} (res : result A) : bool :=
  match res with Ok _ => true | Throw _ => false end.

(** What a loop of [stepToView] guarantees, by the way it ends. *)
Definition view_loop_post {I : Type} `{JSInterpreter I} (interp : nat)
    (w w' : World I) (res : result LoopEnd) : Prop :=
  run_frame interp (is_ok res) w w'
  /\ error (ui w') = error (ui w)
  /\ match res with
     | Ok (Fell _) =>
         isComplete (ui w') = isComplete (ui w)
         /\ isSteppingToView (ui w') = isSteppingToView (ui w)
     | Ok (Returned ExitFoundView) =>
         isComplete (ui w') = isComplete (ui w)
         /\ isSteppingToView (ui w') = false
         /\ exists i', heap w' !! interp = Some i' /\ isAtView i' = true
     | Ok (Returned ExitCompletePast) | Ok (Returned ExitCompleteSeek) =>
         isComplete (ui w') = true /\ isSteppingToView (ui w') = false
     | Ok (Returned ExitUnreached) => True
     | Ok (Returned _) => False
     | Throw _ => isComplete (ui w') = isComplete (ui w)
     end.

(** What the body of the [try] block of [stepToView] guarantees, by the
    way it ends. *)
Definition phase_post {I : Type} `{JSInterpreter I} (interp : nat)
    (w w' : World I) (res : result StepToViewExit) : Prop :=
  run_frame interp (is_ok res) w w'
  /\ match res with
     | Ok ExitFoundView =>
         isComplete (ui w') = isComplete (ui w)
         /\ error (ui w') = error (ui w)
         /\ isSteppingToView (ui w') = false
         /\ exists i', heap w' !! interp = Some i' /\ isAtView i' = true
     | Ok ExitCompletePast | Ok ExitCompleteSeek =>
         isComplete (ui w') = true
         /\ error (ui w') = error (ui w)
         /\ isSteppingToView (ui w') = false
     | Ok ExitCeilingPast | Ok ExitCeilingSeek =>
         isSteppingToView (ui w') = false
     | Ok ExitUnreached => True
     | Ok _ => False
     | Throw _ => isComplete (ui w') = isComplete (ui w)
     end.

(** What an invocation of [stepToView] guarantees besides the step
    ceiling: what it leaves alone, how the history grows, and what each
    way of leaving says about the session. *)
Definition stepToView_outcome {I : Type} `{JSInterpreter I}
    (r : ModalState) (w : World I) (exit : StepToViewExit) (w' : World I)
  : Prop :=
  (exit = ExitGuard -> w' = w)
  /\ (exit <> ExitGuard ->
      isSteppingToView (ui w') = false
      /\ exists interp,
           interpreter r = Some interp
           /\ run_frame interp
                (match exit with ExitError => false | _ => true end) w w')
  /\ (exit = ExitFoundView ->
      isComplete (ui w') = isComplete (ui w)
      /\ error (ui w') = error (ui w)
      /\ exists interp i',
           interpreter r = Some interp
           /\ heap w' !! interp = Some i' /\ isAtView i' = true)
  /\ (exit = ExitCompletePast \/ exit = ExitCompleteSeek ->
      isComplete (ui w') = true /\ error (ui w') = error (ui w))
  /\ (exit = ExitError ->
      isComplete (ui w') = isComplete (ui w)
      /\ exists err,
           error (ui w')
           = Some ("Execution error: " +:+ exnString err)).

(** A program about to make its last step, under auto-play: the component
    holds the handle of the one registered timer. *)
Definition lastStepToy : Toy :=
  mkToy [frameAt (plainNode "Program" 0 10) (scopeObj 0);
         frameAt (plainNode "ExpressionStatement" 0 10) (scopeObj 0)]
    [(false, [frameAt (plainNode "Program" 0 10) (scopeObj 0)])]
    false [] [] VUndefined.

Definition lastStepWorld : World Toy :=
  let u :=
    mkModal true false None 500 (Some 0%nat) []
      [mkDebugState 0 (0, 10) ∅ [] 0 ∅] false None in
  mkWorld u [lastStepToy] (Some 1%positive) [(1%positive, u)] 2%positive
    true 0 [].

(** An interpreter whose program throws an uncaught error at every step;
    it counts the steps it was asked to make. *)
Record Faulty : Type := mkFaulty { fbase : Toy; fsteps : nat }.

#[export] Instance faulty_interpreter : JSInterpreter Faulty := {|
  step := fun f =>
    (Throw (ErrorObj "ReferenceError" "y is not defined"),
     mkFaulty (fbase f) (S (fsteps f)));
  interp_value := fun f => tvalue (fbase f);
  getStateStack := fun f => tstack (fbase f);
  getGlobalScope := fun _ => VObject 0;
  setProperty := fun f obj k v =>
    match setProperty (fbase f) obj k v with
    | Ok t => Ok (mkFaulty t (fsteps f))
    | Throw e => Throw e
    end;
  getProperty := fun f => toy_getProperty (fbase f);
  createNativeFunction := fun _ _ => VObject 1;
  nativeToPseudo := fun _ v => Ok v;
  pseudoToNative := fun f => Some (toy_pseudoToNative (fbase f))
|}.

Definition faultyWorld : World Faulty :=
  let u :=
    mkModal true false None 500 (Some 0%nat) []
      [mkDebugState 0 (0, 10) ∅ [] 0 ∅] true None in
  mkWorld u [mkFaulty lastStepToy 0] (Some 1%positive) [(1%positive, u)]
    2%positive true 0 [].

(** The object the constructor of the concrete library returns for the
    text [let x = 1; view([["x","X"]]);]. *)
Definition letViewLoaded : Toy :=
  match toyInterpreterClass letViewToy letViewCode
          (initFunc toy_JSON_stringify None) with
  | Ok i => i
  | Throw _ => letViewToy
  end.

(** The keys [getCurrentState] writes into [variables] itself, after the
    variables of the program. *)
Definition debugKeys : list string :=
  ["Interpreter Value"; "Current Node Type"; "Stack Depth";
   "Declared Variables"; "Node Info"; "Current Scope Type";
   "Current Function"].

(** ** Runs of several steps *)

Section RunNotions.
Context {I : Type} `{JSInterpreter I}.





End RunNotions.

(** ** The constructor of the library *)

Section ConstructorNotions.
Context {I : Type} `{JSInterpreter I}.

(** [new Interpreter(code, initFunc)] as [window.Interpreter] behaves: it
    parses the text and builds the interpreter object and its global
    object, which [parse] stands for (it throws on a text that does not
    parse or compile), then calls [initFunc(interpreter, globalObject)];
    an exception of either leaves the constructor. *)
Definition libraryConstructor (parse : list N -> result (I * jsvalue))
  : list N -> (I -> jsvalue -> result I) -> result I :=
  fun currentCode init =>
    match parse currentCode with
    | Ok (interp, globalObject) => init interp globalObject
    | Throw e => Throw e
    end.

(** [window.Interpreter] when the library is loaded with the parser
    [parse], and when it is not loaded. *)
Definition windowInterpreterOf
    (lib : option (list N -> result (I * jsvalue)))
  : option (list N -> (I -> jsvalue -> result I) -> result I) :=
  match lib with
  | Some parse => Some (libraryConstructor parse)
  | None => None
  end.

(** C7 as the specification words it: the three cases in which
    initialisation fails. *)
Definition fails_as_claimed
    (lib : option (list N -> result (I * jsvalue)))
    (currentCode : list N) : Prop :=
  lib = None
  \/ forallb isWhiteSpace currentCode = true
  \/ exists parse err, lib = Some parse /\ parse currentCode = Throw err.

(** The set-up of the environment fails with [e]: for some variable,
    reached with the variables before it bound, the conversion or the
    write of the converted value throws and the write of the raw value
    throws [e]; or every variable is bound and the write of
    [getVariablesJSON] throws [e]. *)
Definition setup_fails (JSON_stringify : list (string * jsvalue) -> string)
    (environment : option IEnvironment) (interp : I)
    (globalObject : jsvalue) (e : exn) : Prop :=
  (exists before key variable rest i,
      envVariablesOf environment = before ++ (key, variable) :: rest
      /\ initVariables before interp globalObject = Ok i
      /\ (forall pseudoVariable,
            nativeToPseudo i variable = Ok pseudoVariable ->
            is_ok (setProperty i globalObject key pseudoVariable) = false)
      /\ setProperty i globalObject key variable = Throw e)
  \/ (exists i,
        initVariables (envVariablesOf environment) interp globalObject
        = Ok i
        /\ setProperty i globalObject "getVariablesJSON"
             (createNativeFunction i
                (fun _ =>
                   VStr (JSON_stringify (envVariablesOf environment))))
           = Throw e).

(** The value a variable is bound to when its write succeeds at the first
    attempt: the converted value, or the raw value when the conversion
    throws. *)
Definition bestEffortValue (interp : I) (variable : jsvalue) : jsvalue :=
  match nativeToPseudo interp variable with
  | Ok pseudoVariable => pseudoVariable
  | Throw _ => variable
  end.

(** The object after one write that does not throw. *)
Definition written (interp : I) (obj : jsvalue) (key : string)
    (v : jsvalue) : I :=
  match setProperty interp obj key v with
  | Ok interp' => interp'
  | Throw _ => interp
  end.

(** Every variable written once, in the order of the entries. *)
Definition bindVariables (entries : list (string * jsvalue)) (interp : I)
    (globalObject : jsvalue) : I :=
  foldl (fun i kv =>
           written i globalObject (fst kv) (bestEffortValue i (snd kv)))
    interp entries.

End ConstructorNotions.

(** An interpreter whose global object has the read-only properties of
    the language, and whose conversion of native values rejects the
    objects listed in [tbad]. *)
Record Strict : Type := mkStrict { sbase : Toy }.

Definition readOnlyGlobals : list string := ["NaN"; "Infinity"; "undefined"].

#[export] Instance strict_interpreter : JSInterpreter Strict := {|
  step := fun s =>
    (fst (toy_step (sbase s)), mkStrict (snd (toy_step (sbase s))));
  interp_value := fun s => tvalue (sbase s);
  getStateStack := fun s => tstack (sbase s);
  getGlobalScope := fun _ => VObject 0;
  setProperty := fun s obj k v =>
    if bool_decide (k ∈ readOnlyGlobals) then
      Throw (ErrorObj "TypeError"
               ("Cannot assign to read only property '" +:+ k +:+ "'"))
    else
      match setProperty (sbase s) obj k v with
      | Ok t => Ok (mkStrict t)
      | Throw e => Throw e
      end;
  getProperty := fun s => toy_getProperty (sbase s);
  createNativeFunction := fun _ _ => VObject 1;
  nativeToPseudo := fun s v =>
    match v with
    | VObject h =>
        if bool_decide (h ∈ tbad (sbase s))
        then Throw (ErrorObj "RangeError" "Maximum call stack size exceeded")
        else Ok v
    | _ => Ok v
    end;
  pseudoToNative := fun s => Some (toy_pseudoToNative (sbase s))
|}.

(** The parser of the concrete library for [Strict]: it rejects a text
    that starts with [?] and otherwise builds [program]. *)
Definition strictParse (program : Toy)
  : list N -> result (Strict * jsvalue) :=
  fun currentCode =>
    match currentCode with
    | 63%N :: _ => Throw (ErrorObj "SyntaxError" "Unexpected token (1:0)")
    | _ => Ok (mkStrict program, VObject 0)
    end.

(** The text [x = 1;] in code units. *)
Definition assignCode : list N := [120; 32; 61; 32; 49; 59]%N.

Definition strictWorld : World Strict :=
  mkWorld (initialModal assignCode) [] None [] 1%positive true 0 [].

(** A program whose conversion rejects the object 9. *)
Definition pickyToy : Toy :=
  mkToy [frameAt (plainNode "Program" 0 6) (scopeObj 0)] [] false []
    [9%nat] VUndefined.

(** An interpreter with nothing on its stack. *)
Definition emptyToy : Toy := mkToy [] [] false [] [] VUndefined.

(** A variable-name extraction that fails to parse. *)
Definition failing_extractVariableNames : list N -> result (list string) :=
  fun _ => Throw (ErrorObj "SyntaxError" "Unexpected token (1:4)").

(** ** The scope resolver *)

Section ResolverFacts.
Context {I : Type} `{JSInterpreter I}.
Implicit Types (interp : I) (stack : list StackFrame) (varName : string).

Lemma findVariableInFrame_result interp state varName i n :
  fst (findVariableInFrame interp state varName i n)
  = match resolved_in interp state varName with
    | Some nv => mkFind true nv (getScopeName i n)
    | None => mkFind false VUndefined (getScopeName i n)
    end.
Proof.
  unfold findVariableInFrame, resolved_in, bound_in.
  destruct (scope state) as [sc|]; [|reflexivity].
  destruct (truthy (object sc)); [|reflexivity]. simpl.
  destruct (getProperty interp (object sc) varName) as [v|e];
    [|reflexivity].
  destruct (is_defined v); [|reflexivity].
  destruct (convertToNativeValue interp v); reflexivity.
Qed.

Lemma findVariableInFrame_label interp state varName i n :
  scopeName (fst (findVariableInFrame interp state varName i n))
  = getScopeName i n.
Proof.
  rewrite findVariableInFrame_result.
  destruct (resolved_in interp state varName); reflexivity.
Qed.

Lemma tbind_fst {A B} (m : Traced A) (k : A -> Traced B) :
  fst (tbind m k) = fst (k (fst m)).
Proof. destruct m as [a t]. simpl. destruct (k a). reflexivity. Qed.

(** The loop returns the result of the topmost resolving frame below its
    starting point. *)
Lemma findVariableInStack_loop_hit interp stack varName :
  forall (n i : nat) (state : StackFrame) (nv : jsvalue),
    (i < n)%nat -> (n <= length stack)%nat ->
    stack !! i = Some state ->
    resolved_in interp state varName = Some nv ->
    (forall j state', (i < j)%nat -> (j < n)%nat ->
       stack !! j = Some state' ->
       resolved_in interp state' varName = None) ->
    fst (findVariableInStack_loop interp stack varName n)
    = mkFind true nv (getScopeName (Z.of_nat i) (Z.of_nat (length stack))).
Proof.
  induction n as [|n IH]; intros i state nv Hi Hn Hst Hres Habove;
    [lia|].
  simpl.
  destruct (decide (i = n)) as [->|Hne].
  - rewrite Hst, tbind_fst, findVariableInFrame_result, Hres.
    reflexivity.
  - destruct (stack !! n) as [top|] eqn:Htop.
    + rewrite tbind_fst, findVariableInFrame_result.
      rewrite (Habove n top) by (assumption || lia). simpl.
      apply (IH i state nv); try assumption; try lia.
      intros j state' ? ? ?. apply (Habove j state'); auto with lia.
    + apply (IH i state nv); try assumption; try lia.
      intros j state' ? ? ?. apply (Habove j state'); auto with lia.
Qed.

(** Without a resolving frame the loop reports not found. *)
Lemma findVariableInStack_loop_miss interp stack varName :
  forall n : nat,
    (forall j state', (j < n)%nat -> stack !! j = Some state' ->
       resolved_in interp state' varName = None) ->
    fst (findVariableInStack_loop interp stack varName n)
    = mkFind false VUndefined "".
Proof.
  induction n as [|n IH]; intros Hnone; [reflexivity|].
  simpl. destruct (stack !! n) as [top|] eqn:Htop.
  - rewrite tbind_fst, findVariableInFrame_result.
    rewrite (Hnone n top) by (assumption || lia). simpl.
    apply IH. intros j state' ? ?. apply (Hnone j state'); auto with lia.
  - apply IH. intros j state' ? ?. apply (Hnone j state'); auto with lia.
Qed.

(** Whatever the loop reports found comes from a resolving frame. *)
Lemma findVariableInStack_loop_found interp stack varName :
  forall n : nat,
    found (fst (findVariableInStack_loop interp stack varName n)) = true ->
    exists (i : nat) (state : StackFrame),
      (i < n)%nat /\ stack !! i = Some state
      /\ resolved_in interp state varName
         = Some (res_value
                   (fst (findVariableInStack_loop interp stack varName n))).
Proof.
  induction n as [|n IH]; simpl; [discriminate|].
  destruct (stack !! n) as [top|] eqn:Htop.
  - rewrite tbind_fst, findVariableInFrame_result.
    destruct (resolved_in interp top varName) as [nv|] eqn:Hres; simpl.
    + intros _. exists n, top. rewrite Hres. auto with lia.
    + intros Hf. destruct (IH Hf) as (i & state & ? & ? & ?).
      exists i, state. auto with lia.
  - intros Hf. destruct (IH Hf) as (i & state & ? & ? & ?).
    exists i, state. auto with lia.
Qed.

End ResolverFacts.

(** C1, as amended.  For every interpreter, stack snapshot and name: when
    frame [i] is the frame nearest the top of the stack that resolves the
    name (its scope lookup yields a value other than [undefined] and the
    conversion of that value to a native value does not throw),
    [findVariableInStack] reports the name found with the native value and
    the label of frame [i]; frames further out are not consulted for the
    value, whatever they bind.  A frame above [i] whose lookup succeeds but
    whose conversion throws is passed over like one that binds nothing. *)
Theorem findVariableInStack_innermost
    {I : Type} `{JSInterpreter I} (interp : I) (stack : list StackFrame)
    (varName : string) (i : nat) (state : StackFrame) (nv : jsvalue) :
  stack !! i = Some state ->
  resolved_in interp state varName = Some nv ->
  (forall j state', (i < j)%nat -> stack !! j = Some state' ->
     resolved_in interp state' varName = None) ->
  fst (findVariableInStack interp stack varName)
  = mkFind true nv (getScopeName (Z.of_nat i) (Z.of_nat (length stack))).
Proof.
  intros Hst Hres Habove. unfold findVariableInStack.
  apply (findVariableInStack_loop_hit interp stack varName
           (length stack) i state nv); auto.
  - apply lookup_lt_Some in Hst. exact Hst.
  - intros j state' ? _ ?. apply (Habove j state'); assumption.
Qed.

Lemma findVariableInStack_innermost_witness :
  fst (findVariableInStack shadowToy shadowStack "x")
  = mkFind true (VNum 2) "Local-0".
Proof.
  apply (findVariableInStack_innermost shadowToy shadowStack "x" 1
           (frameAt (plainNode "BlockStatement" 20 40) (scopeObj 1))
           (VNum 2)).
  - reflexivity.
  - reflexivity.
  - intros j state' Hj Hlook.
    destruct j as [|[|j]]; [lia | lia | discriminate Hlook].
Defined.

(** C1 as stated fails: in [rejectToy] both frames bind [x] to a defined
    value, the conversion of the inner value throws inside the [try] of
    [findVariableInFrame], and the resolver answers with the value of the
    outer, global frame. *)
Lemma innermost_binding_wins_counterexample :
  bound_in rejectToy
    (frameAt (plainNode "BlockStatement" 20 40) (scopeObj 1)) "x"
  = Some (VObject 9)
  /\ bound_in rejectToy
       (frameAt (plainNode "Program" 0 50) (scopeObj 0)) "x"
     = Some (VNum 1)
  /\ fst (findVariableInStack rejectToy shadowStack "x")
     = mkFind true (VNum 1) "Global"
  /\ ~ innermost_binding_wins rejectToy shadowStack "x".
Proof.
  repeat split; try reflexivity.
  intros Hclaim.
  destruct (Hclaim 1%nat
              (frameAt (plainNode "BlockStatement" 20 40) (scopeObj 1))
              (VObject 9) eq_refl eq_refl) as (_ & Hconv & _).
  - intros j state' Hj Hlook.
    destruct j as [|[|j]]; [lia | lia | discriminate Hlook].
  - discriminate Hconv.
Qed.

(** C9.  For every position [i] of a stack, the label the resolver gives
    to frame [i] is ["Global"] exactly when [i] is the bottom frame
    (index 0); for every other frame it is ["Local-<depth>"], where the
    depth is the number of frames above it, so that a top frame other than
    the bottom one is ["Local-0"]. *)
Theorem getScopeName_labels
    {I : Type} `{JSInterpreter I} (interp : I) (stack : list StackFrame)
    (state : StackFrame) (varName : string) (i : nat) :
  (i < length stack)%nat ->
  let label :=
    scopeName (fst (findVariableInFrame interp state varName
                      (Z.of_nat i) (Z.of_nat (length stack)))) in
  label = getScopeName (Z.of_nat i) (Z.of_nat (length stack))
  /\ (label = "Global" <-> i = 0%nat)
  /\ (i <> 0%nat ->
      label = "Local-" +:+ pretty (Z.of_nat (length stack - 1 - i)))
  /\ (i <> 0%nat -> i = (length stack - 1)%nat -> label = "Local-0").
Proof.
  intros Hi label. subst label. rewrite findVariableInFrame_label.
  unfold getScopeName.
  destruct (Z.eqb_spec (Z.of_nat i) 0) as [Hz|Hz].
  - assert (i = 0%nat) by lia. subst i.
    repeat split; auto; intros; congruence.
  - assert (i <> 0%nat) by lia.
    replace (Z.of_nat (length stack) - 1 - Z.of_nat i)
      with (Z.of_nat (length stack - 1 - i)) by lia.
    repeat split; auto.
    + intros Habs. discriminate Habs.
    + intros ?; contradiction.
    + intros _ ->.
      replace (length stack - 1 - (length stack - 1))%nat with 0%nat by lia.
      reflexivity.
Qed.

Lemma getScopeName_labels_witness :
  scopeName (fst (findVariableInFrame shadowToy
                    (frameAt (plainNode "BlockStatement" 20 40) (scopeObj 1))
                    "x" 1 2))
  = "Local-0".
Proof.
  refine (proj2 (proj2 (proj2
            (getScopeName_labels shadowToy shadowStack
               (frameAt (plainNode "BlockStatement" 20 40) (scopeObj 1))
               "x" 1 _))) _ _).
  - simpl. lia.
  - lia.
  - reflexivity.
Defined.

(** ** The variable collector *)

Section CollectorFacts.
Context {I : Type} `{JSInterpreter I}.

(** A name that no frame resolves to a defined value is never written
    by the loop. *)
Lemma collectVariables_loop_absent (interp : I)
    (stack : list StackFrame) (varName : string) :
  (forall state nv, state ∈ stack ->
     resolved_in interp state varName = Some nv -> nv = VUndefined) ->
  forall (varNames : list string) (acc : gmap string jsvalue),
    fst (collectVariables_loop interp stack varNames acc) !! varName
    = acc !! varName.
Proof.
  intros Hnone. induction varNames as [|k rest IH]; intros acc;
    [reflexivity|].
  simpl. rewrite tbind_fst, IH.
  destruct (found (fst (findVariableInStack interp stack k))) eqn:Hf;
    [|reflexivity].
  destruct (is_defined
              (res_value (fst (findVariableInStack interp stack k))))
    eqn:Hd; [|reflexivity].
  destruct (js_in k acc); [reflexivity|]. simpl.
  destruct (decide (k = varName)) as [->|Hne];
    [|apply lookup_insert_ne; exact Hne].
  exfalso. unfold findVariableInStack in Hf, Hd.
  destruct (findVariableInStack_loop_found interp stack varName _ Hf)
    as (i & state & _ & Hlook & Hres).
  apply list_elem_of_lookup_2 in Hlook.
  rewrite (Hnone _ _ Hlook Hres) in Hd. discriminate Hd.
Qed.

End CollectorFacts.

(** C8.  [collectVariablesFromStack] returns the empty mapping, having
    asked the interpreter for no property, when the stack is empty and when
    the list of names is empty.  It returns a mapping on every input (its
    result type has no exception), and a requested name that no frame
    resolves to a defined value is absent from that mapping. *)
Theorem collectVariablesFromStack_empty_absent
    {I : Type} `{JSInterpreter I} (interp : I) :
  (forall varNames, collectVariablesFromStack interp [] varNames = (∅, []))
  /\ (forall stack, collectVariablesFromStack interp stack [] = (∅, []))
  /\ (forall stack varNames varName,
        (forall state nv, state ∈ stack ->
           resolved_in interp state varName = Some nv -> nv = VUndefined) ->
        fst (collectVariablesFromStack interp stack varNames) !! varName
        = None).
Proof.
  split; [|split].
  - intros varNames. reflexivity.
  - intros stack. unfold collectVariablesFromStack.
    destruct (length stack =? 0)%nat; reflexivity.
  - intros stack varNames varName Hnone. unfold collectVariablesFromStack.
    destruct ((length stack =? 0)%nat || (length varNames =? 0)%nat);
      [apply lookup_empty|].
    rewrite collectVariables_loop_absent by exact Hnone.
    apply lookup_empty.
Qed.

Lemma collectVariablesFromStack_empty_absent_witness :
  fst (collectVariablesFromStack shadowToy shadowStack ["x"; "z"]) !! "z"
  = None.
Proof.
  apply (proj2 (proj2 (collectVariablesFromStack_empty_absent shadowToy))).
  intros state nv Hin Hres.
  repeat (apply elem_of_cons in Hin as [->|Hin]);
    [discriminate Hres | discriminate Hres | ].
  apply elem_of_nil in Hin. contradiction.
Defined.

(** ** The view-argument extractor *)

(** An element without a hole is either taken as a pair or skipped. *)
Lemma extractPairs_cons (element : option Node)
    (rest : list (option Node)) (pairs : list (string * string)) :
  has_hole element = false ->
  extractPairs (element :: rest) pairs
  = extractPairs rest
      (pairs ++ match pair_of element with Some p => [p] | None => [] end).
Proof.
  destruct element as [e|]; [|discriminate]. intros Hh.
  unfold has_hole in Hh. simpl. unfold pair_of.
  destruct (String.eqb (type e) "ArrayExpression");
    [|rewrite app_nil_r; reflexivity].
  simpl in Hh. unfold is_literal in *.
  destruct (elements e) as [[|[first|] [|[second|] es]]|];
    try discriminate Hh;
    try (simpl; rewrite app_nil_r; reflexivity).
  - simpl. destruct (String.eqb (type first) "Literal");
      [|simpl; rewrite app_nil_r; reflexivity].
    simpl. destruct (String.eqb (type second) "Literal");
      [reflexivity | rewrite app_nil_r; reflexivity].
  - simpl. rewrite Hh. simpl. rewrite app_nil_r. reflexivity.
Qed.

Lemma extractPairs_hole (element : option Node)
    (rest : list (option Node)) (pairs : list (string * string)) :
  has_hole element = true ->
  extractPairs (element :: rest) pairs = Throw (nullDeref "type").
Proof.
  destruct element as [e|]; [|reflexivity]. intros Hh.
  unfold has_hole in Hh. simpl.
  destruct (String.eqb (type e) "ArrayExpression"); [|discriminate Hh].
  simpl in Hh. unfold is_literal in Hh.
  destruct (elements e) as [[|[first|] [|[second|] es]]|];
    try discriminate Hh; try reflexivity.
  simpl. rewrite Hh. reflexivity.
Qed.

Lemma extractPairs_no_hole (elems : list (option Node)) :
  forall pairs,
    forallb (fun e => negb (has_hole e)) elems = true ->
    extractPairs elems pairs = Ok (pairs ++ omap pair_of elems).
Proof.
  induction elems as [|e rest IH]; intros pairs Hall.
  - simpl. rewrite app_nil_r. reflexivity.
  - simpl in Hall. apply andb_prop in Hall as [He Hrest].
    apply negb_true_iff in He.
    rewrite extractPairs_cons by exact He.
    rewrite IH by exact Hrest.
    rewrite <- app_assoc. simpl omap.
    destruct (pair_of e); reflexivity.
Qed.

Lemma extractPairs_some_hole (elems : list (option Node)) :
  forall pairs,
    existsb has_hole elems = true ->
    extractPairs elems pairs = Throw (nullDeref "type").
Proof.
  induction elems as [|e rest IH]; intros pairs Hex; [discriminate|].
  simpl in Hex. destruct (has_hole e) eqn:He.
  - apply extractPairs_hole. exact He.
  - rewrite extractPairs_cons by exact He. apply IH. exact Hex.
Qed.

Lemma literal_pair_pair_of (element : option Node) (a b : string) :
  literal_pair element a b ->
  has_hole element = false /\ pair_of element = Some (a, b).
Proof.
  intros (e & first & second & -> & Hty & Hel & Hf & Hfv & Hs & Hsv).
  unfold has_hole, pair_of, is_literal.
  rewrite Hty, Hel, Hf, Hs, Hfv, Hsv. simpl. auto.
Qed.

Section SnapshotFacts.
Context {I : Type} `{JSInterpreter I}.
Variable extractVariableNames : list N -> result (list string).
Variable updateStepModeVariables :
  gmap string jsvalue -> list (string * string) -> result unit.

Lemma getCurrentState_viewVariables code now (interp : I) k :
  viewVariables
    (fst (getCurrentState extractVariableNames updateStepModeVariables
            code now interp k))
  = fst (if isAtView interp
         then viewVariablesOf updateStepModeVariables interp
                (getStateStack interp)
         else tret ∅).
Proof.
  unfold getCurrentState. rewrite !tbind_fst. reflexivity.
Qed.

Lemma getCurrentState_dstep code now (interp : I) k :
  dstep
    (fst (getCurrentState extractVariableNames updateStepModeVariables
            code now interp k)) = k.
Proof.
  unfold getCurrentState. rewrite !tbind_fst. reflexivity.
Qed.

(** The trace of a snapshot: the lookups of the two collections and, in
    between, nothing else; then at most one notification. *)
Lemma getCurrentState_trace code now (interp : I) k :
  snd (getCurrentState extractVariableNames updateStepModeVariables
         code now interp k)
  = snd (debugVariables extractVariableNames code interp
           (getStateStack interp) (top_node (getStateStack interp)))
    ++ snd (if isAtView interp
            then viewVariablesOf updateStepModeVariables interp
                   (getStateStack interp)
            else tret ∅).
Proof.
  unfold getCurrentState, tbind.
  destruct (debugVariables _ _ _ _ _) as [vars t1].
  destruct (if isAtView interp then _ else _) as [vv t2].
  simpl. rewrite app_nil_r. reflexivity.
Qed.

End SnapshotFacts.

(** C3, as amended.  When the top-of-stack frame's node is a call whose
    callee is the identifier [view] and whose first argument is a literal
    array, the breakpoint detector reports true.  If that array is
    [[["x","X"],["y","Y"]]], the extractor yields exactly the pairs
    [("x","X")], [("y","Y")] in that order.  If no element has a hole, the
    extractor does not throw and yields, in order, the pairs of the
    elements that are literal arrays of at least two elements whose first
    two elements are literal nodes; every other element contributes
    nothing, so the sequence may be empty.  If an element is a hole, or a
    literal array with a hole where the extractor reads a type, the
    extractor throws a [TypeError]; [getCurrentState] catches it, no pair
    is delivered and the snapshot's breakpoint values hold the
    ["[View Error]"] marker only. *)
Theorem view_extractor
    {I : Type} `{JSInterpreter I}
    (extractVariableNames : list N -> result (list string))
    (updateStepModeVariables :
       gmap string jsvalue -> list (string * string) -> result unit)
    (interp : I) (n c firstArg : Node) (rest : list Node)
    (elems : list (option Node)) :
  top_node (getStateStack interp) = Some n ->
  type n = "CallExpression" ->
  callee n = Some c -> type c = "Identifier" -> name c = Some "view" ->
  arguments n = Some (firstArg :: rest) ->
  type firstArg = "ArrayExpression" ->
  elements firstArg = Some elems ->
  isAtView interp = true
  /\ (forall e1 e2, elems = [e1; e2] ->
        literal_pair e1 "x" "X" -> literal_pair e2 "y" "Y" ->
        extractPairs elems [] = Ok [("x", "X"); ("y", "Y")])
  /\ (forallb (fun e => negb (has_hole e)) elems = true ->
      extractPairs elems [] = Ok (omap pair_of elems))
  /\ (existsb has_hole elems = true ->
      extractPairs elems [] = Throw (nullDeref "type")
      /\ forall code now k,
           viewVariables
             (fst (getCurrentState extractVariableNames
                     updateStepModeVariables code now interp k))
           = {[ "[View Error]" :=
                  VStr ("Could not extract view variables: "
                        +:+ exnString (nullDeref "type")) ]}).
Proof.
  intros Htop Hty Hc Hcty Hcn Hargs Hfty Hel.
  assert (Hat : isAtView interp = true).
  { unfold isAtView. rewrite Htop, Hty, Hc, Hcty, Hcn. reflexivity. }
  split; [exact Hat|]. split; [|split].
  - intros e1 e2 -> H1 H2.
    apply literal_pair_pair_of in H1 as [Hh1 Hp1].
    apply literal_pair_pair_of in H2 as [Hh2 Hp2].
    rewrite extractPairs_no_hole.
    + simpl. rewrite Hp1, Hp2. reflexivity.
    + simpl. rewrite Hh1, Hh2. reflexivity.
  - intros Hall. apply (extractPairs_no_hole elems []). exact Hall.
  - intros Hex. split; [apply extractPairs_some_hole; exact Hex|].
    intros code now k. rewrite getCurrentState_viewVariables, Hat.
    unfold viewVariablesOf. rewrite Htop, Hc. simpl. rewrite Hcn.
    rewrite bool_decide_eq_true_2 by reflexivity.
    rewrite Hargs, Hfty, Hel. simpl.
    rewrite extractPairs_some_hole by exact Hex. reflexivity.
Qed.

Lemma view_extractor_witness :
  isAtView (toyAt viewXY) = true
  /\ extractPairs
       [Some (pairExpr "x" "X"); Some (pairExpr "y" "Y")] []
     = Ok [("x", "X"); ("y", "Y")]
  /\ extractPairs [Some (arrayExpr [Some (literal (VStr "x"))])] []
     = Ok [].
Proof.
  pose proof (view_extractor (toy_extractVariableNames [])
                toy_updateStepModeVariables (toyAt viewXY) viewXY
                (identifier "view")
                (arrayExpr [Some (pairExpr "x" "X"); Some (pairExpr "y" "Y")])
                [] [Some (pairExpr "x" "X"); Some (pairExpr "y" "Y")]
                eq_refl eq_refl eq_refl eq_refl eq_refl eq_refl eq_refl
                eq_refl) as (Hat & Hxy & _ & _).
  split; [exact Hat|]. split.
  - apply (Hxy _ _ eq_refl).
    + exists (pairExpr "x" "X"), (literal (VStr "x")), (literal (VStr "X")).
      repeat split; reflexivity.
    + exists (pairExpr "y" "Y"), (literal (VStr "y")), (literal (VStr "Y")).
      repeat split; reflexivity.
  - reflexivity.
Defined.

(** C3 as stated fails: at [view([ , ["x","X"]])] the hole is an element
    that is not a literal array, and it is not skipped: reading its type
    throws, the well-formed pair behind it is lost and the snapshot
    carries the error marker. *)
Lemma skips_malformed_counterexample :
  isAtView (toyAt viewHole) = true
  /\ ~ skips_malformed [None; Some (pairExpr "x" "X")]
  /\ extractPairs [None; Some (pairExpr "x" "X")] []
     = Throw (nullDeref "type")
  /\ viewVariables
       (fst (getCurrentState (toy_extractVariableNames [])
               toy_updateStepModeVariables [] 0 (toyAt viewHole) 1))
     = {[ "[View Error]" :=
            VStr "Could not extract view variables: TypeError: Cannot read properties of null (reading 'type')" ]}.
Proof.
  split; [reflexivity|]. split; [|split].
  - unfold skips_malformed. simpl. discriminate.
  - reflexivity.
  - vm_compute. reflexivity.
Qed.

(** ** Traces of the resolver and of a snapshot *)

Lemma lookups_only_app (t1 t2 : list Event) :
  lookups_only t1 -> lookups_only t2 -> lookups_only (t1 ++ t2).
Proof. unfold lookups_only. intros. apply Forall_app. auto. Qed.

Lemma lookups_only_no_step (tr : list Event) :
  lookups_only tr -> List.filter is_step tr = [].
Proof.
  induction 1 as [|e tr He _ IH]; [reflexivity|].
  simpl. destruct e; try discriminate He. exact IH.
Qed.


Lemma tbind_snd {A B} (m : Traced A) (k : A -> Traced B) :
  snd (tbind m k) = snd m ++ snd (k (fst m)).
Proof. destruct m as [a t]. simpl. destruct (k a). reflexivity. Qed.

Section TraceFacts.
Context {I : Type} `{JSInterpreter I}.
Variable extractVariableNames : list N -> result (list string).
Variable updateStepModeVariables :
  gmap string jsvalue -> list (string * string) -> result unit.

Lemma findVariableInFrame_lookups (interp : I) state varName i n :
  lookups_only (snd (findVariableInFrame interp state varName i n)).
Proof.
  unfold findVariableInFrame.
  destruct (scope state) as [sc|]; [|constructor].
  destruct (truthy (object sc)); simpl; [|constructor].
  repeat constructor.
Qed.

Lemma findVariableInStack_loop_lookups (interp : I) stack varName n :
  lookups_only (snd (findVariableInStack_loop interp stack varName n)).
Proof.
  induction n as [|n IH]; simpl; [constructor|].
  destruct (stack !! n) as [state|]; [|exact IH].
  rewrite tbind_snd. apply lookups_only_app.
  - apply findVariableInFrame_lookups.
  - destruct (found _); [constructor | exact IH].
Qed.

Lemma collectVariables_loop_lookups (interp : I) stack varNames :
  forall acc,
    lookups_only (snd (collectVariables_loop interp stack varNames acc)).
Proof.
  induction varNames as [|k rest IH]; intros acc; simpl; [constructor|].
  rewrite tbind_snd. apply lookups_only_app; [|apply IH].
  apply findVariableInStack_loop_lookups.
Qed.

Lemma collectVariablesFromStack_lookups (interp : I) stack varNames :
  lookups_only (snd (collectVariablesFromStack interp stack varNames)).
Proof.
  unfold collectVariablesFromStack.
  destruct (_ || _); [constructor|]. apply collectVariables_loop_lookups.
Qed.

Lemma debugVariables_lookups code (interp : I) stack node :
  lookups_only
    (snd (debugVariables extractVariableNames code interp stack node)).
Proof.
  unfold debugVariables.
  destruct (extractVariableNames code) as [varNames|err]; [|constructor].
  rewrite tbind_snd. simpl. rewrite app_nil_r.
  apply collectVariablesFromStack_lookups.
Qed.

End TraceFacts.

(** ** Running the handlers *)

Lemma count_events_app (p : Event -> bool) (t1 t2 : list Event) :
  count_events p (t1 ++ t2) = (count_events p t1 + count_events p t2)%nat.
Proof.
  unfold count_events. rewrite List.filter_app, length_app. reflexivity.
Qed.

Section HandlerFacts.
Context {I : Type} `{JSInterpreter I}.
Variable windowInterpreter :
  option (list N -> (I -> jsvalue -> result I) -> result I).
Variable extractVariableNames : list N -> result (list string).
Variable updateStepModeVariables :
  gmap string jsvalue -> list (string * string) -> result unit.
Variable JSON_stringify : list (string * jsvalue) -> string.

Local Abbreviation snapshot_after' :=
  (snapshot_after extractVariableNames updateStepModeVariables).
Local Abbreviation after_step' :=
  (after_step extractVariableNames updateStepModeVariables).
Local Abbreviation getCurrentStateM' :=
  (getCurrentStateM extractVariableNames updateStepModeVariables).
Local Abbreviation stepForward' :=
  (stepForward extractVariableNames updateStepModeVariables).
Local Abbreviation stepToView' :=
  (stepToView extractVariableNames updateStepModeVariables).
Local Abbreviation stepPastViewLoop' :=
  (stepPastViewLoop extractVariableNames updateStepModeVariables).
Local Abbreviation stepToNextViewLoop' :=
  (stepToNextViewLoop extractVariableNames updateStepModeVariables).

(** A step, its snapshot, the append and the highlight, followed by
    anything: either the step throws, or the rest runs in
    [after_step]. *)
Lemma maxSteps_eq : maxSteps = 100000.
Proof. reflexivity. Qed.

Local Opaque maxSteps.

Lemma run_recorded_step {A} (r : ModalState) (interp : nat) (n : Z)
    (k : bool -> DebugState -> M A) (w : World I) (i : I) :
  heap w !! interp = Some i ->
  bind (stepM interp) (fun c =>
    bind (getCurrentStateM' r interp n) (fun ns =>
      bind (setHistory (fun prev => prev ++ [ns])) (fun _ =>
        bind (highlightCode (highlight ns)) (fun _ => k c ns)))) w
  = match fst (step i) with
    | Ok c => k c (fst (snapshot_after' r w i n)) (after_step' r interp w i n)
    | Throw e =>
        (Throw e,
         log [EvStep interp]
           (with_heap (<[interp := snd (step i)]> (heap w)) w))
    end.
Proof.
  intros Hi. unfold bind at 1. unfold stepM. rewrite Hi.
  destruct (step i) as [[c|e] i'] eqn:Hstep; simpl; [|reflexivity].
  unfold bind at 1. unfold getCurrentStateM. simpl.
  rewrite list_lookup_insert_eq by (eapply lookup_lt_Some; exact Hi).
  unfold after_step', snapshot_after', after_step,
    snapshot_after.
  rewrite Hstep. simpl.
  destruct (getCurrentState _ _ _ _ i' n) as [st tr]. simpl.
  reflexivity.
Qed.

Lemma after_step_ui r interp (w : World I) i n :
  ui (after_step' r interp w i n)
  = with_history (history (ui w) ++ [fst (snapshot_after' r w i n)]) (ui w).
Proof. reflexivity. Qed.

Lemma after_step_events r interp (w : World I) i n :
  events (after_step' r interp w i n)
  = events w
    ++ [EvStep interp] ++ snd (snapshot_after' r w i n)
    ++ [EvHighlight (fst (highlight (fst (snapshot_after' r w i n))))
          (snd (highlight (fst (snapshot_after' r w i n))))].
Proof.
  unfold after_step', after_step. simpl.
  rewrite <- !app_assoc. reflexivity.
Qed.

Lemma after_step_heap r interp (w : World I) i n :
  heap w !! interp = Some i ->
  heap (after_step' r interp w i n) !! interp = Some (snd (step i)).
Proof.
  intros Hi. simpl.
  apply list_lookup_insert_eq. eapply lookup_lt_Some. exact Hi.
Qed.

Lemma snapshot_trace_no_step r (w : World I) i n :
  count_events is_step (snd (snapshot_after' r w i n)) = 0%nat.
Proof.
  unfold snapshot_after', snapshot_after, count_events.
  rewrite getCurrentState_trace, List.filter_app.
  rewrite lookups_only_no_step by apply debugVariables_lookups.
  simpl. destruct (isAtView _); [|reflexivity].
  unfold viewVariablesOf.
  repeat match goal with
         | |- context [match ?x with _ => _ end] => destruct x
         end; try reflexivity.
  rewrite tbind_snd, List.filter_app.
  rewrite lookups_only_no_step
    by apply collectVariablesFromStack_lookups.
  reflexivity.
Qed.

Lemma after_step_nsteps r interp (w : World I) i n :
  nsteps (after_step' r interp w i n) = nsteps w + 1.
Proof.
  unfold nsteps. rewrite after_step_events. rewrite !count_events_app.
  rewrite snapshot_trace_no_step. unfold count_events. simpl. lia.
Qed.

Lemma throwing_step_nsteps interp (w : World I) (i' : I) :
  nsteps (log [EvStep interp] (with_heap (<[interp := i']> (heap w)) w))
  = nsteps w + 1.
Proof.
  unfold nsteps. simpl. rewrite count_events_app.
  unfold count_events. simpl. lia.
Qed.

Lemma same_controls_after_step r interp (w : World I) i n :
  same_controls (ui w) (ui (after_step' r interp w i n)).
Proof. rewrite after_step_ui. repeat split. Qed.

Lemma same_controls_trans (u1 u2 u3 : ModalState) :
  same_controls u1 u2 -> same_controls u2 u3 -> same_controls u1 u3.
Proof.
  unfold same_controls.
  intros (?&?&?&?&?&?&?&?) (?&?&?&?&?&?&?&?).
  repeat split; congruence.
Qed.

Lemma same_controls_refl (u : ModalState) : same_controls u u.
Proof. repeat split. Qed.

Lemma history_after_step r interp (w : World I) i n :
  history (ui w) `prefix_of` history (ui (after_step' r interp w i n)).
Proof. rewrite after_step_ui. simpl. apply prefix_app_r. reflexivity. Qed.

Lemma stepPastViewLoop_S fuel r interp sc b :
  stepPastViewLoop' (S fuel) r interp sc b
  = if b && (sc <? maxSteps) then
      (canContinue <- stepM interp ;;
       newState <-
         getCurrentStateM' r interp (Z.of_nat (length (history r))) ;;
       setHistory (fun prev => prev ++ [newState]) ;;
       highlightCode (highlight newState) ;;
       if negb canContinue then
         setIsComplete true ;;
         setIsSteppingToView false ;;
         ret (Returned ExitCompletePast)
       else
         stillAtSameView <- isAtViewM interp ;;
         stepPastViewLoop' fuel r interp (sc + 1) stillAtSameView)%handler
    else ret (Fell sc).
Proof. reflexivity. Qed.

Lemma stepToNextViewLoop_S fuel r interp sc b :
  stepToNextViewLoop' (S fuel) r interp sc b
  = if negb b && (sc <? maxSteps) then
      (canContinue <- stepM interp ;;
       state <-
         getCurrentStateM' r interp (Z.of_nat (length (history r))) ;;
       setHistory (fun prev => prev ++ [state]) ;;
       highlightCode (highlight state) ;;
       if negb canContinue then
         setIsComplete true ;;
         setIsSteppingToView false ;;
         ret (Returned ExitCompleteSeek)
       else
         atView <- isAtViewM interp ;;
         if atView then
           setIsSteppingToView false ;;
           ret (Returned ExitFoundView)
         else stepToNextViewLoop' fuel r interp (sc + 1) b)%handler
    else ret (Fell sc).
Proof. reflexivity. Qed.

Lemma stepPastViewLoop_spec (r : ModalState) (interp : nat) :
  forall (fuel : nat) (sc : Z) (b : bool) (w : World I) (i : I),
    heap w !! interp = Some i ->
    0 <= sc <= maxSteps ->
    maxSteps - sc <= Z.of_nat fuel ->
    exists k res w',
      stepPastViewLoop' fuel r interp sc b w = (res, w')
      /\ loop_progress sc k w w' interp
      /\ match res with
         | Ok (Fell sc') => sc' = sc + k /\ same_controls (ui w) (ui w')
         | Ok (Returned ex) =>
             ex = ExitCompletePast /\ 1 <= k
             /\ isComplete (ui w') = true
             /\ isSteppingToView (ui w') = false
         | Throw _ => True
         end.
Proof.
  induction fuel as [|fuel IH]; intros sc b w i Hi Hsc Hfuel.
  - exists 0, (Ok (Fell sc)), w. simpl.
    assert (sc = maxSteps) as -> by lia.
    rewrite Z.ltb_irrefl, andb_false_r.
    unfold loop_progress.
    repeat split; try lia; eauto using same_controls_refl.
  - rewrite stepPastViewLoop_S.
    destruct (b && (sc <? maxSteps)) eqn:Hcond.
    2:{ exists 0, (Ok (Fell sc)), w. unfold loop_progress.
        repeat split; try lia; eauto using same_controls_refl. }
    apply andb_prop in Hcond as [_ Hlt]. apply Z.ltb_lt in Hlt.
    erewrite run_recorded_step by exact Hi.
    destruct (fst (step i)) as [c|e] eqn:Hc.
    + destruct c; cbn [negb].
      * unfold bind at 1. unfold isAtViewM.
        rewrite (after_step_heap _ _ _ _ _ Hi).
        destruct (IH (sc + 1) (isAtView (snd (step i)))
                    (after_step' r interp w i
                       (Z.of_nat (length (history r))))
                    (snd (step i)))
          as (k & res & w' & Hrun & Hprog & Hres);
          [apply after_step_heap; exact Hi | lia | lia |].
        exists (k + 1), res, w'. split; [exact Hrun|].
        destruct Hprog as (Hk & Hle & Hn & Hpre & Hheap).
        rewrite after_step_nsteps in Hn.
        split.
        { unfold loop_progress. repeat split; try lia; try exact Hheap.
          etransitivity; [apply history_after_step | exact Hpre]. }
        destruct res as [[ex|sc']|e]; [| |trivial].
        { destruct Hres as (? & ? & ? & ?). repeat split; auto; lia. }
        { destruct Hres as [-> Hsame]. split; [lia|].
          eapply same_controls_trans;
            [apply same_controls_after_step | exact Hsame]. }
      * eexists 1, _, _. split; [reflexivity|].
        split; [|repeat split; lia].
        unfold loop_progress. repeat split; try lia.
        { exact (after_step_nsteps r interp w i _). }
        { exact (history_after_step r interp w i _). }
        { exists (snd (step i)).
          exact (after_step_heap r interp w i _ Hi). }
    + eexists 1, _, _. split; [reflexivity|]. split; [|trivial].
      unfold loop_progress. repeat split; try lia.
      * apply throwing_step_nsteps.
      * simpl. reflexivity.
      * exists (snd (step i)). simpl.
        apply list_lookup_insert_eq. eapply lookup_lt_Some. exact Hi.
Qed.

Lemma stepToNextViewLoop_spec (r : ModalState) (interp : nat) :
  forall (fuel : nat) (sc : Z) (w : World I) (i : I),
    heap w !! interp = Some i ->
    0 <= sc <= maxSteps ->
    maxSteps - sc <= Z.of_nat fuel ->
    exists k res w',
      stepToNextViewLoop' fuel r interp sc false w = (res, w')
      /\ loop_progress sc k w w' interp
      /\ match res with
         | Ok (Fell sc') =>
             sc' = sc + k /\ maxSteps <= sc'
             /\ same_controls (ui w) (ui w')
         | Ok (Returned ex) =>
             1 <= k /\ isSteppingToView (ui w') = false
             /\ (ex = ExitCompleteSeek \/ ex = ExitFoundView)
         | Throw _ => True
         end.
Proof.
  induction fuel as [|fuel IH]; intros sc w i Hi Hsc Hfuel.
  - exists 0, (Ok (Fell sc)), w. simpl.
    assert (sc = maxSteps) as -> by lia.
    rewrite Z.ltb_irrefl. unfold loop_progress.
    repeat split; try lia; eauto using same_controls_refl.
  - rewrite stepToNextViewLoop_S. cbn [negb andb].
    destruct (sc <? maxSteps) eqn:Hcond.
    2:{ exists 0, (Ok (Fell sc)), w. apply Z.ltb_ge in Hcond.
        unfold loop_progress.
        repeat split; try lia; eauto using same_controls_refl. }
    apply Z.ltb_lt in Hcond.
    erewrite run_recorded_step by exact Hi.
    destruct (fst (step i)) as [c|e] eqn:Hc.
    + destruct c; cbn [negb].
      * unfold bind at 1. unfold isAtViewM.
        rewrite (after_step_heap _ _ _ _ _ Hi).
        destruct (isAtView (snd (step i))).
        { eexists 1, _, _. split; [reflexivity|].
          split; [|repeat split; auto; lia].
          unfold loop_progress. repeat split; try lia.
          - exact (after_step_nsteps r interp w i _).
          - exact (history_after_step r interp w i _).
          - exists (snd (step i)).
            exact (after_step_heap r interp w i _ Hi). }
        destruct (IH (sc + 1)
                    (after_step' r interp w i
                       (Z.of_nat (length (history r))))
                    (snd (step i)))
          as (k & res & w' & Hrun & Hprog & Hres);
          [apply after_step_heap; exact Hi | lia | lia |].
        exists (k + 1), res, w'. split; [exact Hrun|].
        destruct Hprog as (Hk & Hle & Hn & Hpre & Hheap).
        rewrite after_step_nsteps in Hn.
        split.
        { unfold loop_progress. repeat split; try lia; try exact Hheap.
          etransitivity; [apply history_after_step | exact Hpre]. }
        destruct res as [[ex|sc']|e]; [| |trivial].
        { destruct Hres as (? & ? & ?). repeat split; auto; lia. }
        { destruct Hres as (-> & ? & Hsame). repeat split; try lia.
          all: eapply same_controls_trans;
            [apply same_controls_after_step | exact Hsame]. }
      * eexists 1, _, _. split; [reflexivity|].
        split; [|repeat split; auto; lia].
        unfold loop_progress. repeat split; try lia.
        { exact (after_step_nsteps r interp w i _). }
        { exact (history_after_step r interp w i _). }
        { exists (snd (step i)).
          exact (after_step_heap r interp w i _ Hi). }
    + eexists 1, _, _. split; [reflexivity|]. split; [|trivial].
      unfold loop_progress. repeat split; try lia.
      * apply throwing_step_nsteps.
      * simpl. reflexivity.
      * exists (snd (step i)). simpl.
        apply list_lookup_insert_eq. eapply lookup_lt_Some. exact Hi.
Qed.

Lemma bind_run {A B} (m : M A) (k : A -> M B) (w w' : World I) a :
  m w = (Ok a, w') -> bind m k w = k a w'.
Proof. intros Hm. unfold bind. rewrite Hm. reflexivity. Qed.

Lemma bind_throw {A B} (m : M A) (k : A -> M B) (w w' : World I) e :
  m w = (Throw e, w') -> bind m k w = (Throw e, w').
Proof. intros Hm. unfold bind. rewrite Hm. reflexivity. Qed.

Lemma try_catch_run {A} (m : M A) (h : exn -> M A) (w w' : World I) a :
  m w = (Ok a, w') -> try_catch m h w = (Ok a, w').
Proof. intros Hm. unfold try_catch. rewrite Hm. reflexivity. Qed.

Lemma try_catch_throw {A} (m : M A) (h : exn -> M A)
    (w w' : World I) e :
  m w = (Throw e, w') -> try_catch m h w = h e w'.
Proof. intros Hm. unfold try_catch. rewrite Hm. reflexivity. Qed.

(** The second phase of [stepToView]: the loop and the ceiling test
    behind it. *)
Lemma seek_phase_spec (r : ModalState) (interp : nat) (sc : Z)
    (w : World I) (i : I) :
  heap w !! interp = Some i ->
  0 <= sc <= maxSteps ->
  exists k res w',
    bind (stepToNextViewLoop' (Z.to_nat maxSteps) r interp sc false)
      (fun e =>
         match e with
         | Returned exit => ret exit
         | Fell stepsCount =>
             if maxSteps <=? stepsCount then
               (setError
                  (Some "Maximum steps reached while looking for next View") ;;
                setIsSteppingToView false ;;
                ret ExitCeilingSeek)%handler
             else ret ExitUnreached
         end) w = (res, w')
    /\ 0 <= k /\ sc + k <= maxSteps
    /\ nsteps w' = nsteps w + k
    /\ history (ui w) `prefix_of` history (ui w')
    /\ match res with
       | Ok ExitCeilingSeek =>
           sc + k = maxSteps
           /\ error (ui w')
              = Some "Maximum steps reached while looking for next View"
           /\ isSteppingToView (ui w') = false
           /\ isComplete (ui w') = isComplete (ui w)
       | Ok ExitCompleteSeek | Ok ExitFoundView =>
           isSteppingToView (ui w') = false
       | Ok _ => False
       | Throw _ => True
       end.
Proof.
  intros Hi Hsc.
  destruct (stepToNextViewLoop_spec r interp (Z.to_nat maxSteps) sc w i
              Hi Hsc) as (k & res & w' & Hrun & Hprog & Hres); [lia|].
  destruct Hprog as (Hk & Hle & Hn & Hpre & _).
  destruct res as [[ex|sc']|e].
  - exists k, (Ok ex), w'. rewrite (bind_run _ _ _ _ _ Hrun).
    repeat split; auto.
    destruct Hres as (_ & Hflag & [-> | ->]); exact Hflag.
  - destruct Hres as (-> & Hceil & Hsame).
    rewrite (bind_run _ _ _ _ _ Hrun).
    apply Z.leb_le in Hceil as Hceil'. rewrite Hceil'.
    eexists k, _, _. split; [reflexivity|].
    repeat split; auto; try lia.
    destruct Hsame as (_ & Hc & _). exact Hc.
  - exists k, (Throw e), w'. rewrite (bind_throw _ _ _ _ _ Hrun).
    repeat split; auto.
Qed.

Lemma stepToView_post_plain (w : World I) exit (w' : World I) :
  exit = ExitCompletePast \/ exit = ExitCompleteSeek
  \/ exit = ExitFoundView \/ exit = ExitError ->
  nsteps w <= nsteps w' <= nsteps w + maxSteps ->
  history (ui w) `prefix_of` history (ui w') ->
  stepToView_post w exit w'.
Proof.
  intros Hex Hn Hpre. unfold stepToView_post.
  split; [|split; [exact Hn|split; [exact Hpre|split]]].
  - destruct Hex as [-> | [-> | [-> | ->]]]; discriminate.
  - destruct Hex as [-> | [-> | [-> | ->]]]; discriminate.
  - destruct Hex as [-> | [-> | [-> | ->]]]; intros [?|?]; discriminate.
Qed.

Lemma stepToView_post_ceiling (w : World I) exit (w' : World I) :
  exit = ExitCeilingPast \/ exit = ExitCeilingSeek ->
  nsteps w' = nsteps w + maxSteps ->
  history (ui w) `prefix_of` history (ui w') ->
  (exists msg, error (ui w') = Some msg) ->
  isSteppingToView (ui w') = false ->
  isComplete (ui w') = isComplete (ui w) ->
  stepToView_post w exit w'.
Proof.
  intros Hex Hn Hpre Herr Hflag Hcomp. unfold stepToView_post.
  assert (0 <= maxSteps) by (rewrite maxSteps_eq; lia).
  split; [|split; [lia|split; [exact Hpre|split]]].
  - destruct Hex as [-> | ->]; discriminate.
  - destruct Hex as [-> | ->]; discriminate.
  - auto.
Qed.

(** Every invocation of [stepToView] returns, through one of the
    [return] statements of the code, after at most [maxSteps] steps and
    with the pending history extended. *)
Lemma stepToView_spec (r : ModalState) (w : World I) :
  exists exit w',
    stepToView' r w = (Ok exit, w') /\ stepToView_post w exit w'.
Proof.
  assert (Hmax : 0 <= maxSteps) by (rewrite maxSteps_eq; lia).
  assert (Hguard : stepToView_post w ExitGuard w).
  { unfold stepToView_post. split; [discriminate|]. split; [lia|].
    split; [reflexivity|]. split; [reflexivity|].
    intros [?|?]; discriminate. }
  unfold stepToView.
  destruct (interpreter r) as [interp|]; [|exists ExitGuard, w; auto].
  destruct (isComplete r); [exists ExitGuard, w; auto|].
  clear Hguard.
  unfold bind at 1. cbn [setIsSteppingToView modify].
  set (w0 := with_ui (with_isSteppingToView true) w).
  assert (Hn0 : nsteps w0 = nsteps w) by reflexivity.
  assert (Hh0 : history (ui w0) = history (ui w)) by reflexivity.
  assert (Hc0 : isComplete (ui w0) = isComplete (ui w)) by reflexivity.
  clearbody w0.
  (* what the [catch] block makes of an exception *)
  assert (Hcatch : forall (e : exn) (w1 : World I) (k : Z),
    0 <= k <= maxSteps -> nsteps w1 = nsteps w0 + k ->
    history (ui w0) `prefix_of` history (ui w1) ->
    exists exit w',
      (setError (Some ("Execution error: " +:+ exnString e)) ;;
       setIsSteppingToView false ;; ret ExitError)%handler w1
      = (Ok exit, w')
      /\ stepToView_post w exit w').
  { intros e w1 k Hk Hn Hpre. eexists ExitError, _.
    split; [reflexivity|].
    apply stepToView_post_plain; auto.
    - change (nsteps w <= nsteps w1 <= nsteps w + maxSteps). lia.
    - rewrite <- Hh0. exact Hpre. }
  (* the second phase, from a world reached after [k0] steps *)
  assert (Hseek : forall (w1 : World I) (i1 : I) (k0 : Z),
    heap w1 !! interp = Some i1 ->
    0 <= k0 <= maxSteps -> nsteps w1 = nsteps w0 + k0 ->
    history (ui w0) `prefix_of` history (ui w1) ->
    isComplete (ui w1) = isComplete (ui w0) ->
    exists exit w',
      try_catch
        (fun w2 => bind
           (stepToNextViewLoop' (Z.to_nat maxSteps) r interp k0 false)
           (fun e =>
              match e with
              | Returned exit => ret exit
              | Fell stepsCount =>
                  if maxSteps <=? stepsCount then
                    (setError
                       (Some "Maximum steps reached while looking for next View") ;;
                     setIsSteppingToView false ;;
                     ret ExitCeilingSeek)%handler
                  else ret ExitUnreached
              end) w2)
        (fun err =>
           (setError (Some ("Execution error: " +:+ exnString err)) ;;
            setIsSteppingToView false ;; ret ExitError)%handler) w1
      = (Ok exit, w')
      /\ stepToView_post w exit w').
  { intros w1 i1 k0 Hi1 Hk0 Hn1 Hpre1 Hc1.
    destruct (seek_phase_spec r interp k0 w1 i1 Hi1 Hk0)
      as (k & res & w' & Hrun & Hk & Hle & Hn & Hpre & Hres).
    destruct res as [exit|e].
    - rewrite (try_catch_run _ _ _ _ _ Hrun). exists exit, w'.
      split; [reflexivity|].
      assert (Hpre' : history (ui w) `prefix_of` history (ui w')).
      { rewrite <- Hh0. etransitivity; eassumption. }
      destruct exit; try contradiction.
      + apply stepToView_post_plain; auto. lia.
      + apply stepToView_post_plain; auto. lia.
      + destruct Hres as (Hsum & Herr & Hflag & Hcomp).
        apply stepToView_post_ceiling; eauto; try lia; congruence.
    - rewrite (try_catch_throw _ _ _ _ _ Hrun).
      apply (Hcatch e w' (k0 + k)); [lia | lia |].
      etransitivity; eassumption. }
  destruct (heap w0 !! interp) as [i|] eqn:Hi.
  2:{ unfold try_catch, bind at 1, isAtViewM. rewrite Hi.
      apply (Hcatch dangling w0 0); [lia | lia | reflexivity]. }
  destruct (isAtView i) eqn:Hat.
  - (* at a view: the first phase runs *)
    destruct (stepPastViewLoop_spec r interp (Z.to_nat maxSteps) 0 true
                w0 i Hi) as (k & res & w1 & Hrun & Hprog & Hres);
      [lia | lia |].
    destruct Hprog as (Hk & Hle & Hn & Hpre & (i1 & Hi1)).
    destruct res as [[ex|sc']|e].
    + (* the program completed while stepping past *)
      destruct Hres as (-> & _ & _ & _).
      exists ExitCompletePast, w1. split.
      { unfold try_catch, bind at 1, isAtViewM. rewrite Hi, Hat.
        unfold bind at 1. unfold bind at 1. rewrite Hrun. reflexivity. }
      apply stepToView_post_plain; auto; [lia|].
      rewrite <- Hh0. exact Hpre.
    + destruct Hres as (-> & Hsame).
      destruct (maxSteps <=? 0 + k) eqn:Hceil.
      * (* the first loop hit the ceiling *)
        apply Z.leb_le in Hceil as Hceil'.
        eexists ExitCeilingPast, _. split.
        { unfold try_catch, bind at 1, isAtViewM. rewrite Hi, Hat.
          unfold bind at 1. unfold bind at 1. rewrite Hrun, Hceil.
          reflexivity. }
        apply stepToView_post_ceiling; auto.
        { change (nsteps w1 = nsteps w + maxSteps). lia. }
        { rewrite <- Hh0. exact Hpre. }
        { eexists. reflexivity. }
        { destruct Hsame as (_ & Hc & _). simpl. congruence. }
      * (* past the view: the second phase runs *)
        apply Z.leb_gt in Hceil.
        destruct (Hseek w1 i1 k Hi1) as (exit & w' & Hrun2 & Hrest);
          [lia | lia | exact Hpre | |].
        { destruct Hsame as (_ & Hc & _). exact Hc. }
        exists exit, w'. split; [|exact Hrest].
        rewrite <- Hrun2.
        unfold try_catch, bind at 1, isAtViewM. rewrite Hi, Hat.
        unfold bind at 1. unfold bind at 1. rewrite Hrun.
        replace (maxSteps <=? 0 + k) with false
          by (symmetry; apply Z.leb_gt; lia).
        reflexivity.
    + (* an exception in the first loop *)
      destruct (Hcatch e w1 k) as (exit & w' & Hrun2 & Hrest);
        [lia | lia | exact Hpre |].
      exists exit, w'. split; [|exact Hrest].
      rewrite <- Hrun2.
      unfold try_catch, bind at 1, isAtViewM. rewrite Hi, Hat.
      unfold bind at 1. unfold bind at 1. rewrite Hrun. reflexivity.
  - (* not at a view: the second phase runs at once *)
    destruct (Hseek w0 i 0 Hi) as (exit & w' & Hrun2 & Hrest);
      [lia | lia | reflexivity | reflexivity |].
    exists exit, w'. split; [|exact Hrest].
    rewrite <- Hrun2.
    unfold try_catch, bind at 1, isAtViewM. rewrite Hi, Hat.
    reflexivity.
Qed.

(** *** The timer *)

Lemma clearAutoPlay_run (w : World I) :
  exists w',
    clearAutoPlay w = (Ok tt, w')
    /\ ui w' = ui w /\ heap w' = heap w
    /\ autoPlayIntervalRef w' = None
    /\ events w'
       = events w ++ match autoPlayIntervalRef w with
                     | Some h => [EvClearInterval h]
                     | None => []
                     end
    /\ (forall h, autoPlayIntervalRef w = Some h ->
          h ∉ (fst <$> intervals w'))
    /\ (forall p, p ∈ intervals w' -> p ∈ intervals w)
    /\ (autoPlayIntervalRef w = None -> w' = w).
Proof.
  unfold clearAutoPlay.
  destruct (autoPlayIntervalRef w) as [h|] eqn:Href.
  - eexists. split; [reflexivity|]. simpl.
    repeat split; try discriminate.
    + intros h' [= <-] Hin.
      apply list_elem_of_fmap in Hin as ([h' r'] & Heq & Hin).
      simpl in Heq. subst h'.
      apply list_elem_of_In, List.filter_In in Hin as [_ Hne].
      simpl in Hne. rewrite Pos.eqb_refl in Hne. discriminate Hne.
    + intros p Hin.
      apply list_elem_of_In, List.filter_In in Hin as [Hin _].
      apply list_elem_of_In. exact Hin.
  - exists w. repeat split; auto; try discriminate.
    + destruct w; simpl in *. rewrite app_nil_r. reflexivity.
Qed.

(** *** stepForward *)

(** The [catch] block of [stepForward] leaves history, heap and step
    count alone. *)
Lemma stepForward_catch_run (e : exn) (w : World I) :
  exists w',
    (setError (Some ("Execution error: " +:+ exnString e)) ;;
     setIsRunning false ;;
     setIsSteppingToView false ;;
     clearAutoPlay)%handler w = (Ok tt, w')
    /\ history (ui w') = history (ui w)
    /\ heap w' = heap w
    /\ List.filter is_notify (events w')
       = List.filter is_notify (events w).
Proof.
  unfold bind at 1. cbn [setError modify].
  unfold bind at 1. cbn [setIsRunning modify].
  unfold bind at 1. cbn [setIsSteppingToView modify].
  match goal with |- context [clearAutoPlay ?w1] =>
    destruct (clearAutoPlay_run w1)
      as (w' & Hrun & Hui & Hheap & _ & Hev & _) end.
  exists w'. split; [exact Hrun|]. rewrite Hui, Hheap, Hev.
  repeat split. rewrite List.filter_app. simpl.
  destruct (autoPlayIntervalRef w); simpl; apply app_nil_r.
Qed.

(** A step that returns normally: the snapshot is appended, nothing
    else is, and after the snapshot's own trace only the timer may be
    touched. *)
Lemma stepForward_success (r : ModalState) (w : World I)
    (interp : nat) (i : I) (c : bool) :
  interpreter r = Some interp -> isComplete r = false ->
  heap w !! interp = Some i -> fst (step i) = Ok c ->
  exists w',
    stepForward' r w = (Ok tt, w')
    /\ history (ui w')
       = history (ui w)
         ++ [fst (snapshot_after' r w i (Z.of_nat (length (history r))))]
    /\ heap w' !! interp = Some (snd (step i))
    /\ exists tail,
         events w'
         = events (after_step' r interp w i
                     (Z.of_nat (length (history r)))) ++ tail
         /\ List.filter is_notify tail = []
         /\ List.filter is_step tail = [].
Proof.
  intros Hint Hcomp Hi Hc. unfold stepForward. rewrite Hint, Hcomp.
  set (n := Z.of_nat (length (history r))).
  set (w1 := after_step' r interp w i n).
  assert (Hi1 : heap w1 !! interp = Some (snd (step i)))
    by (apply after_step_heap; exact Hi).
  (* the part of the [try] block behind the recorded step *)
  assert (Hrest : exists w',
    ((if negb c then
        (setIsComplete true ;; setIsRunning false ;;
         setIsSteppingToView false ;; clearAutoPlay)%handler
      else ret tt) ;;
     (if isSteppingToView r then
        (atView <- isAtViewM interp ;;
         if atView then setIsSteppingToView false else ret tt)%handler
      else ret tt))%handler w1 = (Ok tt, w')
    /\ history (ui w') = history (ui w1)
    /\ heap w' = heap w1
    /\ exists tail, events w' = events w1 ++ tail
         /\ List.filter is_notify tail = []
         /\ List.filter is_step tail = []).
  { assert (Hfirst : exists w2,
      (if negb c then
         (setIsComplete true ;; setIsRunning false ;;
          setIsSteppingToView false ;; clearAutoPlay)%handler
       else ret tt) w1 = (Ok tt, w2)
      /\ history (ui w2) = history (ui w1)
      /\ heap w2 = heap w1
      /\ exists tail, events w2 = events w1 ++ tail
           /\ List.filter is_notify tail = []
           /\ List.filter is_step tail = []).
    { destruct c; cbn [negb].
      - exists w1. repeat split. exists []. rewrite app_nil_r. auto.
      - unfold bind at 1. cbn [setIsComplete modify].
        unfold bind at 1. cbn [setIsRunning modify].
        unfold bind at 1. cbn [setIsSteppingToView modify].
        match goal with |- context [clearAutoPlay ?wx] =>
          destruct (clearAutoPlay_run wx)
            as (w2 & Hrun & Hui & Hheap & _ & Hev & _) end.
        exists w2. split; [exact Hrun|]. rewrite Hui, Hheap, Hev.
        repeat split. eexists. split; [reflexivity|].
        destruct (autoPlayIntervalRef _); auto. }
    destruct Hfirst as (w2 & Hrun2 & Hh2 & Hheap2 & tail & Hev2 & Hn & Hs).
    rewrite (bind_run _ _ _ _ _ Hrun2).
    destruct (isSteppingToView r).
    - unfold bind, isAtViewM. rewrite Hheap2, Hi1.
      destruct (isAtView (snd (step i))).
      + eexists. split; [reflexivity|]. simpl.
        repeat split; auto. exists tail. auto.
      + exists w2. repeat split; auto. exists tail. auto.
    - exists w2. repeat split; auto. exists tail. auto. }
  destruct Hrest as (w' & Hrun & Hh & Hheap & tail & Hev & Hn & Hs).
  exists w'. split.
  - unfold try_catch. erewrite run_recorded_step by exact Hi.
    rewrite Hc. fold n. fold w1. rewrite Hrun. reflexivity.
  - rewrite Hh, Hheap. repeat split; auto. exists tail. auto.
Qed.

Lemma stepForward_history_prefix (r : ModalState) (w : World I) :
  exists w',
    stepForward' r w = (Ok tt, w')
    /\ history (ui w) `prefix_of` history (ui w').
Proof.
  unfold stepForward.
  destruct (interpreter r) as [interp|] eqn:Hint;
    [|exists w; split; reflexivity].
  destruct (isComplete r) eqn:Hcomp; [exists w; split; reflexivity|].
  destruct (heap w !! interp) as [i|] eqn:Hi.
  - destruct (fst (step i)) as [c|e] eqn:Hc.
    + destruct (stepForward_success r w interp i c Hint Hcomp Hi Hc)
        as (w' & Hrun & Hh & _).
      unfold stepForward in Hrun. rewrite Hint, Hcomp in Hrun.
      exists w'. split; [exact Hrun|]. rewrite Hh.
      apply prefix_app_r. reflexivity.
    + unfold try_catch. erewrite run_recorded_step by exact Hi.
      rewrite Hc.
      match goal with |- context [bind _ _ ?w1] =>
        destruct (stepForward_catch_run e w1) as (w' & Hrun & Hh & _)
      end.
      exists w'. split; [exact Hrun|]. rewrite Hh. reflexivity.
  - unfold try_catch, bind at 1, stepM. rewrite Hi.
    destruct (stepForward_catch_run dangling w) as (w' & Hrun & Hh & _).
    exists w'. split; [exact Hrun|]. rewrite Hh. reflexivity.
Qed.

(** *** stepBackward *)

Lemma stepBackward_run (r : ModalState) (w : World I) :
  exists w',
    stepBackward r w = (Ok tt, w')
    /\ ui w' = ui w /\ heap w' = heap w
    /\ autoPlayIntervalRef w' = autoPlayIntervalRef w
    /\ intervals w' = intervals w
    /\ ((length (history r) <= 1)%nat -> w' = w)
    /\ ((1 < length (history r))%nat ->
        exists prevState,
          history r !! (length (history r) - 2)%nat = Some prevState
          /\ events w'
             = events w ++ [EvHighlight (fst (highlight prevState))
                              (snd (highlight prevState))]).
Proof.
  unfold stepBackward.
  destruct (length (history r) <=? 1)%nat eqn:Hlen.
  - apply Nat.leb_le in Hlen. exists w.
    repeat split; auto. intros; lia.
  - apply Nat.leb_gt in Hlen.
    destruct (history r !! (length (history r) - 2)%nat)
      as [prevState|] eqn:Hprev.
    + eexists. split; [reflexivity|]. simpl.
      repeat split; try (intros; lia).
      intros _. exists prevState. auto.
    + apply lookup_ge_None in Hprev. lia.
Qed.

(** C4.  The execution history is append-only.  [stepBackward]
    returns with the component state (history and every flag), the
    interpreter objects and the timer as they were and without a call to
    [step()]: it does nothing at all when the history has at most one
    entry, and otherwise its only effect is to highlight the range of
    the second-to-last snapshot.  After [stepForward] and after
    [stepToView] the pending history has the former history as a
    prefix: snapshots are appended, none is removed or changed. *)
Theorem history_append_only (r : ModalState) (w : World I) :
  (exists w',
     stepBackward r w = (Ok tt, w')
     /\ ui w' = ui w /\ heap w' = heap w
     /\ autoPlayIntervalRef w' = autoPlayIntervalRef w
     /\ intervals w' = intervals w
     /\ nsteps w' = nsteps w
     /\ ((length (history r) <= 1)%nat -> w' = w)
     /\ ((1 < length (history r))%nat ->
         exists prevState,
           history r !! (length (history r) - 2)%nat = Some prevState
           /\ events w'
              = events w ++ [EvHighlight (fst (highlight prevState))
                               (snd (highlight prevState))]))
  /\ (exists w',
        stepForward extractVariableNames updateStepModeVariables r w
        = (Ok tt, w')
        /\ history (ui w) `prefix_of` history (ui w'))
  /\ (exists exit w',
        stepToView extractVariableNames updateStepModeVariables r w
        = (Ok exit, w')
        /\ history (ui w) `prefix_of` history (ui w')).
Proof.
  split; [|split].
  - destruct (stepBackward_run r w)
      as (w' & Hrun & Hui & Hheap & Href & Hint & Hnoop & Hhl).
    exists w'. repeat split; auto.
    destruct (Nat.le_gt_cases (length (history r)) 1) as [Hle|Hgt].
    + rewrite (Hnoop Hle). reflexivity.
    + destruct (Hhl Hgt) as (prevState & _ & Hev).
      unfold nsteps. rewrite Hev, count_events_app.
      unfold count_events. simpl. lia.
  - apply stepForward_history_prefix.
  - destruct (stepToView_spec r w) as (exit & w' & Hrun & Hpost).
    exists exit, w'. split; [exact Hrun|]. apply Hpost.
Qed.

(** C2.  Every invocation of [stepToView] returns, through one of the
    [return] statements of the code, and the number of
    [interpreter.step()] calls it makes, over both loops together, is at
    most 100,000.  When it leaves through a ceiling test (the loop was
    cut off at 100,000 steps), an error message is set, the
    stepping-to-view flag is cleared and [isComplete] is what it was
    before the invocation. *)
Theorem stepToView_within_ceiling (r : ModalState) (w : World I) :
  exists exit w',
    stepToView extractVariableNames updateStepModeVariables r w
    = (Ok exit, w')
    /\ exit <> ExitUnreached
    /\ 0 <= nsteps w' - nsteps w <= 100000
    /\ (exit = ExitCeilingPast \/ exit = ExitCeilingSeek ->
        nsteps w' - nsteps w = 100000
        /\ (exists msg, error (ui w') = Some msg)
        /\ isSteppingToView (ui w') = false
        /\ isComplete (ui w') = isComplete (ui w)).
Proof.
  destruct (stepToView_spec r w)
    as (exit & w' & Hrun & Hne & Hn & _ & _ & Hceil).
  rewrite maxSteps_eq in Hn, Hceil.
  exists exit, w'. split; [exact Hrun|]. split; [exact Hne|].
  split; [lia|]. intros Hex.
  destruct (Hceil Hex) as (Hsteps & Herr & Hflag & Hcomp).
  repeat split; auto. lia.
Qed.

(** On a runaway program the second loop runs into the ceiling. *)
Lemma stepToNextViewLoop_runaway (r : ModalState) (interp : nat)
    (Inv : I -> Prop) :
  (forall j, Inv j ->
     fst (step j) = Ok true /\ isAtView (snd (step j)) = false
     /\ Inv (snd (step j))) ->
  forall (fuel : nat) (sc : Z) (w : World I) (i : I),
    Inv i -> heap w !! interp = Some i ->
    0 <= sc <= maxSteps -> maxSteps - sc <= Z.of_nat fuel ->
    exists w',
      stepToNextViewLoop' fuel r interp sc false w
      = (Ok (Fell maxSteps), w').
Proof.
  intros Hinv. induction fuel as [|fuel IH]; intros sc w i HI Hi Hsc Hf.
  - exists w. simpl. assert (sc = maxSteps) as -> by lia.
    rewrite Z.ltb_irrefl. reflexivity.
  - rewrite stepToNextViewLoop_S. cbn [negb andb].
    destruct (sc <? maxSteps) eqn:Hlt.
    2:{ apply Z.ltb_ge in Hlt. exists w.
        assert (sc = maxSteps) as -> by lia. reflexivity. }
    apply Z.ltb_lt in Hlt.
    destruct (Hinv i HI) as (Hc & Hat & HI').
    erewrite run_recorded_step by exact Hi. rewrite Hc. cbn [negb].
    unfold bind at 1. unfold isAtViewM.
    rewrite (after_step_heap _ _ _ _ _ Hi), Hat.
    apply (IH (sc + 1) _ (snd (step i))); auto; try lia.
    apply after_step_heap. exact Hi.
Qed.

(** The ceiling is reached: a runaway program that is not at a [view]
    call makes [stepToView] leave through the ceiling test of the second
    loop, after exactly 100,000 steps. *)
Lemma stepToView_runaway (r : ModalState) (w : World I)
    (interp : nat) (i : I) :
  interpreter r = Some interp -> isComplete r = false ->
  heap w !! interp = Some i ->
  isAtView i = false -> runaway i ->
  exists w',
    stepToView' r w = (Ok ExitCeilingSeek, w')
    /\ nsteps w' = nsteps w + 100000
    /\ error (ui w')
       = Some "Maximum steps reached while looking for next View"
    /\ isSteppingToView (ui w') = false
    /\ isComplete (ui w') = isComplete (ui w).
Proof.
  intros Hint Hcomp Hi Hat (Inv & HI & Hinv).
  assert (Hmax : 0 <= maxSteps) by (rewrite maxSteps_eq; lia).
  destruct (stepToNextViewLoop_runaway r interp Inv Hinv
              (Z.to_nat maxSteps) 0
              (with_ui (with_isSteppingToView true) w) i HI Hi)
    as (w1 & Hloop); [lia | lia |].
  assert (Hrun : stepToView' r w
                 = (Ok ExitCeilingSeek,
                    with_ui (with_isSteppingToView false)
                      (with_ui
                         (with_error
                            (Some "Maximum steps reached while looking for next View"))
                         w1))).
  { unfold stepToView. rewrite Hint, Hcomp.
    unfold bind at 1. cbn [setIsSteppingToView modify].
    unfold try_catch, bind at 1, isAtViewM.
    change (heap (with_ui (with_isSteppingToView true) w)) with (heap w).
    rewrite Hi, Hat. unfold bind at 1. cbn [ret].
    unfold bind at 1. rewrite Hloop. rewrite Z.leb_refl. reflexivity. }
  destruct (stepToView_spec r w) as (exit & w' & Hrun' & Hpost).
  rewrite Hrun in Hrun'. injection Hrun' as <- <-.
  destruct Hpost as (_ & _ & _ & _ & Hceil).
  destruct Hceil as (Hn & _ & Hflag & Hc); [right; reflexivity|].
  eexists. split; [exact Hrun|].
  rewrite maxSteps_eq in Hn. repeat split; auto.
Qed.

End HandlerFacts.

Lemma stepToView_loopToy_ceiling :
  exists w',
    stepToView (toy_extractVariableNames []) toy_updateStepModeVariables
      (ui loopWorld) loopWorld = (Ok ExitCeilingSeek, w')
    /\ nsteps w' = 100000
    /\ error (ui w')
       = Some "Maximum steps reached while looking for next View"
    /\ isSteppingToView (ui w') = false
    /\ isComplete (ui w') = false.
Proof.
  apply (stepToView_runaway (toy_extractVariableNames [])
           toy_updateStepModeVariables (ui loopWorld) loopWorld 0 loopToy);
    try reflexivity.
  exists (fun j => j = loopToy). split; [reflexivity|].
  intros j ->. repeat split.
Qed.

(** ** Notifications *)

Section NotificationFacts.
Context {I : Type} `{JSInterpreter I}.
Variable extractVariableNames : list N -> result (list string).
Variable updateStepModeVariables :
  gmap string jsvalue -> list (string * string) -> result unit.









Local Opaque maxSteps.






End NotificationFacts.



(** ** Initialisation and refresh *)

Lemma trimStart_nil (s : list N) :
  trimStart s = [] <-> forallb isWhiteSpace s = true.
Proof.
  induction s as [|c rest IH]; simpl; [tauto|].
  destruct (isWhiteSpace c); simpl; [exact IH|].
  split; discriminate.
Qed.

Lemma forallb_rev {A} (p : A -> bool) (l : list A) :
  forallb p (rev l) = forallb p l.
Proof.
  induction l as [|x l IH]; [reflexivity|].
  simpl. rewrite forallb_app, IH. simpl.
  rewrite andb_true_r. apply andb_comm.
Qed.

(** The trimmed text is empty exactly when the text is empty or made of
    white space only. *)
Lemma is_empty_trim (s : list N) :
  is_empty (trim s) = forallb isWhiteSpace s.
Proof.
  unfold trim. destruct (forallb isWhiteSpace s) eqn:Hall.
  - apply trimStart_nil in Hall. rewrite Hall. reflexivity.
  - destruct (trimStart s) as [|c rest] eqn:Hs.
    { apply trimStart_nil in Hs. congruence. }
    assert (Hc : forallb isWhiteSpace (trimStart s) = false).
    { clear Hs. induction s as [|d s IH]; [discriminate|].
      simpl in *. destruct (isWhiteSpace d) eqn:Hd; simpl in *.
      - apply IH. exact Hall.
      - rewrite Hd. reflexivity. }
    rewrite Hs in Hc.
    destruct (trimStart (rev (c :: rest))) as [|d rest'] eqn:Hr.
    + apply trimStart_nil in Hr. rewrite forallb_rev in Hr. congruence.
    + simpl. destruct (rev rest'); reflexivity.
Qed.

Section RefreshFacts.
Context {I : Type} `{JSInterpreter I}.
Variable windowInterpreter :
  option (list N -> (I -> jsvalue -> result I) -> result I).
Variable extractVariableNames : list N -> result (list string).
Variable updateStepModeVariables :
  gmap string jsvalue -> list (string * string) -> result unit.
Variable JSON_stringify : list (string * jsvalue) -> string.

(** What [initializeInterpreter] does, case by case. *)
Lemma initializeInterpreter_run (currentCode : list N)
    (environment : option IEnvironment) (w : World I) :
  exists o w',
    initializeInterpreter windowInterpreter JSON_stringify currentCode
      environment (fun msg => setError (Some msg)) w = (Ok o, w')
    /\ (o = None <->
        cannot_initialize windowInterpreter JSON_stringify currentCode
          environment)
    /\ (o = None -> exists msg, w' = with_ui (with_error (Some msg)) w)
    /\ (forall InterpreterClass err,
          windowInterpreter = Some InterpreterClass ->
          forallb isWhiteSpace currentCode = false ->
          InterpreterClass currentCode
            (initFunc JSON_stringify environment) = Throw err ->
          error (ui w') = Some ("Code error: " +:+ exnMessage err))
    /\ (forall interp, o = Some interp ->
          (exists i, heap w' !! interp = Some i) /\ ui w' = ui w).
Proof.
  unfold initializeInterpreter, cannot_initialize.
  destruct windowInterpreter as [InterpreterClass|].
  2:{ eexists None, _. split; [reflexivity|].
      split; [split; auto|]. split; [simpl; eauto|].
      split; [discriminate|discriminate]. }
  rewrite is_empty_trim.
  destruct (forallb isWhiteSpace currentCode) eqn:Hws.
  { eexists None, _. split; [reflexivity|].
    split; [split; auto|]. split; [simpl; eauto|].
    split; [discriminate|discriminate]. }
  destruct (InterpreterClass currentCode
              (initFunc JSON_stringify environment)) as [i|err] eqn:Hnew.
  - eexists (Some (length (heap w))), _. split; [reflexivity|].
    split.
    { split; [discriminate|].
      intros [Habs|[Habs|(cls & e & [= <-] & Habs)]];
        try discriminate Habs. congruence. }
    split; [discriminate|]. split.
    { intros cls e [= <-] _ Habs. congruence. }
    intros interp [= <-]. split; [|reflexivity].
    exists i. simpl. apply list_lookup_middle. reflexivity.
  - eexists None, _. split; [reflexivity|].
    split; [split; eauto 6|]. split; [simpl; eauto|].
    split; [|discriminate].
    intros cls e [= <-] _ Hthrow. rewrite Hnew in Hthrow.
    injection Hthrow as <-. reflexivity.
Qed.

(** The opening of [refresh]: the six resets, the timer and the
    editor. *)
Lemma refresh_reset_run (w : World I) :
  exists w1,
    (setInterpreter None ;;
     setHistory (fun _ => []) ;;
     setIsComplete false ;;
     setError None ;;
     setIsRunning false ;;
     setIsSteppingToView false ;;
     clearAutoPlay ;;
     (fun w => if codeMirrorView w then emit EvDispatch w
               else (Ok tt, w)))%handler w = (Ok tt, w1)
    /\ ui w1
       = mkModal false false None (autoPlaySpeed (ui w)) None
           (code (ui w)) [] false (environment (ui w))
    /\ heap w1 = heap w
    /\ autoPlayIntervalRef w1 = None
    /\ (forall h, autoPlayIntervalRef w = Some h ->
          h ∉ (fst <$> intervals w1))
    /\ (forall p, p ∈ intervals w1 -> p ∈ intervals w).
Proof.
  unfold bind at 1. cbn [setInterpreter modify].
  unfold bind at 1. cbn [setHistory modify].
  unfold bind at 1. cbn [setIsComplete modify].
  unfold bind at 1. cbn [setError modify].
  unfold bind at 1. cbn [setIsRunning modify].
  unfold bind at 1. cbn [setIsSteppingToView modify].
  match goal with |- context [clearAutoPlay] =>
    match goal with |- context [bind _ _ ?wx] =>
      destruct (clearAutoPlay_run wx)
        as (w1 & Hrun & Hui & Hheap & Href & _ & Hint & Hsub & _)
    end end.
  rewrite (bind_run _ _ _ _ _ Hrun).
  destruct (codeMirrorView w1).
  - eexists. split; [reflexivity|]. simpl.
    rewrite Hui, Hheap, Href. repeat split; [exact Hint | exact Hsub].
  - exists w1. split; [reflexivity|].
    rewrite Hui, Hheap, Href. repeat split; [exact Hint | exact Hsub].
Qed.

(** C10.  When [refresh] finds the program text empty or white space
    only, or the interpreter cannot be constructed (the library is not
    loaded or the constructor throws), it leaves the session with no
    interpreter, an empty history, the running, complete and
    stepping-to-view flags cleared, no auto-play timer (the handle is
    forgotten, the timer it named is no longer registered, and no timer
    is left at all when every registered timer was the one the handle
    named) and an error message set. *)
Theorem refresh_failure_resets (r : ModalState) (w : World I) :
  cannot_initialize windowInterpreter JSON_stringify (code r)
    (environment r) ->
  exists w',
    refresh windowInterpreter extractVariableNames
      updateStepModeVariables JSON_stringify r w = (Ok tt, w')
    /\ interpreter (ui w') = None
    /\ history (ui w') = []
    /\ isRunning (ui w') = false
    /\ isComplete (ui w') = false
    /\ isSteppingToView (ui w') = false
    /\ autoPlayIntervalRef w' = None
    /\ (forall h, autoPlayIntervalRef w = Some h ->
          h ∉ (fst <$> intervals w'))
    /\ ((forall p, p ∈ intervals w ->
           autoPlayIntervalRef w = Some (fst p)) ->
        intervals w' = [])
    /\ exists msg, error (ui w') = Some msg.
Proof.
  intros Hfail.
  destruct (refresh_reset_run w)
    as (w1 & Hrun & Hui & Hheap & Href & Hint & Hsub).
  (* a failed refresh ends in the reset world with an error message *)
  assert (Hend : exists msg,
    refresh windowInterpreter extractVariableNames
      updateStepModeVariables JSON_stringify r w
    = (Ok tt, with_ui (with_error (Some msg)) w1)).
  { unfold refresh.
    assert (Hopen : forall (k : M unit),
      (setInterpreter None ;; setHistory (fun _ => []) ;;
       setIsComplete false ;; setError None ;; setIsRunning false ;;
       setIsSteppingToView false ;; clearAutoPlay ;;
       (fun w => if codeMirrorView w then emit EvDispatch w
                 else (Ok tt, w)) ;; k)%handler w = k w1).
    { intros k. revert Hrun. unfold bind. cbn [setInterpreter setHistory
        setIsComplete setError setIsRunning setIsSteppingToView modify].
      destruct (clearAutoPlay _) as [[[]|e] w2]; [|discriminate].
      destruct (codeMirrorView w2); simpl; intros [= <-]; reflexivity. }
    rewrite Hopen. clear Hopen Hrun.
    destruct (is_empty (trim (code r))) eqn:Hempty.
    - eexists. reflexivity.
    - destruct (initializeInterpreter_run (code r) (environment r) w1)
        as (o & w2 & Hinit & Hiff & Hnone & _ & _).
      rewrite (bind_run _ _ _ _ _ Hinit).
      assert (o = None) as -> by (apply Hiff; exact Hfail).
      destruct (Hnone eq_refl) as (msg & ->).
      exists msg. reflexivity. }
  destruct Hend as (msg & Hend).
  eexists. split; [exact Hend|]. simpl. rewrite Hui, Href. simpl.
  repeat split; eauto.
  intros Htracked.
  destruct (intervals w1) as [|p rest] eqn:Hrest; [reflexivity|].
  exfalso.
  assert (Hp : p ∈ p :: rest) by left.
  apply (Hint (fst p)).
  - apply Htracked, Hsub, Hp.
  - apply list_elem_of_fmap. exists p. auto.
Qed.

End RefreshFacts.

Lemma refresh_failure_resets_witness :
  exists w',
    refresh (Some (toyInterpreterClass letViewToy))
      (toy_extractVariableNames ["x"]) toy_updateStepModeVariables
      toy_JSON_stringify (ui blankedWorld) blankedWorld = (Ok tt, w')
    /\ interpreter (ui w') = None
    /\ history (ui w') = []
    /\ isRunning (ui w') = false
    /\ isComplete (ui w') = false
    /\ isSteppingToView (ui w') = false
    /\ autoPlayIntervalRef w' = None
    /\ (forall h, autoPlayIntervalRef blankedWorld = Some h ->
          h ∉ (fst <$> intervals w'))
    /\ ((forall p, p ∈ intervals blankedWorld ->
           autoPlayIntervalRef blankedWorld = Some (fst p)) ->
        intervals w' = [])
    /\ exists msg, error (ui w') = Some msg.
Proof.
  apply (refresh_failure_resets (Some (toyInterpreterClass letViewToy))
           (toy_extractVariableNames ["x"]) toy_updateStepModeVariables
           toy_JSON_stringify (ui blankedWorld) blankedWorld).
  right. left. reflexivity.
Defined.

(** ** Step indices *)

Section StepIndexFacts.
Context {I : Type} `{JSInterpreter I}.
Variable extractVariableNames : list N -> result (list string).
Variable updateStepModeVariables :
  gmap string jsvalue -> list (string * string) -> result unit.

(** A single [stepForward] called from the current render numbers its
    snapshot with the length of the history. *)
Lemma stepForward_click_index (w : World I) (interp : nat) (i : I)
    (c : bool) :
  interpreter (ui w) = Some interp -> isComplete (ui w) = false ->
  heap w !! interp = Some i -> fst (step i) = Ok c ->
  exists w' st,
    click (stepForward extractVariableNames updateStepModeVariables) w
    = (Ok tt, w')
    /\ history (ui w') = history (ui w) ++ [st]
    /\ dstep st = Z.of_nat (length (history (ui w))).
Proof.
  intros Hint Hcomp Hi Hc. unfold click.
  destruct (stepForward_success extractVariableNames
              updateStepModeVariables (ui w) w interp i c
              Hint Hcomp Hi Hc) as (w' & Hrun & Hh & _).
  eexists w', _. split; [exact Hrun|]. split; [exact Hh|].
  apply getCurrentState_dstep.
Qed.

End StepIndexFacts.

(** C5 fails on the code.  After [refresh] on
    [let x = 1; view([["x","X"]]);] the history holds snapshot 0.  One
    invocation of [stepToView] then appends two snapshots, and both carry
    step index 1: the loop numbers each snapshot with [history.length] of
    the render the handler closed over, which does not change while the
    handler runs.  The same happens with auto-play, whose interval keeps
    calling the [stepForward] of the render that started it. *)
Theorem stepToView_repeats_step_index :
  dstep <$> history (ui letViewReady) = [0]
  /\ dstep <$> history (ui (snd (click (stepToView
                                          (toy_extractVariableNames ["x"])
                                          toy_updateStepModeVariables)
                                   letViewReady)))
     = [0; 1; 1]
  /\ dstep <$> history
                (ui (snd (tick (toy_extractVariableNames ["x"])
                            toy_updateStepModeVariables 1%positive
                            (snd (tick (toy_extractVariableNames ["x"])
                                    toy_updateStepModeVariables 1%positive
                                    (snd (click
                                            (toggleAutoPlay (I := Toy))
                                            letViewReady)))))))
     = [0; 1; 1].
Proof.
  split; [|split]; vm_compute; reflexivity.
Qed.

(** * Further properties of the debugger core *)

(** ** The scope resolver: misses and the cost of a search *)

Section ResolverMore.
Context {I : Type} `{JSInterpreter I}.
Implicit Types (interp : I) (stack : list StackFrame) (varName : string).

Lemma findVariableInStack_loop_unfound interp stack varName :
  forall n : nat,
    found (fst (findVariableInStack_loop interp stack varName n)) = false ->
    forall j state, (j < n)%nat -> stack !! j = Some state ->
      resolved_in interp state varName = None.
Proof.
  induction n as [|n IH]; intros Hf j state Hj Hlook; [lia|].
  simpl in Hf. destruct (stack !! n) as [top|] eqn:Htop.
  - rewrite tbind_fst, findVariableInFrame_result in Hf.
    destruct (resolved_in interp top varName) as [nv|] eqn:Hres;
      simpl in Hf; [discriminate|].
    destruct (decide (j = n)) as [->|Hne].
    + congruence.
    + apply (IH Hf j state); [lia | exact Hlook].
  - destruct (decide (j = n)) as [->|Hne]; [congruence|].
    apply (IH Hf j state); [lia | exact Hlook].
Qed.

Lemma findVariableInFrame_trace_length interp state varName i n :
  (length (snd (findVariableInFrame interp state varName i n)) <= 1)%nat.
Proof.
  unfold findVariableInFrame.
  destruct (scope state) as [sc|]; simpl; [|lia].
  destruct (truthy (object sc)); simpl; lia.
Qed.

(** The loop started below [n] asks for at most [n] properties, and for
    at most [n - i] when frame [i] resolves the name. *)
Lemma findVariableInStack_loop_cost interp stack varName :
  forall n : nat,
    (length (snd (findVariableInStack_loop interp stack varName n)) <= n)%nat
    /\ forall i state nv,
         (i < n)%nat -> stack !! i = Some state ->
         resolved_in interp state varName = Some nv ->
         (length (snd (findVariableInStack_loop interp stack varName n))
          <= n - i)%nat.
Proof.
  induction n as [|n [IHa IHb]]; [split; [simpl; lia | intros; lia]|].
  simpl. destruct (stack !! n) as [top|] eqn:Htop.
  - rewrite tbind_snd, length_app. cbv beta.
    rewrite findVariableInFrame_result.
    pose proof (findVariableInFrame_trace_length interp top varName
                  (Z.of_nat n) (Z.of_nat (length stack))) as Hone.
    destruct (resolved_in interp top varName) as [tv|] eqn:Hres; simpl.
    + split; [lia|]. intros i state nv Hi _ _. lia.
    + split; [lia|]. intros i state nv Hi Hlook Hr.
      destruct (decide (i = n)) as [->|Hne]; [congruence|].
      pose proof (IHb i state nv ltac:(lia) Hlook Hr). lia.
  - split; [lia|]. intros i state nv Hi Hlook Hr.
    destruct (decide (i = n)) as [->|Hne]; [congruence|].
    pose proof (IHb i state nv ltac:(lia) Hlook Hr). lia.
Qed.

End ResolverMore.

(** X1.  [findVariableInStack] reports a name not found exactly when no
    frame of the stack resolves it, and then its answer carries the value
    [undefined] and the empty label: a miss is an ordinary result, not an
    error. *)
Theorem findVariableInStack_miss
    {I : Type} `{JSInterpreter I} (interp : I) (stack : list StackFrame)
    (varName : string) :
  (found (fst (findVariableInStack interp stack varName)) = false
   <-> forall i state, stack !! i = Some state ->
         resolved_in interp state varName = None)
  /\ (found (fst (findVariableInStack interp stack varName)) = false ->
      fst (findVariableInStack interp stack varName)
      = mkFind false VUndefined "").
Proof.
  assert (Hmiss : (forall i state, stack !! i = Some state ->
                     resolved_in interp state varName = None) ->
                  fst (findVariableInStack interp stack varName)
                  = mkFind false VUndefined "").
  { intros Hnone. apply findVariableInStack_loop_miss.
    intros j state _ Hlook. apply (Hnone j state Hlook). }
  assert (Hunf : found (fst (findVariableInStack interp stack varName))
                 = false ->
                 forall i state, stack !! i = Some state ->
                   resolved_in interp state varName = None).
  { intros Hf i state Hlook.
    apply (findVariableInStack_loop_unfound interp stack varName
             (length stack) Hf i state); [|exact Hlook].
    eapply lookup_lt_Some. exact Hlook. }
  split; [split|].
  - exact Hunf.
  - intros Hnone. rewrite (Hmiss Hnone). reflexivity.
  - intros Hf. apply Hmiss, Hunf, Hf.
Qed.

(** X2.  A search asks the interpreter for at most one property per
    frame, and it stops at the frame that resolves the name: when frame
    [i] resolves it, at most [length stack - i] properties are asked for,
    so the frames below [i] are never consulted. *)
Theorem findVariableInStack_cost
    {I : Type} `{JSInterpreter I} (interp : I) (stack : list StackFrame)
    (varName : string) :
  lookups_only (snd (findVariableInStack interp stack varName))
  /\ (length (snd (findVariableInStack interp stack varName))
      <= length stack)%nat
  /\ forall i state nv,
       stack !! i = Some state ->
       resolved_in interp state varName = Some nv ->
       (length (snd (findVariableInStack interp stack varName))
        <= length stack - i)%nat.
Proof.
  destruct (findVariableInStack_loop_cost interp stack varName
              (length stack)) as [Ha Hb].
  split; [apply findVariableInStack_loop_lookups|]. split; [exact Ha|].
  intros i state nv Hlook Hres.
  apply (Hb i state nv); [|exact Hlook|exact Hres].
  eapply lookup_lt_Some. exact Hlook.
Qed.

Lemma findVariableInStack_cost_witness :
  (length (snd (findVariableInStack shadowToy shadowStack "x")) <= 1)%nat.
Proof.
  apply (proj2 (proj2 (findVariableInStack_cost shadowToy shadowStack "x"))
           1%nat (frameAt (plainNode "BlockStatement" 20 40) (scopeObj 1))
           (VNum 2)); reflexivity.
Defined.

(** ** The variable collector: what ends up in the mapping *)

Section CollectorMore.
Context {I : Type} `{JSInterpreter I}.

(** The entry the loop leaves under [k], from the entry it started with
    and the names it went through. *)
Lemma collectVariables_loop_lookup (interp : I) (stack : list StackFrame) :
  forall (varNames : list string) (acc : gmap string jsvalue) (k : string),
    fst (collectVariables_loop interp stack varNames acc) !! k
    = match acc !! k with
      | Some v => Some v
      | None =>
          if decide (k ∈ varNames) then
            if bool_decide (k ∈ objectPrototypeKeys) then None
            else
              let r := fst (findVariableInStack interp stack k) in
              if found r && is_defined (res_value r)
              then Some (res_value r) else None
          else None
      end.
Proof.
  induction varNames as [|a rest IH]; intros acc k.
  - simpl. destruct (acc !! k); [reflexivity|].
    destruct (decide (k ∈ [])) as [Hin|_]; [|reflexivity].
    apply elem_of_nil in Hin. contradiction.
  - simpl. rewrite tbind_fst, IH. clear IH.
    set (r := fst (findVariableInStack interp stack a)).
    destruct (decide (k = a)) as [->|Hne].
    + unfold js_in.
      destruct (acc !! a) as [v|] eqn:Hacc.
      * rewrite andb_false_r, Hacc. reflexivity.
      * destruct (decide (a ∈ a :: rest)) as [_|Hnot];
          [|exfalso; apply Hnot; left].
        fold r.
        destruct (bool_decide (a ∈ objectPrototypeKeys)) eqn:Hproto.
        { rewrite andb_false_r, Hacc.
          destruct (decide (a ∈ rest)); reflexivity. }
        rewrite andb_true_r.
        destruct (found r && is_defined (res_value r)) eqn:Hcond.
        { rewrite lookup_insert_eq. reflexivity. }
        rewrite Hacc. destruct (decide (a ∈ rest)); reflexivity.
    + assert (Hsame : (if found r && is_defined (res_value r)
                          && negb (js_in a acc)
                       then <[a := res_value r]> acc else acc) !! k
                      = acc !! k).
      { destruct (_ && _); [|reflexivity].
        apply lookup_insert_ne. congruence. }
      rewrite Hsame. destruct (acc !! k); [reflexivity|].
      destruct (decide (k ∈ rest)) as [Hin|Hnin];
        destruct (decide (k ∈ a :: rest)) as [Hin'|Hnin'];
        try reflexivity.
      * exfalso. apply Hnin'. right. exact Hin.
      * exfalso. apply elem_of_cons in Hin' as [?|?]; contradiction.
Qed.

Lemma findVariableInFrame_names (interp : I) state varName i n :
  Forall (fun e => exists obj, e = EvGetProperty obj varName)
    (snd (findVariableInFrame interp state varName i n)).
Proof.
  unfold findVariableInFrame.
  destruct (scope state) as [sc|]; [|constructor].
  destruct (truthy (object sc)); simpl; [|constructor].
  repeat constructor. eauto.
Qed.

Lemma findVariableInStack_loop_names (interp : I) stack varName n :
  Forall (fun e => exists obj, e = EvGetProperty obj varName)
    (snd (findVariableInStack_loop interp stack varName n)).
Proof.
  induction n as [|n IH]; simpl; [constructor|].
  destruct (stack !! n) as [state|]; [|exact IH].
  rewrite tbind_snd. apply Forall_app. split.
  - apply findVariableInFrame_names.
  - destruct (found _); [constructor | exact IH].
Qed.

Lemma collectVariables_loop_trace (interp : I) stack :
  forall varNames acc,
    Forall (fun e => exists obj k, e = EvGetProperty obj k /\ k ∈ varNames)
      (snd (collectVariables_loop interp stack varNames acc))
    /\ (length (snd (collectVariables_loop interp stack varNames acc))
        <= length varNames * length stack)%nat.
Proof.
  induction varNames as [|a rest IH]; intros acc; simpl;
    [split; [constructor | lia]|].
  rewrite tbind_snd, length_app.
  match goal with |- context [collectVariables_loop _ _ rest ?acc'] =>
    destruct (IH acc') as [Hall Hlen] end.
  split.
  - apply Forall_app. split.
    + eapply Forall_impl;
        [apply (findVariableInStack_loop_names interp stack a)|].
      intros e [obj ->]. exists obj, a. split; [reflexivity | left].
    + eapply Forall_impl; [exact Hall|].
      intros e (obj & k & -> & Hin). exists obj, k.
      split; [reflexivity | right; exact Hin].
  - pose proof (proj1 (findVariableInStack_loop_cost interp stack a
                         (length stack))) as Hone.
    apply Nat.add_le_mono; [exact Hone | exact Hlen].
Qed.

End CollectorMore.

(** X3.  The mapping [collectVariablesFromStack] returns holds [v] under
    [k] exactly when [k] is one of the requested names, [k] is not the
    name of a member every object inherits ([constructor], [toString],
    [valueOf], ...: the test [varName in variables] is true for those on
    the empty object literal), and the scope resolver finds [k] with the
    defined value [v].  Asking for a name twice changes nothing. *)
Theorem collectVariablesFromStack_lookup
    {I : Type} `{JSInterpreter I} (interp : I) (stack : list StackFrame)
    (varNames : list string) (k : string) (v : jsvalue) :
  fst (collectVariablesFromStack interp stack varNames) !! k = Some v
  <-> (k ∈ varNames)
      /\ (k ∉ objectPrototypeKeys)
      /\ found (fst (findVariableInStack interp stack k)) = true
      /\ res_value (fst (findVariableInStack interp stack k)) = v
      /\ is_defined v = true.
Proof.
  assert (Hloop :
    fst (collectVariables_loop interp stack varNames ∅) !! k = Some v
    <-> (k ∈ varNames)
        /\ (k ∉ objectPrototypeKeys)
        /\ found (fst (findVariableInStack interp stack k)) = true
        /\ res_value (fst (findVariableInStack interp stack k)) = v
        /\ is_defined v = true).
  { rewrite collectVariables_loop_lookup, lookup_empty.
    destruct (decide (k ∈ varNames)) as [Hin|Hnin].
    2:{ split; [discriminate | intros [? _]; contradiction]. }
    destruct (bool_decide (k ∈ objectPrototypeKeys)) eqn:Hproto.
    { apply bool_decide_eq_true in Hproto.
      split; [discriminate | intros (_ & ? & _); contradiction]. }
    apply bool_decide_eq_false in Hproto. cbv zeta.
    destruct (found (fst (findVariableInStack interp stack k))) eqn:Hf;
      simpl.
    2:{ split; [discriminate | intros (_ & _ & ? & _); discriminate]. }
    destruct (is_defined
                (res_value (fst (findVariableInStack interp stack k))))
      eqn:Hd.
    - split.
      + intros [= <-]. auto.
      + intros (_ & _ & _ & <- & _). reflexivity.
    - split; [discriminate|].
      intros (_ & _ & _ & <- & Hd'). congruence. }
  unfold collectVariablesFromStack.
  destruct (length stack =? 0)%nat eqn:Hs; simpl.
  - apply Nat.eqb_eq in Hs. destruct stack; [|discriminate].
    unfold tret. simpl fst. rewrite lookup_empty.
    split; [discriminate | intros (_ & _ & Hf & _); discriminate Hf].
  - destruct (length varNames =? 0)%nat eqn:Hn; [|exact Hloop].
    apply Nat.eqb_eq in Hn. destruct varNames; [|discriminate].
    unfold tret. simpl fst. rewrite lookup_empty.
    split; [discriminate|]. intros (Hin & _).
    apply elem_of_nil in Hin. contradiction.
Qed.

(** X4.  While it collects, [collectVariablesFromStack] only reads
    properties, and only properties named by a requested name; it asks
    for at most one property per requested name and frame. *)
Theorem collectVariablesFromStack_trace
    {I : Type} `{JSInterpreter I} (interp : I) (stack : list StackFrame)
    (varNames : list string) :
  Forall (fun e => exists obj k, e = EvGetProperty obj k /\ k ∈ varNames)
    (snd (collectVariablesFromStack interp stack varNames))
  /\ (length (snd (collectVariablesFromStack interp stack varNames))
      <= length varNames * length stack)%nat.
Proof.
  unfold collectVariablesFromStack.
  destruct (_ || _); [split; [constructor | apply Nat.le_0_l]|].
  apply collectVariables_loop_trace.
Qed.

(** ** Snapshots: edge cases of [getCurrentState] *)

Section SnapshotMore.
Context {I : Type} `{JSInterpreter I}.
Variable extractVariableNames : list N -> result (list string).
Variable updateStepModeVariables :
  gmap string jsvalue -> list (string * string) -> result unit.

Lemma getCurrentState_fields code now (interp : I) k :
  let st := fst (getCurrentState extractVariableNames
                   updateStepModeVariables code now interp k) in
  dstep st = k
  /\ timestamp st = now
  /\ highlight st
     = match top_node (getStateStack interp) with
       | Some n => (start n, end_ n)
       | None => (0, 0)
       end
  /\ stackTrace st = imap frameLine (getStateStack interp)
  /\ variables st
     = fst (debugVariables extractVariableNames code interp
              (getStateStack interp) (top_node (getStateStack interp))).
Proof.
  unfold getCurrentState. rewrite !tbind_fst. simpl. repeat split.
Qed.

Lemma collectVariablesFromStack_keys (interp : I) stack varNames k v :
  fst (collectVariablesFromStack interp stack varNames) !! k = Some v ->
  k ∈ varNames
  /\ found (fst (findVariableInStack interp stack k)) = true
  /\ res_value (fst (findVariableInStack interp stack k)) = v
  /\ is_defined v = true.
Proof.
  unfold collectVariablesFromStack.
  destruct (_ || _); [unfold tret; simpl fst; rewrite lookup_empty;
                      discriminate|].
  rewrite collectVariables_loop_lookup, lookup_empty.
  destruct (decide (k ∈ varNames)) as [Hin|]; [|discriminate].
  destruct (bool_decide (k ∈ objectPrototypeKeys)); [discriminate|].
  cbv zeta.
  destruct (found (fst (findVariableInStack interp stack k))) eqn:Hf;
    [|discriminate].
  destruct (is_defined
              (res_value (fst (findVariableInStack interp stack k))))
    eqn:Hd; [|discriminate].
  simpl. intros [= <-]. auto.
Qed.

(** X5.  On an empty stack [getCurrentState] still returns a snapshot: it
    highlights the range (0, 0), has no stack trace lines and no
    breakpoint values, and asks the interpreter for nothing and notifies
    nobody; when the variable names can be extracted, it records the node
    type ["Unknown"] and the stack depth 0. *)
Theorem getCurrentState_empty_stack code now (interp : I) k :
  getStateStack interp = [] ->
  let st := getCurrentState extractVariableNames updateStepModeVariables
              code now interp k in
  snd st = []
  /\ dstep (fst st) = k
  /\ highlight (fst st) = (0, 0)
  /\ stackTrace (fst st) = []
  /\ viewVariables (fst st) = ∅
  /\ forall varNames,
       extractVariableNames code = Ok varNames ->
       variables (fst st) !! "Current Node Type" = Some (VStr "Unknown")
       /\ variables (fst st) !! "Stack Depth" = Some (VNum 0)
       /\ variables (fst st) !! "Node Info" = None.
Proof.
  intros Hstack st. subst st.
  assert (Hat : isAtView interp = false).
  { unfold isAtView. rewrite Hstack. reflexivity. }
  split; [|split; [|split; [|split; [|split]]]].
  - rewrite getCurrentState_trace, Hat, Hstack. simpl.
    unfold debugVariables.
    destruct (extractVariableNames code); reflexivity.
  - apply getCurrentState_dstep.
  - unfold getCurrentState. rewrite !tbind_fst, Hstack. reflexivity.
  - unfold getCurrentState. rewrite !tbind_fst, Hstack. reflexivity.
  - rewrite getCurrentState_viewVariables, Hat. reflexivity.
  - intros varNames Hnames.
    destruct (getCurrentState_fields code now interp k)
      as (_ & _ & _ & _ & ->).
    unfold debugVariables. rewrite Hnames, Hstack.
    rewrite tbind_fst. simpl.
    destruct (is_defined (interp_value interp)); repeat split;
      repeat (rewrite lookup_insert_ne by discriminate);
      try (rewrite lookup_insert_eq; reflexivity).
    all: unfold collectVariablesFromStack; simpl;
      repeat (rewrite lookup_insert_ne by discriminate);
      apply lookup_empty.
Qed.

(** X6.  When the extraction of the variable names throws,
    [getCurrentState] does not: the snapshot's variables hold the single
    entry ["[Error]"] with the text of the exception, no scope lookup is
    made for declared variables, and the step number, the highlighted
    range and the stack trace are those of the current position. *)
Theorem getCurrentState_extraction_error code now (interp : I) k err :
  extractVariableNames code = Throw err ->
  let st := getCurrentState extractVariableNames updateStepModeVariables
              code now interp k in
  variables (fst st)
  = {[ "[Error]" :=
         VStr ("Could not extract variables: " +:+ exnString err) ]}
  /\ dstep (fst st) = k
  /\ highlight (fst st)
     = match top_node (getStateStack interp) with
       | Some n => (start n, end_ n)
       | None => (0, 0)
       end
  /\ length (stackTrace (fst st)) = length (getStateStack interp)
  /\ snd st
     = snd (if isAtView interp
            then viewVariablesOf updateStepModeVariables interp
                   (getStateStack interp)
            else tret ∅).
Proof.
  intros Herr st. subst st.
  destruct (getCurrentState_fields code now interp k)
    as (Hd & _ & Hh & Hs & Hv).
  rewrite Hv, Hd, Hh, Hs, getCurrentState_trace.
  unfold debugVariables. rewrite Herr. simpl.
  repeat split. apply length_imap.
Qed.

(** X7.  The breakpoint values of a snapshot are empty when the position
    is not at a [view] call.  At a [view] call every entry other than the
    ["[View Error]"] marker belongs to a name declared by a pair of that
    call, and its value is the defined value the scope resolver finds for
    that name. *)
Theorem getCurrentState_viewVariables_sound code now (interp : I) k :
  let vv := viewVariables
              (fst (getCurrentState extractVariableNames
                      updateStepModeVariables code now interp k)) in
  (isAtView interp = false -> vv = ∅)
  /\ forall name v,
       vv !! name = Some v -> name <> "[View Error]" ->
       name ∈ (fst <$> viewPairs interp)
       /\ found (fst (findVariableInStack interp (getStateStack interp)
                        name)) = true
       /\ res_value (fst (findVariableInStack interp
                            (getStateStack interp) name)) = v
       /\ is_defined v = true.
Proof.
  intros vv. subst vv. rewrite getCurrentState_viewVariables.
  split; [intros ->; reflexivity|].
  intros name v Hlook Hne.
  destruct (isAtView interp);
    [|unfold tret in Hlook; simpl in Hlook; rewrite lookup_empty in Hlook;
      discriminate].
  revert Hlook. unfold viewVariablesOf, viewPairs, firstArgElements.
  destruct (top_node (getStateStack interp)) as [n|];
    [|unfold tret; simpl; rewrite lookup_empty; discriminate].
  destruct (bool_decide (name_of (callee n) = Some "view"));
    [|unfold tret; simpl; rewrite lookup_empty; discriminate].
  destruct (arguments n) as [[|firstArg rest]|];
    try (unfold tret; simpl; rewrite lookup_empty; discriminate).
  destruct (String.eqb (type firstArg) "ArrayExpression");
    [|unfold tret; simpl; rewrite lookup_empty; discriminate].
  destruct (elements firstArg) as [elems|];
    [|unfold tret; simpl; rewrite lookup_empty; discriminate].
  destruct (extractPairs elems []) as [[|p ps]|err].
  - unfold tret; simpl; rewrite lookup_empty; discriminate.
  - rewrite tbind_fst. cbv zeta. simpl fst.
    destruct (updateStepModeVariables _ _).
    + apply collectVariablesFromStack_keys.
    + rewrite lookup_insert_ne by congruence.
      apply collectVariablesFromStack_keys.
  - unfold tret. simpl. rewrite lookup_singleton_ne by congruence.
    discriminate.
Qed.

(** X16. The variables of the program pass through the snapshot: when
    the names can be extracted, every entry of [variables] under a key
    other than the seven the debugger writes itself is the entry the
    collector gave for that key, and the entries "Stack Depth" and
    "Declared Variables" hold the depth of the stack and the extracted
    names whatever the program defines. *)
Theorem getCurrentState_variables_pass_through code now (interp : I)
    stepNumber varNames :
  extractVariableNames code = Ok varNames ->
  let st := fst (getCurrentState extractVariableNames
                   updateStepModeVariables code now interp stepNumber) in
  (forall k, k ∉ debugKeys ->
     variables st !! k
     = fst (collectVariablesFromStack interp (getStateStack interp)
              varNames) !! k)
  /\ variables st !! "Stack Depth"
     = Some (VNum (Z.of_nat (length (getStateStack interp))))
  /\ variables st !! "Declared Variables"
     = Some (VArray (VStr <$> varNames)).
Proof.
  intros Hext st. subst st.
  destruct (getCurrentState_fields code now interp stepNumber)
    as (_ & _ & _ & _ & Hv).
  rewrite Hv. unfold debugVariables. rewrite Hext, tbind_fst.
  cbv zeta. unfold tret. cbn [fst].
  set (c := fst (collectVariablesFromStack interp (getStateStack interp)
                   varNames)).
  split; [|split].
  - intros k Hk. unfold debugKeys in Hk.
    repeat (apply not_elem_of_cons in Hk; destruct Hk as [? Hk]).
    repeat match goal with
           | |- context [match ?x with _ => _ end] => destruct x
           | |- context [if ?x then _ else _] => destruct x
           end;
      repeat (rewrite lookup_insert_ne by congruence); reflexivity.
  - repeat match goal with
           | |- context [match ?x with _ => _ end] => destruct x
           | |- context [if ?x then _ else _] => destruct x
           end;
      repeat (rewrite lookup_insert_ne by discriminate);
      apply lookup_insert_eq.
  - repeat match goal with
           | |- context [match ?x with _ => _ end] => destruct x
           | |- context [if ?x then _ else _] => destruct x
           end;
      repeat (rewrite lookup_insert_ne by discriminate);
      apply lookup_insert_eq.
Qed.

End SnapshotMore.

Lemma getCurrentState_empty_stack_witness :
  snd (getCurrentState (toy_extractVariableNames ["x"])
         toy_updateStepModeVariables [] 0 emptyToy 4) = []
  /\ highlight (fst (getCurrentState (toy_extractVariableNames ["x"])
                       toy_updateStepModeVariables [] 0 emptyToy 4))
     = (0, 0).
Proof.
  assert (Hstack : getStateStack emptyToy = []) by reflexivity.
  destruct (getCurrentState_empty_stack (toy_extractVariableNames ["x"])
              toy_updateStepModeVariables [] 0 emptyToy 4 Hstack)
    as (Htr & _ & Hh & _).
  split; [exact Htr | exact Hh].
Defined.

Lemma getCurrentState_extraction_error_witness :
  variables (fst (getCurrentState failing_extractVariableNames
                    toy_updateStepModeVariables [] 0 shadowToy 2))
  = {[ "[Error]" :=
         VStr "Could not extract variables: SyntaxError: Unexpected token (1:4)" ]}.
Proof.
  exact (proj1 (getCurrentState_extraction_error
                  failing_extractVariableNames toy_updateStepModeVariables
                  [] 0 shadowToy 2
                  (ErrorObj "SyntaxError" "Unexpected token (1:4)")
                  eq_refl)).
Defined.

(** ** Initialisation of the global scope *)

Section InitMore.
Context {I : Type} `{JSInterpreter I}.
Variable JSON_stringify : list (string * jsvalue) -> string.

Lemma initVariables_app (before rest : list (string * jsvalue))
    (interp : I) (globalObject : jsvalue) :
  initVariables (before ++ rest) interp globalObject
  = match initVariables before interp globalObject with
    | Ok i => initVariables rest i globalObject
    | Throw e => Throw e
    end.
Proof.
  revert interp. induction before as [|[key variable] before IH];
    intros interp; [reflexivity|].
  simpl.
  destruct (match nativeToPseudo interp variable with
            | Ok pseudoVariable =>
                match setProperty interp globalObject key pseudoVariable
                with
                | Ok interp' => Ok interp'
                | Throw _ => setProperty interp globalObject key variable
                end
            | Throw _ => setProperty interp globalObject key variable
            end) as [i|e]; [apply IH | reflexivity].
Qed.

(** One variable: the two attempts of the loop body fail exactly when
    the first attempt fails and the write of the raw value throws. *)
Lemma initVariables_one (key : string) (variable : jsvalue) (interp : I)
    (globalObject : jsvalue) (e : exn) :
  initVariables [(key, variable)] interp globalObject = Throw e
  <-> (forall pseudoVariable,
         nativeToPseudo interp variable = Ok pseudoVariable ->
         is_ok (setProperty interp globalObject key pseudoVariable)
         = false)
      /\ setProperty interp globalObject key variable = Throw e.
Proof.
  simpl. destruct (nativeToPseudo interp variable) as [pv|e0].
  - destruct (setProperty interp globalObject key pv) as [i1|e1] eqn:H1.
    + split; [discriminate|]. intros [Hno _].
      specialize (Hno pv eq_refl). rewrite H1 in Hno. discriminate.
    + destruct (setProperty interp globalObject key variable)
        as [i2|e2].
      * split; [discriminate | intros [_ ?]; discriminate].
      * split.
        -- intros [= <-]. split; [|reflexivity].
           intros pv' [= <-]. rewrite H1. reflexivity.
        -- intros [_ [= <-]]. reflexivity.
  - destruct (setProperty interp globalObject key variable) as [i2|e2].
    + split; [discriminate | intros [_ ?]; discriminate].
    + split.
      * intros [= <-]. split; [discriminate | reflexivity].
      * intros [_ [= <-]]. reflexivity.
Qed.

Lemma initVariables_throws (globalObject : jsvalue) (e : exn) :
  forall entries (interp : I),
    initVariables entries interp globalObject = Throw e
    <-> exists before key variable rest i,
          entries = before ++ (key, variable) :: rest
          /\ initVariables before interp globalObject = Ok i
          /\ (forall pseudoVariable,
                nativeToPseudo i variable = Ok pseudoVariable ->
                is_ok (setProperty i globalObject key pseudoVariable)
                = false)
          /\ setProperty i globalObject key variable = Throw e.
Proof.
  intros entries interp. split.
  - revert interp. induction entries as [|[key variable] rest IH];
      intros interp Hthrow; [discriminate|].
    change ((key, variable) :: rest) with ([(key, variable)] ++ rest)
      in Hthrow.
    rewrite initVariables_app in Hthrow.
    destruct (initVariables [(key, variable)] interp globalObject)
      as [i1|e1] eqn:Hone.
    + destruct (IH i1 Hthrow)
        as (before & k & v & rest' & i & -> & Hbefore & Hno & Hraw).
      exists ((key, variable) :: before), k, v, rest', i.
      split; [reflexivity|]. split; [|split; assumption].
      change ((key, variable) :: before)
        with ([(key, variable)] ++ before).
      rewrite initVariables_app, Hone. exact Hbefore.
    + injection Hthrow as ->.
      apply initVariables_one in Hone as [Hno Hraw].
      exists [], key, variable, rest, interp.
      split; [reflexivity|]. split; [reflexivity|].
      split; assumption.
  - intros (before & key & variable & rest & i & -> & Hbefore & Hno
            & Hraw).
    rewrite initVariables_app, Hbefore.
    change ((key, variable) :: rest) with ([(key, variable)] ++ rest).
    rewrite initVariables_app.
    rewrite (proj2 (initVariables_one key variable i globalObject e)
               (conj Hno Hraw)).
    reflexivity.
Qed.

(** [initFunc] throws exactly when the set-up fails. *)
Lemma initFunc_throws (environment : option IEnvironment) (interp : I)
    (globalObject : jsvalue) (e : exn) :
  initFunc JSON_stringify environment interp globalObject = Throw e
  <-> setup_fails JSON_stringify environment interp globalObject e.
Proof.
  unfold initFunc, setup_fails. cbv zeta.
  destruct (initVariables (envVariablesOf environment) interp
              globalObject) as [i|e0] eqn:Hvars.
  - split.
    + intros Hthrow. right. exists i. split; [reflexivity | exact Hthrow].
    + intros [Hleft|(i' & [= <-] & Hthrow)]; [|exact Hthrow].
      apply initVariables_throws in Hleft. rewrite Hvars in Hleft.
      discriminate.
  - split.
    + intros [= <-]. left. apply initVariables_throws. exact Hvars.
    + intros [Hleft|(i' & Habs & _)]; [|discriminate].
      apply initVariables_throws in Hleft. rewrite Hvars in Hleft.
      exact Hleft.
Qed.

(** When the writes under the keys of the entries do not throw, the loop
    binds every variable at its first attempt. *)
Lemma initVariables_bound (globalObject : jsvalue) :
  forall entries (interp : I),
    (forall i k v, k ∈ (fst <$> entries) ->
       exists i', setProperty i globalObject k v = Ok i') ->
    initVariables entries interp globalObject
    = Ok (bindVariables entries interp globalObject).
Proof.
  induction entries as [|[key variable] rest IH]; intros interp Hset;
    [reflexivity|].
  assert (Hkey : key ∈ (fst <$> (key, variable) :: rest))
    by (simpl; apply elem_of_cons; left; reflexivity).
  assert (Hrest : forall i k v, k ∈ (fst <$> rest) ->
            exists i', setProperty i globalObject k v = Ok i').
  { intros i k v Hk. apply Hset. simpl. apply elem_of_cons. right.
    exact Hk. }
  assert (Hfold : bindVariables ((key, variable) :: rest) interp
                    globalObject
                  = bindVariables rest
                      (written interp globalObject key
                         (bestEffortValue interp variable))
                      globalObject) by reflexivity.
  rewrite Hfold. unfold written, bestEffortValue. simpl.
  destruct (nativeToPseudo interp variable) as [pv|e].
  - destruct (Hset interp key pv Hkey) as [i2 H2]. rewrite H2.
    apply IH, Hrest.
  - destruct (Hset interp key variable Hkey) as [i1 H1]. rewrite H1.
    apply IH, Hrest.
Qed.

(** X8.  Setting up the environment is best effort.  As long as the
    writes on the global object under the keys of the environment and
    under [getVariablesJSON] do not throw, [initFunc] returns normally
    whatever the variables are, having written each variable once, in
    the order of the entries: its converted value when [nativeToPseudo]
    returns one, its raw value when [nativeToPseudo] throws; and
    [getVariablesJSON] last. *)
Theorem initFunc_best_effort (environment : option IEnvironment)
    (interp : I) (globalObject : jsvalue) :
  (forall i k v,
     k ∈ (fst <$> envVariablesOf environment) \/ k = "getVariablesJSON" ->
     exists i', setProperty i globalObject k v = Ok i') ->
  let bound :=
    bindVariables (envVariablesOf environment) interp globalObject in
  initFunc JSON_stringify environment interp globalObject
  = Ok (written bound globalObject "getVariablesJSON"
          (createNativeFunction bound
             (fun _ => VStr (JSON_stringify (envVariablesOf environment))))).
Proof.
  intros Hset bound. subst bound. unfold initFunc. cbv zeta.
  rewrite initVariables_bound by (intros i k v Hk; apply Hset; left;
                                  exact Hk).
  unfold written.
  match goal with |- context [setProperty ?i ?g ?k ?v] =>
    destruct (Hset i k v (or_intror eq_refl)) as [i' Hi']
  end.
  rewrite Hi'. reflexivity.
Qed.

(** C7, as amended.  [initializeInterpreter] returns no interpreter
    exactly when the library is not loaded, the program text is empty or
    white space only, the program does not parse or compile, or the
    program parses and the set-up of the environment that the
    constructor runs throws.  In each of these cases it reports an error
    and allocates nothing; when the parser throws the message is
    ["Code error: "] followed by the parser's message, and when the
    set-up throws it is ["Code error: "] followed by the message of the
    write that threw.  In every other case it returns a reference to the
    new interpreter object, set up, and reports no error. *)
Theorem initializeInterpreter_failure_cases
    (lib : option (list N -> result (I * jsvalue)))
    (currentCode : list N) (environment : option IEnvironment)
    (w : World I) :
  exists o w',
    initializeInterpreter (windowInterpreterOf lib) JSON_stringify
      currentCode environment (fun msg => setError (Some msg)) w
    = (Ok o, w')
    /\ (o = None <->
        fails_as_claimed lib currentCode
        \/ exists parse interp globalObject e,
             lib = Some parse
             /\ parse currentCode = Ok (interp, globalObject)
             /\ setup_fails JSON_stringify environment interp
                  globalObject e)
    /\ (o = None ->
        (exists msg, error (ui w') = Some msg) /\ heap w' = heap w)
    /\ (forall parse err,
          lib = Some parse ->
          forallb isWhiteSpace currentCode = false ->
          parse currentCode = Throw err ->
          error (ui w') = Some ("Code error: " +:+ exnMessage err))
    /\ (forall parse interp globalObject e,
          lib = Some parse ->
          forallb isWhiteSpace currentCode = false ->
          parse currentCode = Ok (interp, globalObject) ->
          setup_fails JSON_stringify environment interp globalObject e ->
          error (ui w') = Some ("Code error: " +:+ exnMessage e))
    /\ (forall ref, o = Some ref ->
          exists parse interp globalObject i,
            lib = Some parse
            /\ parse currentCode = Ok (interp, globalObject)
            /\ initFunc JSON_stringify environment interp globalObject
               = Ok i
            /\ heap w' !! ref = Some i
            /\ error (ui w') = error (ui w)).
Proof.
  unfold initializeInterpreter, windowInterpreterOf, fails_as_claimed.
  destruct lib as [parse|].
  2:{ eexists None, _. split; [reflexivity|].
      split; [split; auto|]. split; [simpl; eauto|].
      split; [discriminate|]. split; discriminate. }
  rewrite is_empty_trim.
  destruct (forallb isWhiteSpace currentCode) eqn:Hws.
  { eexists None, _. split; [reflexivity|].
    split; [split; auto|]. split; [simpl; eauto|].
    split; [discriminate|]. split; discriminate. }
  unfold libraryConstructor.
  destruct (parse currentCode) as [[interp globalObject]|err] eqn:Hparse.
  - destruct (initFunc JSON_stringify environment interp globalObject)
      as [i|e] eqn:Hinit.
    + eexists (Some (length (heap w))), _. split; [reflexivity|].
      split.
      { split; [discriminate|].
        intros [[Habs|[Habs|(p & e & [= <-] & Habs)]]
               |(p & i0 & g0 & e & [= <-] & Hp & Hfail)];
          try discriminate Habs.
        - rewrite Hparse in Habs. discriminate.
        - rewrite Hparse in Hp. injection Hp as <- <-.
          apply initFunc_throws in Hfail. rewrite Hinit in Hfail.
          discriminate. }
      split; [discriminate|]. split.
      { intros p e [= <-] _ Habs. rewrite Hparse in Habs. discriminate. }
      split.
      { intros p i0 g0 e [= <-] _ Hp Hfail.
        rewrite Hparse in Hp. injection Hp as <- <-.
        apply initFunc_throws in Hfail. rewrite Hinit in Hfail.
        discriminate. }
      intros ref [= <-]. exists parse, interp, globalObject, i.
      split; [reflexivity|]. split; [exact Hparse|].
      split; [exact Hinit|]. split; [|reflexivity].
      simpl. apply list_lookup_middle. reflexivity.
    + eexists None, _. split; [reflexivity|].
      split.
      { split; [|reflexivity]. intros _. right.
        exists parse, interp, globalObject, e.
        split; [reflexivity|]. split; [exact Hparse|].
        apply initFunc_throws. exact Hinit. }
      split; [simpl; eauto|]. split.
      { intros p e0 [= <-] _ Habs. rewrite Hparse in Habs.
        discriminate. }
      split; [|discriminate].
      intros p i0 g0 e0 [= <-] _ Hp Hfail.
      rewrite Hparse in Hp. injection Hp as <- <-.
      apply initFunc_throws in Hfail. rewrite Hinit in Hfail.
      injection Hfail as <-. reflexivity.
  - eexists None, _. split; [reflexivity|].
    split.
    { split; [|reflexivity]. intros _. left. right. right.
      exists parse, err. split; [reflexivity | exact Hparse]. }
    split; [simpl; eauto|]. split.
    { intros p e0 [= <-] _ Hthrow. rewrite Hparse in Hthrow.
      injection Hthrow as <-. reflexivity. }
    split; [|discriminate].
    intros p i0 g0 e0 [= <-] _ Hp. rewrite Hparse in Hp. discriminate.
Qed.

End InitMore.

Lemma initFunc_best_effort_witness :
  exists interp',
    initFunc toy_JSON_stringify
      (Some (mkEnv (Some [("m", VObject 9); ("v", VNum 3)])))
      (mkStrict pickyToy) (VObject 0) = Ok interp'
    /\ nativeToPseudo (mkStrict pickyToy) (VObject 9)
       = Throw (ErrorObj "RangeError" "Maximum call stack size exceeded")
    /\ getProperty interp' (VObject 0) "m" = Ok (VObject 9)
    /\ getProperty interp' (VObject 0) "v" = Ok (VNum 3).
Proof.
  eexists. split.
  - apply (initFunc_best_effort toy_JSON_stringify
             (Some (mkEnv (Some [("m", VObject 9); ("v", VNum 3)])))
             (mkStrict pickyToy) (VObject 0)).
    intros i k v Hk.
    assert (Hkey : k = "m" \/ k = "v" \/ k = "getVariablesJSON").
    { destruct Hk as [Hk| ->]; [|auto]. simpl in Hk.
      apply elem_of_cons in Hk as [-> |Hk]; [auto|].
      apply elem_of_cons in Hk as [-> |Hk]; [auto|].
      inversion Hk. }
    destruct Hkey as [-> | [-> | ->]]; eexists; reflexivity.
  - split; [reflexivity|]. split; reflexivity.
Defined.

(** C7 as stated fails: the text [x = 1;] parses, but with a variable
    named [NaN] in the environment the write of its value on the global
    object throws, the constructor throws, and no interpreter is
    returned.  The same text with no environment is initialised. *)
Lemma fails_exactly_counterexample :
  exists o w',
    initializeInterpreter
      (windowInterpreterOf (Some (strictParse pickyToy)))
      toy_JSON_stringify assignCode
      (Some (mkEnv (Some [("NaN", VNum 0)])))
      (fun msg => setError (Some msg)) strictWorld = (Ok o, w')
    /\ o = None
    /\ error (ui w')
       = Some "Code error: Cannot assign to read only property 'NaN'"
    /\ strictParse pickyToy assignCode = Ok (mkStrict pickyToy, VObject 0)
    /\ ~ fails_as_claimed (Some (strictParse pickyToy)) assignCode
    /\ ~ (o = None
          <-> fails_as_claimed (Some (strictParse pickyToy)) assignCode)
    /\ exists ref w'',
         initializeInterpreter
           (windowInterpreterOf (Some (strictParse pickyToy)))
           toy_JSON_stringify assignCode None
           (fun msg => setError (Some msg)) strictWorld
         = (Ok (Some ref), w'').
Proof.
  assert (Hno : ~ fails_as_claimed (Some (strictParse pickyToy))
                    assignCode).
  { intros [Habs|[Habs|(parse & err & [= <-] & Habs)]];
      discriminate Habs. }
  eexists None, _. split; [vm_compute; reflexivity|].
  split; [reflexivity|]. split; [reflexivity|]. split; [reflexivity|].
  split; [exact Hno|]. split.
  - intros [Hto _]. apply Hno, Hto. reflexivity.
  - eexists _, _. vm_compute. reflexivity.
Qed.

(** ** The handlers: outcomes of a step *)

Section HandlerMore.
Context {I : Type} `{JSInterpreter I}.
Variable windowInterpreter :
  option (list N -> (I -> jsvalue -> result I) -> result I).
Variable extractVariableNames : list N -> result (list string).
Variable updateStepModeVariables :
  gmap string jsvalue -> list (string * string) -> result unit.
Variable JSON_stringify : list (string * jsvalue) -> string.

Local Abbreviation forward :=
  (stepForward extractVariableNames updateStepModeVariables).
Local Abbreviation toView :=
  (stepToView extractVariableNames updateStepModeVariables).
Local Abbreviation snapshot :=
  (snapshot_after extractVariableNames updateStepModeVariables).
Local Abbreviation stepped :=
  (after_step extractVariableNames updateStepModeVariables).

Lemma stepForward_ok_run (r : ModalState) (w : World I)
    (interp : nat) (i : I) (c : bool) :
  interpreter r = Some interp -> isComplete r = false ->
  heap w !! interp = Some i -> fst (step i) = Ok c ->
  exists w',
    forward r w = (Ok tt, w')
    /\ heap w' = <[interp := snd (step i)]> (heap w)
    /\ error (ui w') = error (ui w)
    /\ interpreter (ui w') = interpreter (ui w)
    /\ code (ui w') = code (ui w)
    /\ environment (ui w') = environment (ui w)
    /\ next_handle w' = next_handle w
    /\ (c = true ->
        isComplete (ui w') = isComplete (ui w)
        /\ isRunning (ui w') = isRunning (ui w)
        /\ autoPlayIntervalRef w' = autoPlayIntervalRef w
        /\ intervals w' = intervals w
        /\ isSteppingToView (ui w')
           = if isSteppingToView r && isAtView (snd (step i)) then false
             else isSteppingToView (ui w))
    /\ (c = false ->
        isComplete (ui w') = true
        /\ isRunning (ui w') = false
        /\ isSteppingToView (ui w') = false
        /\ autoPlayIntervalRef w' = None
        /\ intervals w' = intervals_after_clear w).
Proof.
  intros Hint Hcomp Hi Hc. unfold stepForward. rewrite Hint, Hcomp.
  unfold try_catch. erewrite run_recorded_step by exact Hi. rewrite Hc.
  pose proof (after_step_heap extractVariableNames updateStepModeVariables
                r interp w i (Z.of_nat (length (history r))) Hi) as Hi1.
  unfold intervals_after_clear.
  destruct c; cbn [negb].
  - unfold bind at 1. cbn [ret].
    destruct (isSteppingToView r).
    + unfold bind, isAtViewM. rewrite Hi1.
      destruct (isAtView (snd (step i))); eexists;
        (split; [reflexivity|]); simpl;
        repeat split; intros; try discriminate; reflexivity.
    + eexists. split; [reflexivity|]. simpl.
      repeat split; intros; try discriminate; reflexivity.
  - assert (Hlt : (interp < length (heap w))%nat)
      by (eapply lookup_lt_Some; exact Hi).
    unfold bind, setIsComplete, setIsRunning, setIsSteppingToView, modify,
      clearAutoPlay, clearInterval, isAtViewM, ret.
    simpl.
    destruct (autoPlayIntervalRef w) as [h|] eqn:Href; simpl;
      destruct (isSteppingToView r); simpl;
      rewrite ?list_lookup_insert_eq by exact Hlt;
      try destruct (isAtView (snd (step i))); simpl;
      eexists; (split; [reflexivity|]); simpl; rewrite ?Href;
      repeat split; intros; try discriminate; reflexivity.
Qed.

(** The [catch] block of [stepForward], field by field. *)
Lemma stepForward_catch_full (e : exn) (w : World I) :
  exists w',
    (setError (Some ("Execution error: " +:+ exnString e)) ;;
     setIsRunning false ;;
     setIsSteppingToView false ;;
     clearAutoPlay)%handler w = (Ok tt, w')
    /\ error (ui w') = Some ("Execution error: " +:+ exnString e)
    /\ isRunning (ui w') = false
    /\ isSteppingToView (ui w') = false
    /\ isComplete (ui w') = isComplete (ui w)
    /\ history (ui w') = history (ui w)
    /\ interpreter (ui w') = interpreter (ui w)
    /\ code (ui w') = code (ui w)
    /\ environment (ui w') = environment (ui w)
    /\ heap w' = heap w
    /\ next_handle w' = next_handle w
    /\ nsteps w' = nsteps w
    /\ autoPlayIntervalRef w' = None
    /\ intervals w' = intervals_after_clear w.
Proof.
  unfold bind, setError, setIsRunning, setIsSteppingToView, modify,
    clearAutoPlay, clearInterval, intervals_after_clear.
  simpl. destruct (autoPlayIntervalRef w) as [h|] eqn:Href; simpl;
    eexists; (split; [reflexivity|]); simpl; rewrite ?Href;
    repeat split.
  unfold nsteps. simpl. rewrite count_events_app.
  unfold count_events. simpl. lia.
Qed.

Lemma stepForward_throw_run (r : ModalState) (w : World I)
    (interp : nat) (i : I) (e : exn) :
  interpreter r = Some interp -> isComplete r = false ->
  heap w !! interp = Some i -> fst (step i) = Throw e ->
  exists w',
    forward r w = (Ok tt, w')
    /\ error (ui w') = Some ("Execution error: " +:+ exnString e)
    /\ isRunning (ui w') = false
    /\ isSteppingToView (ui w') = false
    /\ isComplete (ui w') = isComplete (ui w)
    /\ history (ui w') = history (ui w)
    /\ interpreter (ui w') = interpreter (ui w)
    /\ code (ui w') = code (ui w)
    /\ environment (ui w') = environment (ui w)
    /\ heap w' = <[interp := snd (step i)]> (heap w)
    /\ next_handle w' = next_handle w
    /\ nsteps w' = nsteps w + 1
    /\ autoPlayIntervalRef w' = None
    /\ intervals w' = intervals_after_clear w.
Proof.
  intros Hint Hcomp Hi He. unfold stepForward. rewrite Hint, Hcomp.
  unfold try_catch. erewrite run_recorded_step by exact Hi. rewrite He.
  match goal with |- context [bind _ _ ?w1] =>
    destruct (stepForward_catch_full e w1)
      as (w' & Hrun & H1 & H2 & H3 & H4 & H5 & H6 & H7 & H8 & H9 & H10
          & H11 & H12 & H13)
  end.
  exists w'. split; [exact Hrun|].
  rewrite H1, H2, H3, H4, H5, H6, H7, H8, H9, H10, H11, H12, H13.
  repeat split. apply throwing_step_nsteps.
Qed.

Lemma stepForward_dangling_run (r : ModalState) (w : World I)
    (interp : nat) :
  interpreter r = Some interp -> isComplete r = false ->
  heap w !! interp = None ->
  exists w',
    forward r w = (Ok tt, w')
    /\ error (ui w') = Some ("Execution error: " +:+ exnString dangling)
    /\ isRunning (ui w') = false
    /\ isSteppingToView (ui w') = false
    /\ isComplete (ui w') = isComplete (ui w)
    /\ history (ui w') = history (ui w)
    /\ interpreter (ui w') = interpreter (ui w)
    /\ code (ui w') = code (ui w)
    /\ environment (ui w') = environment (ui w)
    /\ heap w' = heap w
    /\ next_handle w' = next_handle w
    /\ nsteps w' = nsteps w
    /\ autoPlayIntervalRef w' = None
    /\ intervals w' = intervals_after_clear w.
Proof.
  intros Hint Hcomp Hi. unfold stepForward. rewrite Hint, Hcomp.
  unfold try_catch, bind at 1, stepM. rewrite Hi.
  apply stepForward_catch_full.
Qed.

(** *** Frames *)

Lemma step_frame_refl (interp : nat) (w : World I) : step_frame interp w w.
Proof. repeat split. Qed.

Lemma step_frame_trans (interp : nat) (w1 w2 w3 : World I) :
  step_frame interp w1 w2 -> step_frame interp w2 w3 ->
  step_frame interp w1 w3.
Proof.
  intros (A1 & A2 & A3 & A4 & A5 & A6 & A7 & A8 & A9)
         (B1 & B2 & B3 & B4 & B5 & B6 & B7 & B8 & B9).
  repeat split; try congruence.
  intros j Hj. rewrite (B2 j Hj). apply A2. exact Hj.
Qed.

Lemma run_frame_refl (interp : nat) (b : bool) (w : World I) :
  run_frame interp b w w.
Proof.
  split; [apply step_frame_refl|]. exists [].
  rewrite app_nil_r. simpl. repeat split; lia.
Qed.

Lemma run_frame_trans (interp : nat) (b : bool) (w1 w2 w3 : World I) :
  run_frame interp true w1 w2 -> run_frame interp b w2 w3 ->
  run_frame interp b w1 w3.
Proof.
  intros [F1 (a1 & Hh1 & Hn1 & Hk1)] [F2 (a2 & Hh2 & Hn2 & Hk2)].
  specialize (Hk1 eq_refl).
  split; [eapply step_frame_trans; eassumption|].
  exists (a1 ++ a2). rewrite Hh2, Hh1, <- app_assoc, length_app.
  repeat split; try lia. intros Hb. specialize (Hk2 Hb). lia.
Qed.

(** A change of flags or of the error message is within the frame. *)
Lemma run_frame_ui (interp : nat) (b : bool) (w : World I)
    (f : ModalState -> ModalState) :
  (forall s, isRunning (f s) = isRunning s
             /\ interpreter (f s) = interpreter s
             /\ code (f s) = code s
             /\ environment (f s) = environment s
             /\ history (f s) = history s) ->
  run_frame interp b w (with_ui f w).
Proof.
  intros Hf. destruct (Hf (ui w)) as (H1 & H2 & H3 & H4 & H5).
  split; [repeat split; assumption|].
  exists []. simpl. rewrite app_nil_r, H5.
  change (nsteps (with_ui f w)) with (nsteps w).
  repeat split; lia.
Qed.

Lemma run_frame_after_step (r : ModalState) (interp : nat) (w : World I)
    (i : I) (n : Z) :
  heap w !! interp = Some i ->
  run_frame interp true w (stepped r interp w i n).
Proof.
  intros Hi. split.
  - repeat split; simpl.
    + apply length_insert.
    + intros j Hj. apply list_lookup_insert_ne. congruence.
  - exists [fst (snapshot r w i n)]. rewrite after_step_nsteps.
    simpl. repeat split; lia.
Qed.

Lemma run_frame_throwing_step (interp : nat) (w : World I) (i' : I) :
  run_frame interp false w
    (log [EvStep interp] (with_heap (<[interp := i']> (heap w)) w)).
Proof.
  split.
  - repeat split; simpl.
    + apply length_insert.
    + intros j Hj. apply list_lookup_insert_ne. congruence.
  - exists []. rewrite throwing_step_nsteps. simpl.
    rewrite app_nil_r. repeat split; try lia; discriminate.
Qed.

Lemma view_loop_post_step (r : ModalState) (interp : nat) (w w' : World I)
    (i : I) (n : Z) (res : result LoopEnd) :
  heap w !! interp = Some i ->
  view_loop_post interp (stepped r interp w i n) w' res ->
  view_loop_post interp w w' res.
Proof.
  intros Hi (Hframe & Herr & Hres). split; [|split].
  - eapply run_frame_trans; [apply run_frame_after_step|]; eassumption.
  - exact Herr.
  - exact Hres.
Qed.

Lemma view_loop_post_refl (interp : nat) (w : World I) (sc : Z) :
  view_loop_post interp w w (Ok (Fell sc)).
Proof.
  split; [apply run_frame_refl|]. repeat split.
Qed.

Lemma flag_setters_frame (b : bool) (e : option string) (s : ModalState) :
  (isRunning (with_isComplete b s) = isRunning s
   /\ interpreter (with_isComplete b s) = interpreter s
   /\ code (with_isComplete b s) = code s
   /\ environment (with_isComplete b s) = environment s
   /\ history (with_isComplete b s) = history s)
  /\ (isRunning (with_isSteppingToView b s) = isRunning s
      /\ interpreter (with_isSteppingToView b s) = interpreter s
      /\ code (with_isSteppingToView b s) = code s
      /\ environment (with_isSteppingToView b s) = environment s
      /\ history (with_isSteppingToView b s) = history s)
  /\ (isRunning (with_error e s) = isRunning s
      /\ interpreter (with_error e s) = interpreter s
      /\ code (with_error e s) = code s
      /\ environment (with_error e s) = environment s
      /\ history (with_error e s) = history s).
Proof. repeat split. Qed.

Lemma run_frame_complete (interp : nat) (w : World I) :
  run_frame interp true w
    (with_ui (with_isSteppingToView false)
       (with_ui (with_isComplete true) w)).
Proof.
  eapply run_frame_trans.
  - apply run_frame_ui. intros s.
    apply (proj1 (flag_setters_frame true None s)).
  - apply run_frame_ui. intros s.
    apply (proj1 (proj2 (flag_setters_frame false None s))).
Qed.

Local Opaque maxSteps.

Lemma stepPastViewLoop_frame (r : ModalState) (interp : nat) :
  forall (fuel : nat) (sc : Z) (b : bool) (w : World I),
    exists res w',
      stepPastViewLoop extractVariableNames updateStepModeVariables
        fuel r interp sc b w = (res, w')
      /\ view_loop_post interp w w' res
      /\ forall ex, res = Ok (Returned ex) ->
           ex = ExitCompletePast \/ ex = ExitUnreached.
Proof.
  induction fuel as [|fuel IH]; intros sc b w.
  - simpl. destruct (b && (sc <? maxSteps)).
    + eexists _, w. split; [reflexivity|]. split.
      * split; [apply run_frame_refl|]. repeat split.
      * intros ex [= <-]. auto.
    + eexists _, w. split; [reflexivity|].
      split; [apply view_loop_post_refl | discriminate].
  - rewrite stepPastViewLoop_S. destruct (b && (sc <? maxSteps)).
    2:{ eexists _, w. split; [reflexivity|].
        split; [apply view_loop_post_refl | discriminate]. }
    destruct (heap w !! interp) as [i|] eqn:Hi.
    2:{ exists (Throw dangling), w. split.
        - unfold bind at 1, stepM. rewrite Hi. reflexivity.
        - split; [|discriminate].
          split; [apply run_frame_refl|]. repeat split. }
    erewrite run_recorded_step by exact Hi.
    destruct (fst (step i)) as [c|e].
    + destruct c; cbn [negb].
      * unfold bind at 1, isAtViewM.
        rewrite (after_step_heap _ _ _ _ _ _ _ Hi).
        destruct (IH (sc + 1) (isAtView (snd (step i)))
                    (stepped r interp w i (Z.of_nat (length (history r)))))
          as (res & w' & Hrun & Hpost & Hex).
        exists res, w'. split; [exact Hrun|]. split; [|exact Hex].
        eapply view_loop_post_step; eassumption.
      * eexists _, _. split; [reflexivity|]. split.
        { eapply view_loop_post_step; [exact Hi|].
          split; [apply run_frame_complete|]. repeat split. }
        intros ex [= <-]. auto.
    + eexists _, _. split; [reflexivity|]. split; [|discriminate].
      split; [apply run_frame_throwing_step|]. repeat split.
Qed.

Lemma stepToNextViewLoop_frame (r : ModalState) (interp : nat) :
  forall (fuel : nat) (sc : Z) (w : World I),
    exists res w',
      stepToNextViewLoop extractVariableNames updateStepModeVariables
        fuel r interp sc false w = (res, w')
      /\ view_loop_post interp w w' res
      /\ forall ex, res = Ok (Returned ex) ->
           ex = ExitCompleteSeek \/ ex = ExitFoundView
           \/ ex = ExitUnreached.
Proof.
  induction fuel as [|fuel IH]; intros sc w.
  - simpl. destruct (sc <? maxSteps).
    + eexists _, w. split; [reflexivity|]. split.
      * split; [apply run_frame_refl|]. repeat split.
      * intros ex [= <-]. auto.
    + eexists _, w. split; [reflexivity|].
      split; [apply view_loop_post_refl | discriminate].
  - rewrite stepToNextViewLoop_S. cbn [negb andb].
    destruct (sc <? maxSteps).
    2:{ eexists _, w. split; [reflexivity|].
        split; [apply view_loop_post_refl | discriminate]. }
    destruct (heap w !! interp) as [i|] eqn:Hi.
    2:{ exists (Throw dangling), w. split.
        - unfold bind at 1, stepM. rewrite Hi. reflexivity.
        - split; [|discriminate].
          split; [apply run_frame_refl|]. repeat split. }
    erewrite run_recorded_step by exact Hi.
    destruct (fst (step i)) as [c|e].
    + destruct c; cbn [negb].
      * unfold bind at 1, isAtViewM.
        rewrite (after_step_heap _ _ _ _ _ _ _ Hi).
        destruct (isAtView (snd (step i))) eqn:Hat.
        { eexists _, _. split; [reflexivity|]. split.
          - eapply view_loop_post_step; [exact Hi|].
            split; [|split; [reflexivity|]].
            + apply run_frame_ui. intros s.
              apply (proj1 (proj2 (flag_setters_frame false None s))).
            + split; [reflexivity|]. split; [reflexivity|].
              exists (snd (step i)). split; [|exact Hat].
              exact (after_step_heap _ _ _ _ _ _ _ Hi).
          - intros ex [= <-]. auto. }
        destruct (IH (sc + 1)
                    (stepped r interp w i (Z.of_nat (length (history r)))))
          as (res & w' & Hrun & Hpost & Hex).
        exists res, w'. split; [exact Hrun|]. split; [|exact Hex].
        eapply view_loop_post_step; eassumption.
      * eexists _, _. split; [reflexivity|]. split.
        { eapply view_loop_post_step; [exact Hi|].
          split; [apply run_frame_complete|]. repeat split. }
        intros ex [= <-]. auto.
    + eexists _, _. split; [reflexivity|]. split; [|discriminate].
      split; [apply run_frame_throwing_step|]. repeat split.
Qed.

Lemma phase_post_trans (interp : nat) (w w1 w2 : World I)
    (res : result StepToViewExit) :
  run_frame interp true w w1 ->
  isComplete (ui w1) = isComplete (ui w) ->
  error (ui w1) = error (ui w) ->
  phase_post interp w1 w2 res -> phase_post interp w w2 res.
Proof.
  intros Hf Hc He [Hf2 Hres].
  split; [eapply run_frame_trans; eassumption|].
  destruct res as [[]|e]; try exact Hres; try contradiction.
  - destruct Hres as (? & ? & ?). repeat split; congruence.
  - destruct Hres as (? & ? & ?). repeat split; congruence.
  - destruct Hres as (? & ? & ? & ?). repeat split; auto; congruence.
  - congruence.
Qed.

(** The second phase of [stepToView], from any world. *)
Lemma seek_phase_frame (r : ModalState) (interp : nat) (sc : Z)
    (w : World I) :
  exists res w',
    bind (stepToNextViewLoop extractVariableNames updateStepModeVariables
            (Z.to_nat maxSteps) r interp sc false)
      (fun e =>
         match e with
         | Returned exit => ret exit
         | Fell stepsCount =>
             if maxSteps <=? stepsCount then
               (setError
                  (Some "Maximum steps reached while looking for next View") ;;
                setIsSteppingToView false ;;
                ret ExitCeilingSeek)%handler
             else ret ExitUnreached
         end) w = (res, w')
    /\ phase_post interp w w' res.
Proof.
  destruct (stepToNextViewLoop_frame r interp (Z.to_nat maxSteps) sc w)
    as (res & w1 & Hrun & (Hframe & Herr & Hres) & Hex).
  destruct res as [[ex|sc']|e].
  - exists (Ok ex), w1. rewrite (bind_run _ _ _ _ _ Hrun).
    split; [reflexivity|]. split; [exact Hframe|].
    destruct (Hex ex eq_refl) as [-> | [-> | ->]].
    + destruct Hres. auto.
    + destruct Hres as (? & ? & ?). auto.
    + exact Logic.I.
  - rewrite (bind_run _ _ _ _ _ Hrun).
    destruct (maxSteps <=? sc').
    + eexists _, _. split; [reflexivity|]. split; [|reflexivity].
      eapply run_frame_trans; [exact Hframe|].
      eapply run_frame_trans.
      * apply run_frame_ui. intros s.
        apply (proj2 (proj2 (flag_setters_frame false
                 (Some "Maximum steps reached while looking for next View")
                 s))).
      * apply run_frame_ui. intros s.
        apply (proj1 (proj2 (flag_setters_frame false None s))).
    + exists (Ok ExitUnreached), w1. split; [reflexivity|].
      split; [exact Hframe | exact Logic.I].
  - exists (Throw e), w1. rewrite (bind_throw _ _ _ _ _ Hrun).
    split; [reflexivity|]. split; [exact Hframe | exact Hres].
Qed.

(** The body of the [try] block of [stepToView]. *)
Lemma stepToView_body_frame (r : ModalState) (interp : nat)
    (w : World I) :
  exists res w',
    (atView <- isAtViewM interp ;;
     past <-
       (if atView then
          e <- stepPastViewLoop extractVariableNames
                 updateStepModeVariables (Z.to_nat maxSteps) r interp 0
                 true ;;
          match e with
          | Returned exit => ret (Returned exit)
          | Fell stepsCount =>
              if maxSteps <=? stepsCount then
                setError
                  (Some "Maximum steps reached while trying to step past view() breakpoint") ;;
                setIsSteppingToView false ;;
                ret (Returned ExitCeilingPast)
              else ret (Fell stepsCount)
          end
        else ret (Fell 0)) ;;
     match past with
     | Returned exit => ret exit
     | Fell stepsCount =>
         e <- stepToNextViewLoop extractVariableNames
                updateStepModeVariables (Z.to_nat maxSteps) r interp
                stepsCount false ;;
         match e with
         | Returned exit => ret exit
         | Fell stepsCount =>
             if maxSteps <=? stepsCount then
               setError
                 (Some "Maximum steps reached while looking for next View") ;;
               setIsSteppingToView false ;;
               ret ExitCeilingSeek
             else ret ExitUnreached
         end
     end)%handler w = (res, w')
    /\ phase_post interp w w' res.
Proof.
  unfold bind at 1, isAtViewM.
  destruct (heap w !! interp) as [i|] eqn:Hi.
  2:{ exists (Throw dangling), w. split; [reflexivity|].
      split; [apply run_frame_refl | reflexivity]. }
  destruct (isAtView i).
  - destruct (stepPastViewLoop_frame r interp (Z.to_nat maxSteps) 0 true w)
      as (res & w1 & Hrun & (Hframe & Herr & Hres) & Hex).
    unfold bind at 1. unfold bind at 1. rewrite Hrun.
    destruct res as [[ex|sc']|e].
    + exists (Ok ex), w1. split; [reflexivity|]. split; [exact Hframe|].
      destruct (Hex ex eq_refl) as [-> | ->].
      * destruct Hres. auto.
      * exact Logic.I.
    + destruct Hres as [Hc Hs].
      destruct (maxSteps <=? sc').
      * eexists _, _. split; [reflexivity|]. split; [|reflexivity].
        eapply run_frame_trans; [exact Hframe|].
        eapply run_frame_trans.
        -- apply run_frame_ui. intros s.
           apply (proj2 (proj2 (flag_setters_frame false
                    (Some "Maximum steps reached while trying to step past view() breakpoint")
                    s))).
        -- apply run_frame_ui. intros s.
           apply (proj1 (proj2 (flag_setters_frame false None s))).
      * destruct (seek_phase_frame r interp sc' w1)
          as (res2 & w2 & Hrun2 & Hpost2).
        exists res2, w2. split; [exact Hrun2|].
        eapply phase_post_trans; eassumption.
    + exists (Throw e), w1. split; [reflexivity|].
      split; [exact Hframe | exact Hres].
  - destruct (seek_phase_frame r interp 0 w) as (res2 & w2 & Hrun2 & Hpost2).
    exists res2, w2. split; [exact Hrun2 | exact Hpost2].
Qed.

Lemma stepToView_outcome_guard (r : ModalState) (w : World I) :
  stepToView_outcome r w ExitGuard w.
Proof.
  unfold stepToView_outcome.
  split; [reflexivity|]. split; [intros Hne; contradiction|].
  split; [discriminate|]. split; [intros [?|?]; discriminate|].
  discriminate.
Qed.

Lemma stepToView_frame_raw (r : ModalState) (w : World I) :
  exists exit w',
    toView r w = (Ok exit, w')
    /\ (exit <> ExitUnreached -> stepToView_outcome r w exit w').
Proof.
  unfold stepToView.
  destruct (interpreter r) as [interp|] eqn:Hint.
  2:{ exists ExitGuard, w. split; [reflexivity|].
      intros _. apply stepToView_outcome_guard. }
  destruct (isComplete r).
  { exists ExitGuard, w. split; [reflexivity|].
    intros _. apply stepToView_outcome_guard. }
  unfold bind at 1. cbn [setIsSteppingToView modify].
  set (w0 := with_ui (with_isSteppingToView true) w).
  assert (Hf0 : run_frame interp true w w0).
  { apply run_frame_ui. intros s.
    apply (proj1 (proj2 (flag_setters_frame true None s))). }
  assert (Hc0 : isComplete (ui w0) = isComplete (ui w)) by reflexivity.
  assert (He0 : error (ui w0) = error (ui w)) by reflexivity.
  clearbody w0.
  destruct (stepToView_body_frame r interp w0)
    as (res & w1 & Hbody & Hpost).
  eapply phase_post_trans in Hpost; [|exact Hf0|exact Hc0|exact He0].
  destruct Hpost as [Hframe Hres].
  unfold try_catch. rewrite Hbody.
  destruct res as [exit|e].
  - exists exit, w1. split; [reflexivity|]. intros Hne.
    unfold stepToView_outcome.
    destruct exit; try contradiction; simpl in Hframe.
    + destruct Hres as (Hc & He & Hs).
      split; [discriminate|]. split; [eauto|]. split; [discriminate|].
      split; [auto|discriminate].
    + split; [discriminate|]. split; [eauto|]. split; [discriminate|].
      split; [intros [?|?]; discriminate|discriminate].
    + destruct Hres as (Hc & He & Hs).
      split; [discriminate|]. split; [eauto|]. split; [discriminate|].
      split; [auto|discriminate].
    + destruct Hres as (Hc & He & Hs & i' & Hi' & Hat).
      split; [discriminate|]. split; [eauto|]. split.
      { intros _. split; [exact Hc|]. split; [exact He|].
        exists interp, i'. auto. }
      split; [intros [?|?]; discriminate|discriminate].
    + split; [discriminate|]. split; [eauto|]. split; [discriminate|].
      split; [intros [?|?]; discriminate|discriminate].
  - eexists ExitError, _. split; [reflexivity|]. intros _.
    unfold stepToView_outcome. simpl in Hframe.
    split; [discriminate|]. split.
    { intros _. split; [reflexivity|]. exists interp.
      split; [exact Hint | exact Hframe]. }
    split; [discriminate|]. split; [intros [?|?]; discriminate|].
    intros _. split; [exact Hres|]. exists e. reflexivity.
Qed.

(** Every invocation of [stepToView], by the way it leaves. *)
Lemma stepToView_frame (r : ModalState) (w : World I) :
  exists exit w',
    toView r w = (Ok exit, w') /\ stepToView_outcome r w exit w'.
Proof.
  destruct (stepToView_spec extractVariableNames updateStepModeVariables
              r w) as (exit0 & w0' & Hrun0 & Hne0 & _).
  destruct (stepToView_frame_raw r w) as (exit & w' & Hrun & Hout).
  exists exit, w'. split; [exact Hrun|]. apply Hout.
  rewrite Hrun in Hrun0. injection Hrun0 as -> _. exact Hne0.
Qed.

(** *** refresh, case by case *)

Lemma refresh_run (r : ModalState) (w : World I) :
  exists w',
    refresh windowInterpreter extractVariableNames updateStepModeVariables
      JSON_stringify r w = (Ok tt, w')
    /\ autoPlayIntervalRef w' = None
    /\ intervals w' = intervals_after_clear w
    /\ isRunning (ui w') = false
    /\ isComplete (ui w') = false
    /\ isSteppingToView (ui w') = false
    /\ code (ui w') = code (ui w)
    /\ environment (ui w') = environment (ui w)
    /\ ((cannot_initialize windowInterpreter JSON_stringify (code r)
           (environment r)
         /\ interpreter (ui w') = None /\ history (ui w') = []
         /\ heap w' = heap w /\ exists msg, error (ui w') = Some msg)
        \/ (exists InterpreterClass i,
              windowInterpreter = Some InterpreterClass
              /\ forallb isWhiteSpace (code r) = false
              /\ InterpreterClass (code r)
                   (initFunc JSON_stringify (environment r)) = Ok i
              /\ interpreter (ui w') = Some (length (heap w))
              /\ heap w' = heap w ++ [i]
              /\ error (ui w') = None
              /\ history (ui w')
                 = [fst (getCurrentState extractVariableNames
                           updateStepModeVariables (code r) (now w) i 0)]
              /\ nsteps w' = nsteps w)).
Proof.
  unfold refresh, intervals_after_clear.
  unfold bind at 1. cbn [setInterpreter modify].
  unfold bind at 1. cbn [setHistory modify].
  unfold bind at 1. cbn [setIsComplete modify].
  unfold bind at 1. cbn [setError modify].
  unfold bind at 1. cbn [setIsRunning modify].
  unfold bind at 1. cbn [setIsSteppingToView modify].
  unfold bind at 1. unfold clearAutoPlay at 1.
  cbn [autoPlayIntervalRef with_ui].
  match goal with |- context [match autoPlayIntervalRef w with
                              | Some h => _ | None => (Ok tt, ?wn) end] =>
    set (w1 := wn) end.
  set (w2 := match autoPlayIntervalRef w with
             | Some h =>
                 with_ref None
                   (log [EvClearInterval h]
                      (with_intervals
                         (List.filter
                            (fun p => negb (Pos.eqb (fst p) h))
                            (intervals w)) w1))
             | None => w1
             end).
  assert (Hclear :
    match autoPlayIntervalRef w with
    | Some h => (clearInterval h ;; modify (with_ref None))%handler w1
    | None => (Ok tt, w1)
    end = (Ok tt, w2)).
  { subst w2. destruct (autoPlayIntervalRef w); reflexivity. }
  rewrite Hclear. clear Hclear.
  assert (Hw2 :
    autoPlayIntervalRef w2 = None
    /\ intervals w2
       = match autoPlayIntervalRef w with
         | Some h =>
             List.filter (fun p => negb (Pos.eqb (fst p) h)) (intervals w)
         | None => intervals w
         end
    /\ ui w2
       = mkModal false false None (autoPlaySpeed (ui w)) None
           (code (ui w)) [] false (environment (ui w))
    /\ heap w2 = heap w /\ now w2 = now w /\ nsteps w2 = nsteps w).
  { subst w2 w1. destruct (autoPlayIntervalRef w) eqn:Href;
      repeat split; simpl; try (rewrite Href; reflexivity).
    unfold nsteps. simpl. rewrite count_events_app.
    unfold count_events. simpl. lia. }
  clearbody w2. clear w1.
  destruct Hw2 as (Href2 & Hint2 & Hui2 & Hheap2 & Hnow2 & Hn2).
  unfold bind at 1.
  set (w3 := if codeMirrorView w2 then log [EvDispatch] w2 else w2).
  assert (Hdisp : (if codeMirrorView w2 then emit EvDispatch w2
                   else (Ok tt, w2)) = (Ok tt, w3)).
  { subst w3. destruct (codeMirrorView w2); reflexivity. }
  rewrite Hdisp. clear Hdisp.
  assert (Hw3 :
    autoPlayIntervalRef w3 = None /\ intervals w3 = intervals w2
    /\ ui w3 = ui w2 /\ heap w3 = heap w2 /\ now w3 = now w2
    /\ nsteps w3 = nsteps w2).
  { subst w3. destruct (codeMirrorView w2); repeat split; auto.
    unfold nsteps. simpl. rewrite count_events_app.
    unfold count_events. simpl. lia. }
  clearbody w3.
  destruct Hw3 as (Href3 & Hint3 & Hui3 & Hheap3 & Hnow3 & Hn3).
  rewrite is_empty_trim.
  destruct (forallb isWhiteSpace (code r)) eqn:Hws.
  { eexists. split; [reflexivity|]. simpl.
    rewrite Href3, Hint3, Hint2, Hui3, Hui2, Hheap3, Hheap2. simpl.
    repeat split. left.
    split; [right; left; exact Hws|]. repeat split. eauto. }
  unfold bind at 1, initializeInterpreter.
  destruct windowInterpreter as [InterpreterClass|].
  2:{ simpl. eexists. split; [reflexivity|]. simpl.
      rewrite Href3, Hint3, Hint2, Hui3, Hui2, Hheap3, Hheap2. simpl.
      repeat split. left.
      split; [left; reflexivity|]. repeat split. eauto. }
  rewrite is_empty_trim, Hws.
  destruct (InterpreterClass (code r)
              (initFunc JSON_stringify (environment r))) as [i|err] eqn:Hnew.
  2:{ simpl. eexists. split; [reflexivity|]. simpl.
      rewrite Href3, Hint3, Hint2, Hui3, Hui2, Hheap3, Hheap2. simpl.
      repeat split. left.
      split; [right; right; eauto|]. repeat split. eauto. }
  unfold bind, alloc, ret, setInterpreter, setHistory, modify,
    getCurrentStateM, highlightCode, emit. simpl.
  rewrite list_lookup_middle by reflexivity.
  destruct (getCurrentState extractVariableNames updateStepModeVariables
              (code r) (now w3) i 0) as [st tr] eqn:Hst.
  eexists. split; [reflexivity|]. simpl.
  rewrite Href3, Hint3, Hint2, Hui3, Hui2, Hheap3, Hheap2. simpl.
  repeat split. right. exists InterpreterClass, i.
  rewrite <- Hnow2, <- Hnow3, Hst. simpl.
  repeat split; try assumption.
  rewrite <- Hn2, <- Hn3.
  unfold nsteps. simpl. rewrite !count_events_app.
  pose proof (f_equal snd Hst) as Htr. simpl in Htr.
  assert (Hzero : count_events is_step tr = 0%nat).
  { rewrite <- Htr. unfold count_events.
    rewrite getCurrentState_trace, List.filter_app.
    rewrite lookups_only_no_step by apply debugVariables_lookups.
    simpl. destruct (isAtView i); [|reflexivity].
    unfold viewVariablesOf.
    repeat match goal with
           | |- context [match ?x with _ => _ end] => destruct x
           end; try reflexivity.
    rewrite tbind_snd, List.filter_app.
    rewrite lookups_only_no_step
      by apply collectVariablesFromStack_lookups.
    reflexivity. }
  rewrite Hzero. unfold count_events at 2. simpl. lia.
Qed.

(** *** The timer *)

Lemma synced_clear (w : World I) :
  timer_synced w -> intervals_after_clear w = [].
Proof.
  unfold timer_synced, intervals_after_clear.
  destruct (autoPlayIntervalRef w) as [h|]; [|intros [_ ->]; reflexivity].
  intros [_ Hh]. destruct (intervals w) as [|[h' r'] [|q rest]];
    try discriminate.
  injection Hh as ->. simpl. rewrite Pos.eqb_refl. reflexivity.
Qed.

Lemma synced_off (w : World I) :
  autoPlayIntervalRef w = None -> isRunning (ui w) = false ->
  intervals w = [] -> timer_synced w.
Proof.
  intros Href Hrun Hint. unfold timer_synced. rewrite Href. auto.
Qed.

Lemma synced_same (w w' : World I) :
  autoPlayIntervalRef w' = autoPlayIntervalRef w ->
  isRunning (ui w') = isRunning (ui w) ->
  intervals w' = intervals w ->
  timer_synced w -> timer_synced w'.
Proof.
  unfold timer_synced. intros -> -> ->. trivial.
Qed.

Lemma forward_guard (r : ModalState) (w : World I) :
  interpreter r = None \/ isComplete r = true ->
  forward r w = (Ok tt, w).
Proof.
  unfold stepForward. intros [->| ->]; [reflexivity|].
  destruct (interpreter r); reflexivity.
Qed.

Lemma toView_guard (r : ModalState) (w : World I) :
  interpreter r = None \/ isComplete r = true ->
  toView r w = (Ok ExitGuard, w).
Proof.
  unfold stepToView. intros [->| ->]; [reflexivity|].
  destruct (interpreter r); reflexivity.
Qed.

Lemma forward_synced (r : ModalState) (w : World I) :
  timer_synced w ->
  exists w', forward r w = (Ok tt, w') /\ timer_synced w'.
Proof.
  intros Hs.
  destruct (interpreter r) as [interp|] eqn:Hint.
  2:{ exists w. split; [apply forward_guard; left; exact Hint | exact Hs]. }
  destruct (isComplete r) eqn:Hcomp.
  { exists w. split; [apply forward_guard; right; exact Hcomp | exact Hs]. }
  destruct (heap w !! interp) as [i|] eqn:Hi.
  2:{ destruct (stepForward_dangling_run r w interp Hint Hcomp Hi)
        as (w' & Hrun & _ & Hr & _ & _ & _ & _ & _ & _ & _ & _ & _
            & Href & Hiv).
      exists w'. split; [exact Hrun|].
      apply synced_off; [exact Href | exact Hr |].
      rewrite Hiv. apply synced_clear, Hs. }
  destruct (fst (step i)) as [c|e] eqn:Hc.
  - destruct (stepForward_ok_run r w interp i c Hint Hcomp Hi Hc)
      as (w' & Hrun & _ & _ & _ & _ & _ & _ & Htrue & Hfalse).
    exists w'. split; [exact Hrun|]. destruct c.
    + destruct (Htrue eq_refl) as (_ & Hr & Href & Hiv & _).
      exact (synced_same w w' Href Hr Hiv Hs).
    + destruct (Hfalse eq_refl) as (_ & Hr & _ & Href & Hiv).
      apply synced_off; [exact Href | exact Hr |].
      rewrite Hiv. apply synced_clear, Hs.
  - destruct (stepForward_throw_run r w interp i e Hint Hcomp Hi Hc)
      as (w' & Hrun & _ & Hr & _ & _ & _ & _ & _ & _ & _ & _ & _
          & Href & Hiv).
    exists w'. split; [exact Hrun|].
    apply synced_off; [exact Href | exact Hr |].
    rewrite Hiv. apply synced_clear, Hs.
Qed.

Lemma toView_synced (r : ModalState) (w : World I) :
  timer_synced w ->
  exists exit w', toView r w = (Ok exit, w') /\ timer_synced w'.
Proof.
  intros Hs. destruct (stepToView_frame r w)
    as (exit & w' & Hrun & Hguard & Hrest & _).
  exists exit, w'. split; [exact Hrun|].
  assert (Hdec : exit = ExitGuard \/ exit <> ExitGuard)
    by (destruct exit; (left; reflexivity) || (right; discriminate)).
  destruct Hdec as [He|He].
  - rewrite (Hguard He). exact Hs.
  - destruct (Hrest He) as (_ & interp & _ & Hframe & _).
    destruct Hframe as (_ & _ & Href & Hiv & _ & Hr & _).
    exact (synced_same w w' Href Hr Hiv Hs).
Qed.

Lemma toggleAutoPlay_run (r : ModalState) (w : World I) :
  exists w',
    toggleAutoPlay r w = (Ok tt, w')
    /\ heap w' = heap w
    /\ nsteps w' = nsteps w
    /\ ui w' = with_isRunning
                (negb (bool_decide (is_Some (autoPlayIntervalRef w))))
                (ui w)
    /\ match autoPlayIntervalRef w with
       | Some h =>
           autoPlayIntervalRef w' = None
           /\ intervals w' = intervals_after_clear w
           /\ next_handle w' = next_handle w
       | None =>
           autoPlayIntervalRef w' = Some (next_handle w)
           /\ intervals w' = intervals w ++ [(next_handle w, r)]
           /\ next_handle w' = Pos.succ (next_handle w)
       end.
Proof.
  unfold toggleAutoPlay, intervals_after_clear.
  destruct (autoPlayIntervalRef w) as [h|] eqn:Href;
    unfold bind, clearInterval, setInterval, setIsRunning, modify; simpl;
    eexists; (split; [reflexivity|]); simpl; rewrite ?Href;
    repeat split;
    unfold nsteps; simpl; rewrite count_events_app;
    unfold count_events; simpl; lia.
Qed.

(** *** The handlers *)

(** X9. The step that ends the program: when [interpreter.step()]
    returns [false], [stepForward] still appends the snapshot of that
    step, marks the session complete, stops auto-play and clears the
    timer, and leaves the error as it was.  From then on the step button,
    the step-to-view button and every timer callback change nothing. *)
Theorem stepForward_last_step (r : ModalState) (w : World I)
    (interp : nat) (i : I) :
  interpreter r = Some interp -> isComplete r = false ->
  heap w !! interp = Some i -> fst (step i) = Ok false ->
  timer_synced w ->
  exists w',
    forward r w = (Ok tt, w')
    /\ history (ui w')
       = history (ui w)
         ++ [fst (snapshot r w i (Z.of_nat (length (history r))))]
    /\ isComplete (ui w') = true
    /\ isRunning (ui w') = false
    /\ isSteppingToView (ui w') = false
    /\ error (ui w') = error (ui w)
    /\ autoPlayIntervalRef w' = None
    /\ intervals w' = []
    /\ click forward w' = (Ok tt, w')
    /\ click toView w' = (Ok ExitGuard, w')
    /\ forall h,
         tick extractVariableNames updateStepModeVariables h w'
         = (Ok tt, w').
Proof.
  intros Hint Hcomp Hi Hc Hs.
  destruct (stepForward_ok_run r w interp i false Hint Hcomp Hi Hc)
    as (w' & Hrun & _ & Herr & _ & _ & _ & _ & _ & Hfalse).
  destruct (Hfalse eq_refl) as (Hdone & Hr & Hflag & Href & Hiv).
  destruct (stepForward_success extractVariableNames
              updateStepModeVariables r w interp i false
              Hint Hcomp Hi Hc) as (w2 & Hrun2 & Hh & _).
  rewrite Hrun in Hrun2. injection Hrun2 as <-.
  assert (Hnone : intervals w' = [])
    by (rewrite Hiv; apply synced_clear, Hs).
  exists w'. split; [exact Hrun|]. split; [exact Hh|].
  split; [exact Hdone|]. split; [exact Hr|]. split; [exact Hflag|].
  split; [exact Herr|]. split; [exact Href|]. split; [exact Hnone|].
  split; [apply forward_guard; right; exact Hdone|].
  split; [apply toView_guard; right; exact Hdone|].
  intros h. unfold tick. rewrite Hnone. reflexivity.
Qed.

(** X10. A step that throws: [stepForward] catches the exception and
    returns normally; the error reads "Execution error: " followed by the
    exception's message, no snapshot is appended, auto-play is stopped
    and its timer cleared, and the step-to-view flag is dropped.  The
    session is not marked complete and keeps its interpreter, which has
    run the failed step. *)
Theorem stepForward_exception (r : ModalState) (w : World I)
    (interp : nat) (i : I) (e : exn) :
  interpreter r = Some interp -> isComplete r = false ->
  heap w !! interp = Some i -> fst (step i) = Throw e ->
  exists w',
    forward r w = (Ok tt, w')
    /\ error (ui w') = Some ("Execution error: " +:+ exnString e)
    /\ history (ui w') = history (ui w)
    /\ isRunning (ui w') = false
    /\ isSteppingToView (ui w') = false
    /\ autoPlayIntervalRef w' = None
    /\ intervals w' = intervals_after_clear w
    /\ isComplete (ui w') = isComplete (ui w)
    /\ interpreter (ui w') = interpreter (ui w)
    /\ heap w' = <[interp := snd (step i)]> (heap w)
    /\ nsteps w' = nsteps w + 1.
Proof.
  intros Hint Hcomp Hi He.
  destruct (stepForward_throw_run r w interp i e Hint Hcomp Hi He)
    as (w' & Hrun & H1 & H2 & H3 & H4 & H5 & H6 & _ & _ & H9 & _ & H11
        & H12 & H13).
  exists w'. repeat split; assumption.
Qed.


(** X12. One snapshot per step in [stepToView]: the history grows by a
    list [added] of snapshots, and the number of [step()] calls made is
    the length of [added], or one more when the last step threw.  The
    invocation touches no interpreter object but the one of its render,
    keeps the size of the heap, and leaves the timer, the auto-play flag,
    the interpreter reference, the code and the environment alone. *)
Theorem stepToView_snapshot_per_step (r : ModalState) (w : World I) :
  exists exit w' added,
    toView r w = (Ok exit, w')
    /\ history (ui w') = history (ui w) ++ added
    /\ Z.of_nat (length added) <= nsteps w' - nsteps w
       <= Z.of_nat (length added) + 1
    /\ (exit <> ExitError ->
        nsteps w' - nsteps w = Z.of_nat (length added))
    /\ (forall interp, interpreter r = Some interp ->
        step_frame interp w w').
Proof.
  destruct (stepToView_frame r w)
    as (exit & w' & Hrun & Hguard & Hrest & _).
  assert (Hdec : exit = ExitGuard \/ exit <> ExitGuard)
    by (destruct exit; (left; reflexivity) || (right; discriminate)).
  destruct Hdec as [He|He].
  - rewrite (Hguard He) in *. exists exit, w, [].
    split; [exact Hrun|]. split; [symmetry; apply app_nil_r|].
    simpl. split; [lia|]. split; [intros _; lia|].
    intros interp _. apply step_frame_refl.
  - destruct (Hrest He)
      as (_ & interp & Hint & Hframe & added & Hh & Hcount & Hok).
    exists exit, w', added. split; [exact Hrun|]. split; [exact Hh|].
    split; [exact Hcount|]. split.
    + intros Hne. apply Hok. destruct exit; try reflexivity.
      contradiction.
    + intros interp' Hint'. rewrite Hint in Hint'.
      injection Hint' as <-. exact Hframe.
Qed.

(** X13. The auto-play flag and the timer stay in step: if the flag is
    set exactly when the handle is held, and the handle's timer is the
    only one registered, then the same holds after [refresh],
    [stepForward], [stepToView], [stepBackward] and [toggleAutoPlay]
    called from any render, and after any timer callback. *)
Theorem timer_synced_preserved (r : ModalState) (h : positive)
    (w : World I) :
  timer_synced w ->
  timer_synced
    (snd (refresh windowInterpreter extractVariableNames
            updateStepModeVariables JSON_stringify r w))
  /\ timer_synced (snd (forward r w))
  /\ timer_synced (snd (toView r w))
  /\ timer_synced (snd (stepBackward r w))
  /\ timer_synced (snd (toggleAutoPlay r w))
  /\ timer_synced
       (snd (tick extractVariableNames updateStepModeVariables h w)).
Proof.
  intros Hs. split; [|split; [|split; [|split; [|split]]]].
  - destruct (refresh_run r w)
      as (w' & Hrun & Href & Hiv & Hr & _).
    rewrite Hrun. simpl. apply synced_off; [exact Href | exact Hr |].
    rewrite Hiv. apply synced_clear, Hs.
  - destruct (forward_synced r w Hs) as (w' & Hrun & Hs').
    rewrite Hrun. exact Hs'.
  - destruct (toView_synced r w Hs) as (exit & w' & Hrun & Hs').
    rewrite Hrun. exact Hs'.
  - destruct (stepBackward_run r w)
      as (w' & Hrun & Hui & _ & Href & Hiv & _).
    rewrite Hrun. simpl.
    apply (synced_same w w' Href); [rewrite Hui; reflexivity
                                  | exact Hiv | exact Hs].
  - destruct (toggleAutoPlay_run r w)
      as (w' & Hrun & _ & _ & Hui & Hcase).
    rewrite Hrun. simpl. pose proof Hs as Hs0.
    unfold timer_synced in Hs. unfold timer_synced.
    destruct (autoPlayIntervalRef w) as [h0|] eqn:Href.
    + destruct Hcase as (-> & Hiv & _). rewrite Hui, Hiv.
      split; [reflexivity | apply synced_clear, Hs0].
    + destruct Hcase as (-> & Hiv & _). rewrite Hui, Hiv.
      destruct Hs as [_ ->]. split; reflexivity.
  - unfold tick.
    destruct (List.find (fun p => Pos.eqb (fst p) h) (intervals w))
      as [[h' r']|]; [|exact Hs].
    destruct (forward_synced r' w Hs) as (w' & Hrun & Hs').
    rewrite Hrun. exact Hs'.
Qed.

(** X14. Starting and stopping auto-play is a round trip.  From a
    session with no timer, [toggleAutoPlay] sets the flag and registers
    one timer, under the next free handle, whose callback is the
    [stepForward] of the render that registered it; a second
    [toggleAutoPlay], from any render, clears that timer and the flag and
    gives back the component state and the interpreter objects of the
    start without a step having been made, after which no timer callback
    changes anything. *)
Theorem toggleAutoPlay_round_trip (r r' : ModalState) (w : World I) :
  autoPlayIntervalRef w = None -> timer_synced w ->
  exists w1 w2,
    toggleAutoPlay r w = (Ok tt, w1)
    /\ isRunning (ui w1) = true
    /\ autoPlayIntervalRef w1 = Some (next_handle w)
    /\ intervals w1 = [(next_handle w, r)]
    /\ tick extractVariableNames updateStepModeVariables
         (next_handle w) w1 = forward r w1
    /\ toggleAutoPlay r' w1 = (Ok tt, w2)
    /\ autoPlayIntervalRef w2 = None
    /\ intervals w2 = []
    /\ ui w2 = ui w
    /\ heap w2 = heap w
    /\ nsteps w2 = nsteps w
    /\ forall h,
         tick extractVariableNames updateStepModeVariables h w2
         = (Ok tt, w2).
Proof.
  intros Href Hs. pose proof Hs as Hs0.
  unfold timer_synced in Hs. rewrite Href in Hs. destruct Hs as [Hr Hiv].
  destruct (toggleAutoPlay_run r w)
    as (w1 & Hrun1 & Hheap1 & Hn1 & Hui1 & Hcase1).
  rewrite Href in Hcase1, Hui1. destruct Hcase1 as (Href1 & Hiv1 & _).
  rewrite Hiv in Hiv1. simpl in Hiv1.
  destruct (toggleAutoPlay_run r' w1)
    as (w2 & Hrun2 & Hheap2 & Hn2 & Hui2 & Hcase2).
  rewrite Href1 in Hcase2, Hui2. destruct Hcase2 as (Href2 & Hiv2 & _).
  assert (Hnone : intervals w2 = []).
  { rewrite Hiv2. unfold intervals_after_clear. rewrite Href1, Hiv1.
    simpl. rewrite Pos.eqb_refl. reflexivity. }
  exists w1, w2. split; [exact Hrun1|].
  split; [rewrite Hui1; reflexivity|]. split; [exact Href1|].
  split; [exact Hiv1|].
  split; [unfold tick; rewrite Hiv1; simpl; rewrite Pos.eqb_refl;
          reflexivity|].
  split; [exact Hrun2|]. split; [exact Href2|]. split; [exact Hnone|].
  split.
  { rewrite Hui2, Hui1. revert Hr. destruct (ui w). simpl.
    intros ->. reflexivity. }
  split; [rewrite Hheap2; exact Hheap1|].
  split; [rewrite Hn2; exact Hn1|].
  intros h. unfold tick. rewrite Hnone. reflexivity.
Qed.

(** X15. A successful [refresh]: when the library is loaded, the text
    is not blank and the constructor returns an interpreter object, that
    object is added to the heap behind the existing ones and becomes the
    session's interpreter; the history is the single snapshot of the
    object before any step, numbered 0; the error is cleared, the three
    flags are down and no timer handle is held. *)
Theorem refresh_success_ready (r : ModalState) (w : World I)
    (InterpreterClass : list N -> (I -> jsvalue -> result I) -> result I)
    (i : I) :
  windowInterpreter = Some InterpreterClass ->
  forallb isWhiteSpace (code r) = false ->
  InterpreterClass (code r) (initFunc JSON_stringify (environment r))
  = Ok i ->
  exists w' st,
    refresh windowInterpreter extractVariableNames updateStepModeVariables
      JSON_stringify r w = (Ok tt, w')
    /\ interpreter (ui w') = Some (length (heap w))
    /\ heap w' = heap w ++ [i]
    /\ history (ui w') = [st]
    /\ st = fst (getCurrentState extractVariableNames
                   updateStepModeVariables (code r) (now w) i 0)
    /\ dstep st = 0
    /\ nsteps w' = nsteps w
    /\ error (ui w') = None
    /\ isComplete (ui w') = false
    /\ isRunning (ui w') = false
    /\ isSteppingToView (ui w') = false
    /\ autoPlayIntervalRef w' = None.
Proof.
  intros Hcls Hws Hnew.
  destruct (refresh_run r w)
    as (w' & Hrun & Href & _ & Hr & Hdone & Hflag & _ & _ & Hcase).
  destruct Hcase as [(Hcannot & _)
                    |(cls & i0 & Hcls0 & _ & Hnew0 & Hint & Hheap & Herr
                      & Hh & Hn)].
  - exfalso. destruct Hcannot as [Hno|[Hblank|(cls & err & Hc & Ht)]].
    + rewrite Hno in Hcls. discriminate.
    + rewrite Hblank in Hws. discriminate.
    + rewrite Hcls in Hc. injection Hc as <-.
      rewrite Hnew in Ht. discriminate.
  - rewrite Hcls in Hcls0. injection Hcls0 as <-.
    rewrite Hnew in Hnew0. injection Hnew0 as <-.
    eexists w', _. split; [exact Hrun|]. split; [exact Hint|].
    split; [exact Hheap|]. split; [exact Hh|]. split; [reflexivity|].
    split; [apply getCurrentState_dstep|]. split; [exact Hn|].
    split; [exact Herr|]. split; [exact Hdone|]. split; [exact Hr|].
    split; [exact Hflag | exact Href].
Qed.

End HandlerMore.

Lemma stepForward_last_step_witness :
  exists w',
    tick (toy_extractVariableNames []) toy_updateStepModeVariables
      1%positive lastStepWorld = (Ok tt, w')
    /\ length (history (ui w')) = 2%nat
    /\ isComplete (ui w') = true
    /\ isRunning (ui w') = false
    /\ intervals w' = [].
Proof.
  assert (Hstep : fst (step lastStepToy) = Ok false) by reflexivity.
  assert (Hs : timer_synced lastStepWorld) by (split; reflexivity).
  destruct (stepForward_last_step (toy_extractVariableNames [])
              toy_updateStepModeVariables (ui lastStepWorld)
              lastStepWorld 0%nat lastStepToy
              eq_refl eq_refl eq_refl Hstep Hs)
    as (w' & Hrun & Hh & Hdone & Hr & _ & _ & _ & Hiv & _).
  exists w'. split; [exact Hrun|].
  split; [rewrite Hh; reflexivity|].
  split; [exact Hdone|]. split; [exact Hr | exact Hiv].
Defined.

Lemma stepForward_exception_witness :
  exists w',
    stepForward (toy_extractVariableNames []) toy_updateStepModeVariables
      (ui faultyWorld) faultyWorld = (Ok tt, w')
    /\ error (ui w')
       = Some "Execution error: ReferenceError: y is not defined"
    /\ history (ui w') = history (ui faultyWorld)
    /\ isRunning (ui w') = false
    /\ intervals w' = []
    /\ isComplete (ui w') = false
    /\ heap w' = [mkFaulty lastStepToy 1].
Proof.
  assert (Hstep : fst (step (mkFaulty lastStepToy 0))
                  = Throw (ErrorObj "ReferenceError" "y is not defined"))
    by reflexivity.
  destruct (stepForward_exception (toy_extractVariableNames [])
              toy_updateStepModeVariables (ui faultyWorld) faultyWorld
              0%nat (mkFaulty lastStepToy 0)
              (ErrorObj "ReferenceError" "y is not defined")
              eq_refl eq_refl eq_refl Hstep)
    as (w' & Hrun & Herr & Hh & Hr & _ & _ & Hiv & Hdone & _ & Hheap & _).
  exists w'. split; [exact Hrun|]. split; [exact Herr|].
  split; [exact Hh|]. split; [exact Hr|]. split; [exact Hiv|].
  split; [exact Hdone | exact Hheap].
Defined.

Lemma timer_synced_preserved_witness :
  timer_synced lastStepWorld
  /\ timer_synced
       (snd (tick (toy_extractVariableNames []) toy_updateStepModeVariables
               1%positive lastStepWorld))
  /\ timer_synced
       (snd (toggleAutoPlay (ui lastStepWorld) lastStepWorld)).
Proof.
  assert (Hs : timer_synced lastStepWorld) by (split; reflexivity).
  destruct (timer_synced_preserved
              (Some (toyInterpreterClass lastStepToy))
              (toy_extractVariableNames []) toy_updateStepModeVariables
              toy_JSON_stringify (ui lastStepWorld) 1%positive
              lastStepWorld Hs) as (_ & _ & _ & _ & Htoggle & Htick).
  split; [exact Hs|]. split; [exact Htick | exact Htoggle].
Defined.

Lemma toggleAutoPlay_round_trip_witness :
  exists w1 w2,
    toggleAutoPlay (ui viewWorld) viewWorld = (Ok tt, w1)
    /\ isRunning (ui w1) = true
    /\ intervals w1 = [(1%positive, ui viewWorld)]
    /\ toggleAutoPlay (ui w1) w1 = (Ok tt, w2)
    /\ intervals w2 = []
    /\ ui w2 = ui viewWorld.
Proof.
  assert (Hs : timer_synced viewWorld) by (split; reflexivity).
  destruct (toggleAutoPlay_round_trip (toy_extractVariableNames [])
              toy_updateStepModeVariables (ui viewWorld)
              (with_isRunning true (ui viewWorld)) viewWorld eq_refl Hs)
    as (w1 & w2 & Hrun1 & Hr1 & _ & Hiv1 & _ & Hrun2 & _ & Hiv2 & Hui
        & _).
  exists w1, w2. split; [exact Hrun1|]. split; [exact Hr1|].
  split; [exact Hiv1|]. split.
  { injection Hrun1 as <-. exact Hrun2. }
  split; [exact Hiv2 | exact Hui].
Defined.

Lemma refresh_success_ready_witness :
  exists w' st,
    refresh (Some (toyInterpreterClass letViewToy))
      (toy_extractVariableNames ["x"]) toy_updateStepModeVariables
      toy_JSON_stringify (initialModal letViewCode)
      (initialWorld letViewCode []) = (Ok tt, w')
    /\ interpreter (ui w') = Some 0%nat
    /\ heap w' = [letViewLoaded]
    /\ history (ui w') = [st]
    /\ dstep st = 0
    /\ error (ui w') = None.
Proof.
  assert (Hnew : toyInterpreterClass letViewToy
                   (code (initialModal letViewCode))
                   (initFunc toy_JSON_stringify
                      (environment (initialModal letViewCode)))
                 = Ok letViewLoaded) by reflexivity.
  destruct (refresh_success_ready (Some (toyInterpreterClass letViewToy))
              (toy_extractVariableNames ["x"]) toy_updateStepModeVariables
              toy_JSON_stringify (initialModal letViewCode)
              (initialWorld letViewCode [])
              (toyInterpreterClass letViewToy) letViewLoaded
              eq_refl eq_refl Hnew)
    as (w' & st & Hrun & Hint & Hheap & Hh & _ & Hd & _ & Herr & _).
  exists w', st. split; [exact Hrun|]. split; [exact Hint|].
  split; [exact Hheap|]. split; [exact Hh|]. split; [exact Hd | exact Herr].
Defined.

Lemma getCurrentState_variables_pass_through_witness :
  variables
    (fst (getCurrentState (toy_extractVariableNames ["x"])
            toy_updateStepModeVariables [] 0 shadowToy 3)) !! "x"
  = Some (VNum 2).
Proof.
  destruct (getCurrentState_variables_pass_through
              (toy_extractVariableNames ["x"]) toy_updateStepModeVariables
              [] 0 shadowToy 3 ["x"] eq_refl) as (Hpass & _).
  rewrite Hpass; [reflexivity|].
  unfold debugKeys. intros Hin.
  repeat (apply elem_of_cons in Hin; destruct Hin as [Heq|Hin];
          [discriminate Heq|]).
  inversion Hin.
Defined.
